(** * coco: commit protocols and worker loops, embedded and verified

    A shallow embedding of
      - [protocol/Scar/Scar.h]            (module [Scar]),
      - [core/Executor.h]                 (module [Executor]),
      - [protocol/RStore/RStoreExecutor.h] (module [RStoreExecutor]),
      - [protocol/Aria/AriaTransaction.h] (module [AriaTransaction]),
    together with the parts of the record metadata word they rely on
    (module [ScarHelper]).

    Conventions.  Unsigned 64-bit quantities are integers in [Z]; an
    increment that the C++ performs on a [uint64_t] or [std::size_t] is
    written with its wrap-around ([wrap64]).  Indices into vectors are [nat].
    A [for] loop over a vector is the combinator [for_loop], whose body says
    whether the loop goes on or leaves through [break].  A call that may not
    come back (a wait for remote responses) takes a fuel argument and returns
    an [option]. *)

From Stdlib Require Import ZArith Lia Bool List.
From stdpp Require Import base tactics option list.
Import ListNotations.

Local Open Scope Z_scope.

(** ** Machine arithmetic *)

Definition wrap64 (x : Z) : Z := x mod 2 ^ 64.

(** ** Loops with [break] *)

Inductive LoopStep (S : Type) : Type :=
| Continue (s : S)
| Break (s : S).
Arguments Continue {S} s.
Arguments Break {S} s.

(** [for (i = i0; i < i0 + n; i++) body], the state threaded through. *)
Fixpoint for_loop {S : Type} (body : nat -> S -> LoopStep S)
    (n i : nat) (s : S) : S :=
  match n with
  | O => s
  | Datatypes.S n' =>
      match body i s with
      | Continue s' => for_loop body n' (Datatypes.S i) s'
      | Break s' => s'
      end
  end.

(** The same loop for a body that may fail to come back ([None]). *)
Fixpoint for_loop_opt {S : Type} (body : nat -> S -> option (LoopStep S))
    (n i : nat) (s : S) : option S :=
  match n with
  | O => Some s
  | Datatypes.S n' =>
      match body i s with
      | None => None
      | Some (Continue s') => for_loop_opt body n' (Datatypes.S i) s'
      | Some (Break s') => Some s'
      end
  end.

(** ** Loops told element by element *)



(** ** The record metadata word (TID) *)

Module ScarHelper.

(** Modelled from the spec: [protocol/Scar/ScarHelper.h] is not among the
    sources.  The layout is the one of the data model: bit 63 is [LOCK],
    bits 62..32 hold [wts], bits 31..5 hold the delta [rts - wts], bits
    4..0 are reserved. *)
Definition LOCK_BIT : Z := 63.
Definition WTS_OFFSET : Z := 32.
Definition WTS_BITS : Z := 31.
Definition DELTA_OFFSET : Z := 5.
Definition DELTA_BITS : Z := 27.
Definition DELTA_MAX : Z := Z.ones DELTA_BITS.

Definition is_locked (tid : Z) : bool := Z.testbit tid LOCK_BIT.

Definition get_wts (tid : Z) : Z :=
  Z.land (Z.shiftr tid WTS_OFFSET) (Z.ones WTS_BITS).

Definition get_delta (tid : Z) : Z :=
  Z.land (Z.shiftr tid DELTA_OFFSET) (Z.ones DELTA_BITS).

Definition get_rts (tid : Z) : Z := get_wts tid + get_delta tid.

(** Modelled from the spec: [lock(tid) -> (latest, success)].  Read the
    word; if [LOCK] is set, fail without spinning; else set [LOCK] and keep
    [wts] and [rts].  The result is (word stored, old word, success); with
    one thread the compare-and-swap always succeeds. *)
Definition lock (tid : Z) : Z * Z * bool :=
  if is_locked tid then (tid, tid, false)
  else (Z.setbit tid LOCK_BIT, tid, true).

(** Modelled from the spec: [unlock(tid)] stores the old value with [LOCK]
    cleared. *)
Definition unlock (tid : Z) : Z := Z.clearbit tid LOCK_BIT.

(** Modelled from the spec: [unlock_with_commit(tid, commit_wts)] stores
    a word with [wts = commit_wts], [rts = commit_wts], [LOCK = 0]. *)
Definition unlock_commit (commit_wts : Z) : Z :=
  Z.shiftl (Z.land commit_wts (Z.ones WTS_BITS)) WTS_OFFSET.

(** The word [tid] with its delta field replaced by [d]. *)
Definition set_delta (tid d : Z) : Z :=
  Z.lor (Z.ldiff tid (Z.shiftl (Z.ones DELTA_BITS) DELTA_OFFSET))
        (Z.shiftl (Z.land d (Z.ones DELTA_BITS)) DELTA_OFFSET).

(** Modelled from the spec: [validate_read_key(latest, read_tid, commit_ts,
    out_written)], section 4.1, steps 1 to 3.  The result is (success, the
    word left in the record, the value of [out_written]).  A lock seen in
    step 3 is a lock of another transaction: the caller validates only keys
    outside its write set.  The delta is clamped to its 27 bits.  With one
    thread the compare-and-swap of step 3 succeeds at once. *)
Definition validate_read_key (latest read_tid commit_ts written : Z)
    : bool * Z * Z :=
  if negb (get_wts latest =? get_wts read_tid) then (false, latest, written)
  else if commit_ts <=? get_rts latest then (true, latest, latest)
  else if is_locked latest then (false, latest, written)
  else
    let extended :=
      set_delta latest (Z.min (commit_ts - get_wts latest) DELTA_MAX) in
    (true, extended, extended).

End ScarHelper.

(** ** Scar: data *)

Module Scar.

Import ScarHelper.

(** Modelled from the spec: [protocol/Scar/ScarRWKey.h] is not among the
    sources.  One read or write participation of a transaction: table id,
    partition id, key pointer, value pointer, captured tid, and the flags
    the protocol reads and sets. *)
Record ScarRWKey : Type := mkRWKey {
  table_id : Z;
  partition_id : Z;
  key : Z;
  value : Z;
  tid : Z;
  write_lock_bit : bool;
  local_index_read_bit : bool;
  read_validation_success_bit : bool;
  wts_change_in_read_validation_bit : bool
}.

Definition set_tid (v : Z) (k : ScarRWKey) : ScarRWKey :=
  mkRWKey (table_id k) (partition_id k) (key k) (value k) v
    (write_lock_bit k) (local_index_read_bit k)
    (read_validation_success_bit k) (wts_change_in_read_validation_bit k).

Definition set_write_lock_bit (k : ScarRWKey) : ScarRWKey :=
  mkRWKey (table_id k) (partition_id k) (key k) (value k) (tid k)
    true (local_index_read_bit k)
    (read_validation_success_bit k) (wts_change_in_read_validation_bit k).

Definition set_read_validation_success_bit (k : ScarRWKey) : ScarRWKey :=
  mkRWKey (table_id k) (partition_id k) (key k) (value k) (tid k)
    (write_lock_bit k) (local_index_read_bit k)
    true (wts_change_in_read_validation_bit k).

Definition set_wts_change_in_read_validation_bit (k : ScarRWKey)
    : ScarRWKey :=
  mkRWKey (table_id k) (partition_id k) (key k) (value k) (tid k)
    (write_lock_bit k) (local_index_read_bit k)
    (read_validation_success_bit k) true.

(** Modelled from the spec: [protocol/Scar/ScarTransaction.h] is not among
    the sources.  The fields of the transaction object that [Scar.h] and
    the executors touch. *)
Record ScarTransaction : Type := mkTxn {
  coordinator_id : nat;
  readSet : list ScarRWKey;
  writeSet : list ScarRWKey;
  pendingResponses : Z;
  network_size : Z;
  abort_lock : bool;
  abort_no_retry : bool;
  abort_read_validation : bool;
  commit_rts : Z;
  commit_wts : Z
}.

Definition set_readSet (l : list ScarRWKey) (t : ScarTransaction) :=
  mkTxn (coordinator_id t) l (writeSet t) (pendingResponses t)
    (network_size t) (abort_lock t) (abort_no_retry t)
    (abort_read_validation t) (commit_rts t) (commit_wts t).

Definition set_writeSet (l : list ScarRWKey) (t : ScarTransaction) :=
  mkTxn (coordinator_id t) (readSet t) l (pendingResponses t)
    (network_size t) (abort_lock t) (abort_no_retry t)
    (abort_read_validation t) (commit_rts t) (commit_wts t).

Definition set_pendingResponses (n : Z) (t : ScarTransaction) :=
  mkTxn (coordinator_id t) (readSet t) (writeSet t) n
    (network_size t) (abort_lock t) (abort_no_retry t)
    (abort_read_validation t) (commit_rts t) (commit_wts t).

Definition set_network_size (n : Z) (t : ScarTransaction) :=
  mkTxn (coordinator_id t) (readSet t) (writeSet t) (pendingResponses t)
    n (abort_lock t) (abort_no_retry t)
    (abort_read_validation t) (commit_rts t) (commit_wts t).

Definition set_abort_lock (b : bool) (t : ScarTransaction) :=
  mkTxn (coordinator_id t) (readSet t) (writeSet t) (pendingResponses t)
    (network_size t) b (abort_no_retry t)
    (abort_read_validation t) (commit_rts t) (commit_wts t).

Definition set_abort_read_validation (b : bool) (t : ScarTransaction) :=
  mkTxn (coordinator_id t) (readSet t) (writeSet t) (pendingResponses t)
    (network_size t) (abort_lock t) (abort_no_retry t)
    b (commit_rts t) (commit_wts t).

Definition set_commit_rts (v : Z) (t : ScarTransaction) :=
  mkTxn (coordinator_id t) (readSet t) (writeSet t) (pendingResponses t)
    (network_size t) (abort_lock t) (abort_no_retry t)
    (abort_read_validation t) v (commit_wts t).

Definition set_commit_wts (v : Z) (t : ScarTransaction) :=
  mkTxn (coordinator_id t) (readSet t) (writeSet t) (pendingResponses t)
    (network_size t) (abort_lock t) (abort_no_retry t)
    (abort_read_validation t) (commit_rts t) v.

(** [txn.pendingResponses++] and [txn.network_size += n], on [std::size_t]. *)
Definition incr_pendingResponses (t : ScarTransaction) : ScarTransaction :=
  set_pendingResponses (wrap64 (pendingResponses t + 1)) t.

Definition add_network_size (n : Z) (t : ScarTransaction) : ScarTransaction :=
  set_network_size (wrap64 (network_size t + n)) t.

(** The message pieces [ScarMessageFactory] appends to an outbound message
    ([protocol/Scar/ScarMessage.h] is not among the sources): each records
    the table (table id, partition id) and the arguments of the call. *)
Inductive MessagePiece : Type :=
| LockMessage (table partition key : Z) (key_offset : nat)
| AbortMessage (table partition key : Z)
| ReadValidationMessage (table partition key : Z) (key_offset : nat)
    (tid commit_ts : Z)
| WriteMessage (table partition key value : Z)
| ReplicationMessage (table partition key value commit_wts : Z)
| ReleaseLockMessage (table partition key commit_wts : Z).

(** A row of the database: table id, partition id, key.  The key pointer
    of a read or write key stands for the key it points to. *)
Definition Row : Type := Z * Z * Z.

Definition row_eqb (a b : Row) : bool :=
  let '(t1, p1, k1) := a in
  let '(t2, p2, k2) := b in
  (t1 =? t2) && (p1 =? p2) && (k1 =? k2).

Definition row_of (k : ScarRWKey) : Row := (table_id k, partition_id k, key k).

(** What a worker works on besides its transaction: the metadata word and
    the value of every row ([table->search_metadata], [table->update]), one
    outbound message in progress per coordinator, the outbound queue, and
    a count of the calls of [remote_request_handler] made so far. *)
Record Env : Type := mkEnv {
  meta : Row -> Z;
  vals : Row -> Z;
  messages : list (list MessagePiece);
  out_queue : list (nat * list MessagePiece);
  pumped : nat
}.

Record World : Type := mkWorld { txn : ScarTransaction; env : Env }.

Definition upd_txn (f : ScarTransaction -> ScarTransaction) (w : World) :=
  mkWorld (f (txn w)) (env w).

Definition upd_env (f : Env -> Env) (w : World) :=
  mkWorld (txn w) (f (env w)).

Definition store (f : Row -> Z) (r : Row) (v : Z) : Row -> Z :=
  fun r' => if row_eqb r r' then v else f r'.

Definition set_meta (r : Row) (v : Z) (e : Env) : Env :=
  mkEnv (store (meta e) r v) (vals e) (messages e) (out_queue e) (pumped e).

Definition set_val (r : Row) (v : Z) (e : Env) : Env :=
  mkEnv (meta e) (store (vals e) r v) (messages e) (out_queue e) (pumped e).

(** [new_..._message( *messages[c], ...)]: the piece goes to the end of the
    message in progress for coordinator [c].  An index past the end of
    [messages], which the C++ leaves undefined, changes nothing. *)
Definition send (c : nat) (p : MessagePiece) (e : Env) : Env :=
  mkEnv (meta e) (vals e)
    (match messages e !! c with
     | Some m => <[c := m ++ [p]]> (messages e)
     | None => messages e
     end)
    (out_queue e) (pumped e).

Definition set_pumped (n : nat) (e : Env) : Env :=
  mkEnv (meta e) (vals e) (messages e) (out_queue e) n.

(** The partitioner, as the protocol sees it ([core/Partitioner.h] is not
    among the sources). *)
Record Partitioner : Type := mkPartitioner {
  has_master_partition : Z -> bool;
  master_coordinator : Z -> nat;
  is_partition_replicated_on : Z -> nat -> bool;
  total_coordinators : nat;
  replica_num : nat
}.

(** ** Scar: the protocol *)

Section Protocol.

(** The collaborators of [Scar<Database>]: the partitioner, the size a
    message piece adds to its message (the result of
    [ScarMessageFactory::new_..._message]), [txn.get_read_key], and the
    two hooks [Executor::setupHandlers] binds into the transaction. *)
Variable partitioner : Partitioner.
Variable msg_size : MessagePiece -> Z.
Variable get_read_key : ScarTransaction -> Z -> option ScarRWKey.
Variable message_flusher : World -> World.
Variable remote_request_handler : World -> World.

(** One call of [txn.remote_request_handler()], counted. *)
Definition pump (w : World) : World :=
  upd_env (set_pumped (S (pumped (env w)))) (remote_request_handler w).

(** [while (txn.pendingResponses > 0) txn.remote_request_handler();] *)
Fixpoint wait_responses (fuel : nat) (w : World) : option World :=
  if 0 <? pendingResponses (txn w) then
    match fuel with
    | O => None
    | S fuel' => wait_responses fuel' (pump w)
    end
  else Some w.

Definition sync_messages (fuel : nat) (w : World) (wait_response : bool)
    : option World :=
  let w := message_flusher w in
  if wait_response then wait_responses fuel w else Some w.

(** A piece goes to [messages[coordinatorID]] and its size is added to
    [txn.network_size]. *)
Definition post (coordinatorID : nat) (p : MessagePiece) (w : World) : World :=
  upd_env (send coordinatorID p) (upd_txn (add_network_size (msg_size p)) w).

(** *** [abort] *)

Definition abort_body (i : nat) (w : World) : LoopStep World :=
  match writeSet (txn w) !! i with
  | None => Break w
  | Some writeKey =>
      if negb (write_lock_bit writeKey) then Continue w
      else
        let tableId := table_id writeKey in
        let partitionId := partition_id writeKey in
        if has_master_partition partitioner partitionId then
          let row := (tableId, partitionId, key writeKey) in
          Continue (upd_env (set_meta row (unlock (meta (env w) row))) w)
        else
          let coordinatorID := master_coordinator partitioner partitionId in
          Continue
            (post coordinatorID
               (AbortMessage tableId partitionId (key writeKey)) w)
  end.

Definition abort_loop (w : World) : World :=
  for_loop abort_body (length (writeSet (txn w))) 0 w.

Definition abort (fuel : nat) (w : World) : option World :=
  sync_messages fuel (abort_loop w) false.

(** *** [lock_write_set] *)

(** [None]: the write key has no read key ([readKeyPtr] is null, the
    [DCHECK] fails and the pointer is dereferenced). *)
Definition lock_write_set_body (i : nat) (w : World)
    : option (LoopStep World) :=
  match writeSet (txn w) !! i with
  | None => Some (Break w)
  | Some writeKey =>
      let tableId := table_id writeKey in
      let partitionId := partition_id writeKey in
      if has_master_partition partitioner partitionId then
        let row := (tableId, partitionId, key writeKey) in
        let '(stored, latestTid, success) := lock (meta (env w) row) in
        if negb success then Some (Break (upd_txn (set_abort_lock true) w))
        else
          let writeKey' := set_tid latestTid (set_write_lock_bit writeKey) in
          let w :=
            upd_env (set_meta row stored)
              (upd_txn (set_writeSet (<[i := writeKey']> (writeSet (txn w))))
                 w) in
          match get_read_key (txn w) (key writeKey) with
          | None => None
          | Some readKey =>
              let tidOnRead := tid readKey in
              if negb (get_wts latestTid =? get_wts tidOnRead)
              then Some (Break (upd_txn (set_abort_lock true) w))
              else Some (Continue w)
          end
      else
        let coordinatorID := master_coordinator partitioner partitionId in
        Some (Continue
                (post coordinatorID
                   (LockMessage tableId partitionId (key writeKey) i)
                   (upd_txn incr_pendingResponses w)))
  end.

Definition lock_write_set_loop (w : World) : option World :=
  for_loop_opt lock_write_set_body (length (writeSet (txn w))) 0 w.

Definition lock_write_set (fuel : nat) (w : World) : option (bool * World) :=
  match lock_write_set_loop w with
  | None => None
  | Some w =>
      match sync_messages fuel w true with
      | None => None
      | Some w => Some (abort_lock (txn w), w)
      end
  end.

(** *** [compute_commit_ts] *)

Definition max_wts_body (t : ScarTransaction) (i : nat) (ts : Z)
    : LoopStep Z :=
  match readSet t !! i with
  | None => Break ts
  | Some readKey => Continue (Z.max ts (get_wts (tid readKey)))
  end.

Definition max_rts_body (t : ScarTransaction) (i : nat) (ts : Z)
    : LoopStep Z :=
  match writeSet t !! i with
  | None => Break ts
  | Some writeKey => Continue (Z.max ts (wrap64 (get_rts (tid writeKey) + 1)))
  end.

Definition compute_commit_ts (t : ScarTransaction) : ScarTransaction :=
  let ts := 0 in
  let ts := for_loop (max_wts_body t) (length (readSet t)) 0 ts in
  let t := set_commit_rts ts t in
  let ts := for_loop (max_rts_body t) (length (writeSet t)) 0 ts in
  set_commit_wts ts t.

(** *** [validate_read_set] *)

Definition isKeyInWriteSet (writeSet : list ScarRWKey) (k : Z) : bool :=
  existsb (fun writeKey => key writeKey =? k) writeSet.

Definition validate_read_set_body (commit_ts : Z) (i : nat) (w : World)
    : LoopStep World :=
  match readSet (txn w) !! i with
  | None => Break w
  | Some readKey =>
      if local_index_read_bit readKey then Continue w
      else if isKeyInWriteSet (writeSet (txn w)) (key readKey) then Continue w
      else
        let tableId := table_id readKey in
        let partitionId := partition_id readKey in
        let k := key readKey in
        let tid := tid readKey in
        if has_master_partition partitioner partitionId then
          let row := (tableId, partitionId, k) in
          let '(ok, latest, written_ts) :=
            validate_read_key (meta (env w) row) tid commit_ts tid in
          let w := upd_env (set_meta row latest) w in
          if ok then
            let readKey := set_read_validation_success_bit readKey in
            let readKey :=
              if negb (get_wts written_ts =? get_wts tid)
              then set_tid written_ts
                     (set_wts_change_in_read_validation_bit readKey)
              else readKey in
            Continue
              (upd_txn (set_readSet (<[i := readKey]> (readSet (txn w)))) w)
          else Break (upd_txn (set_abort_read_validation true) w)
        else
          let coordinatorID := master_coordinator partitioner partitionId in
          Continue
            (post coordinatorID
               (ReadValidationMessage tableId partitionId k i tid commit_ts)
               (upd_txn incr_pendingResponses w))
  end.

Definition validate_read_set_loop (w : World) : World :=
  let commit_ts := commit_wts (txn w) in
  for_loop (validate_read_set_body commit_ts) (length (readSet (txn w))) 0 w.

Definition validate_read_set (fuel : nat) (w : World)
    : option (bool * World) :=
  match sync_messages fuel (validate_read_set_loop w) true with
  | None => None
  | Some w => Some (negb (abort_read_validation (txn w)), w)
  end.

(** *** [write_and_replicate] *)

(** The inner loop over the coordinators [k].  [None]: the local replica
    is locked, and the one-argument [ScarHelper::lock] waits for a holder
    that, with one thread, never lets go. *)
Definition replicate_body (writeKey : ScarRWKey) (commit_wts : Z)
    (k : nat) (w : World) : option (LoopStep World) :=
  let tableId := table_id writeKey in
  let partitionId := partition_id writeKey in
  if negb (is_partition_replicated_on partitioner partitionId k)
  then Some (Continue w)
  else if Nat.eqb k (master_coordinator partitioner partitionId)
  then Some (Continue w)
  else if Nat.eqb k (coordinator_id (txn w)) then
    let row := (tableId, partitionId, key writeKey) in
    let '(stored, last_tid, success) := lock (meta (env w) row) in
    if negb success then None
    else
      Some (Continue
              (upd_env
                 (fun e =>
                    set_meta row (unlock_commit commit_wts)
                      (set_val row (value writeKey) (set_meta row stored e)))
                 w))
  else
    Some (Continue
            (post k
               (ReplicationMessage tableId partitionId (key writeKey)
                  (value writeKey) commit_wts)
               (upd_txn incr_pendingResponses w))).

Definition write_and_replicate_body (commit_wts : Z) (i : nat) (w : World)
    : option (LoopStep World) :=
  match writeSet (txn w) !! i with
  | None => Some (Break w)
  | Some writeKey =>
      let tableId := table_id writeKey in
      let partitionId := partition_id writeKey in
      let w :=
        if has_master_partition partitioner partitionId then
          upd_env (set_val (tableId, partitionId, key writeKey)
                     (value writeKey)) w
        else
          let coordinatorID := master_coordinator partitioner partitionId in
          post coordinatorID
            (WriteMessage tableId partitionId (key writeKey)
               (value writeKey))
            (upd_txn incr_pendingResponses w) in
      match for_loop_opt (replicate_body writeKey commit_wts)
              (total_coordinators partitioner) 0 w with
      | None => None
      | Some w => Some (Continue w)
      end
  end.

Definition write_and_replicate_loop (w : World) : option World :=
  let commit_wts := commit_wts (txn w) in
  for_loop_opt (write_and_replicate_body commit_wts)
    (length (writeSet (txn w))) 0 w.

Definition write_and_replicate (fuel : nat) (w : World) : option World :=
  match write_and_replicate_loop w with
  | None => None
  | Some w => sync_messages fuel w true
  end.

(** *** [release_lock] *)

Definition release_lock_body (commit_wts : Z) (i : nat) (w : World)
    : LoopStep World :=
  match writeSet (txn w) !! i with
  | None => Break w
  | Some writeKey =>
      let tableId := table_id writeKey in
      let partitionId := partition_id writeKey in
      if has_master_partition partitioner partitionId then
        let row := (tableId, partitionId, key writeKey) in
        Continue
          (upd_env
             (fun e =>
                set_meta row (unlock_commit commit_wts)
                  (set_val row (value writeKey) e))
             w)
      else
        let coordinatorID := master_coordinator partitioner partitionId in
        Continue
          (post coordinatorID
             (ReleaseLockMessage tableId partitionId (key writeKey)
                commit_wts)
             w)
  end.

Definition release_lock_loop (w : World) : World :=
  let commit_wts := commit_wts (txn w) in
  for_loop (release_lock_body commit_wts) (length (writeSet (txn w))) 0 w.

Definition release_lock (fuel : nat) (w : World) : option World :=
  sync_messages fuel (release_lock_loop w) false.

(** *** [commit] *)

Definition commit (fuel : nat) (w : World) : option (bool * World) :=
  match lock_write_set fuel w with
  | None => None
  | Some (true, w) =>
      match abort fuel w with
      | None => None
      | Some w => Some (false, w)
      end
  | Some (false, w) =>
      let w := upd_txn compute_commit_ts w in
      match validate_read_set fuel w with
      | None => None
      | Some (false, w) =>
          match abort fuel w with
          | None => None
          | Some w => Some (false, w)
          end
      | Some (true, w) =>
          match write_and_replicate fuel w with
          | None => None
          | Some w =>
              match release_lock fuel w with
              | None => None
              | Some w => Some (true, w)
              end
          end
      end
  end.

End Protocol.

End Scar.

(** ** The worker loop of [core/Executor.h] *)

Module Executor.

(** [core/Context.h]: the fields the executors read. *)
Record Context : Type := mkContext {
  partition_num : Z;
  worker_num : Z;
  coordinator_num : Z
}.

(** What [transaction->execute()] returns ([core/Defs.h] is not among the
    sources; the three outcomes are those of the transaction object's
    contract). *)
Inductive TransactionResult : Type :=
| READY_TO_COMMIT
| ABORT
| ABORT_NORETRY.

Definition is_ready_to_commit (r : TransactionResult) : bool :=
  match r with READY_TO_COMMIT => true | _ => false end.

(** [flush_messages]: every outbound message in progress that is not for
    this coordinator and holds a piece goes to the outbound queue, and a
    fresh message takes its place. *)
Definition flush_messages_body (coordinator_id : nat) (i : nat) (e : Scar.Env)
    : LoopStep Scar.Env :=
  match Scar.messages e !! i with
  | None => Break e
  | Some message =>
      if Nat.eqb i coordinator_id then Continue e
      else if Nat.eqb (length message) 0 then Continue e
      else
        Continue
          (Scar.mkEnv (Scar.meta e) (Scar.vals e)
             (<[i := []]> (Scar.messages e))
             (Scar.out_queue e ++ [(i, message)])
             (Scar.pumped e))
  end.

Definition flush_messages (coordinator_id : nat) (e : Scar.Env) : Scar.Env :=
  for_loop (flush_messages_body coordinator_id) (length (Scar.messages e)) 0 e.

Section Executor.

(** [Executor<Workload, Protocol>]: the transaction type, and the rest of
    what the worker works on (database, queues, messages, storage). *)
Variable Txn : Type.
Variable Env : Type.

(** The transaction object: its two retry flags, [reset()] and [execute()].
    [execute] may draw from the worker's random generator, whose state is
    its seed. *)
Variable abort_lock : Txn -> bool.
Variable abort_read_validation : Txn -> bool.
Variable reset : Txn -> Txn.
Variable execute : Txn -> Z -> Env -> TransactionResult * Txn * Z * Env.

(** The workload and the random generator ([common/Random.h] is not among
    the sources): [workload.next_transaction(context, partition_id, storage)]
    and [random.uniform_dist(lo, hi)], both threading the seed. *)
Variable next_transaction : Context -> Z -> Z -> Env -> Txn * Z * Env.
Variable uniform_dist : Z -> Z -> Z -> Z * Z.

(** [protocol.commit( *transaction, messages)]; [None] when it never comes
    back within the fuel. *)
Variable commit : nat -> Txn -> Env -> option (bool * Txn * Env).

(** [process_request()]: drains the inbound queue through the message
    handlers, which see the transaction in flight (none before the first
    one is generated), the tables and the outbound messages. *)
Variable process_request : option Txn -> Env -> option Txn * Env.

Variable context : Context.
Variable coordinator_id : nat.

(** The worker: the random generator's seed, the transaction it owns, the
    locals of [start] that live across iterations, the four outcome
    counters, and the rest. *)
Record State : Type := mkState {
  random : Z;
  transaction : option Txn;
  last_seed : Z;
  retry_transaction : bool;
  n_commit : Z;
  n_abort_lock : Z;
  n_abort_read_validation : Z;
  n_abort_no_retry : Z;
  env : Env
}.

(** [x.fetch_add(1)] on a 64-bit counter. *)
Definition fetch_add1 (x : Z) : Z := wrap64 (x + 1).

(** What the loop body has in hand when it reaches [transaction->execute()]:
    the seed saved in [last_seed], the transaction to run, the generator's
    seed and the rest. *)
Record Prepared : Type := mkPrepared {
  saved_seed : Z;
  to_run : Txn;
  seed_now : Z;
  env_now : Env
}.

(** The first half of the body of [while (!stopFlag.load())]: drain the
    inbound queue, save the seed, then reset the transaction in hand or ask
    the workload for a new one.  [None]: a retry with no transaction in
    hand (a null [unique_ptr] is dereferenced). *)
Definition prepare (s : State) : option Prepared :=
  let '(transaction, env) := process_request (transaction s) (env s) in
  let last_seed := random s in
  if retry_transaction s then
    match transaction with
    | None => None
    | Some t => Some (mkPrepared last_seed (reset t) (random s) env)
    end
  else
    let partition_num_per_node :=
      partition_num context / coordinator_num context in
    let '(r, seed) :=
      uniform_dist (random s) 0 (wrap64 (partition_num_per_node - 1)) in
    let partition_id :=
      wrap64 (r * coordinator_num context + Z.of_nat coordinator_id) in
    let '(t, seed, env) := next_transaction context partition_id seed env in
    Some (mkPrepared last_seed t seed env).

(** The second half: execute, commit, count, and on a failed commit put the
    saved seed back and ask for a retry. *)
Definition run (fuel : nat) (s : State) (p : Prepared) : option State :=
  let '(result, t, seed, env) := execute (to_run p) (seed_now p) (env_now p) in
  if is_ready_to_commit result then
    match commit fuel t env with
    | None => None
    | Some (true, t, env) =>
        Some (mkState seed (Some t) (saved_seed p) false
                (fetch_add1 (n_commit s)) (n_abort_lock s)
                (n_abort_read_validation s) (n_abort_no_retry s) env)
    | Some (false, t, env) =>
        if abort_lock t then
          Some (mkState (saved_seed p) (Some t) (saved_seed p) true
                  (n_commit s) (fetch_add1 (n_abort_lock s))
                  (n_abort_read_validation s) (n_abort_no_retry s) env)
        else
          Some (mkState (saved_seed p) (Some t) (saved_seed p) true
                  (n_commit s) (n_abort_lock s)
                  (fetch_add1 (n_abort_read_validation s))
                  (n_abort_no_retry s) env)
    end
  else
    Some (mkState seed (Some t) (saved_seed p) (retry_transaction s)
            (n_commit s) (n_abort_lock s) (n_abort_read_validation s)
            (fetch_add1 (n_abort_no_retry s)) env).

(** The four outcome counters. *)
Definition counters (s : State) : Z * Z * Z * Z :=
  (n_commit s, n_abort_lock s, n_abort_read_validation s, n_abort_no_retry s).

(** One turn of the loop of [start]. *)
Definition iteration (fuel : nat) (s : State) : option State :=
  match prepare s with
  | None => None
  | Some p => run fuel s p
  end.

(** [start]: the loop runs for as long as [stopFlag] reads false, here
    [n] times. *)
Fixpoint start (fuel : nat) (n : nat) (s : State) : option State :=
  match n with
  | O => Some s
  | S n' =>
      match iteration fuel s with
      | None => None
      | Some s' => start fuel n' s'
      end
  end.

End Executor.

Arguments mkState {Txn Env}.
Arguments random {Txn Env}.
Arguments transaction {Txn Env}.
Arguments last_seed {Txn Env}.
Arguments retry_transaction {Txn Env}.
Arguments n_commit {Txn Env}.
Arguments n_abort_lock {Txn Env}.
Arguments n_abort_read_validation {Txn Env}.
Arguments n_abort_no_retry {Txn Env}.
Arguments env {Txn Env}.
Arguments mkPrepared {Txn Env}.
Arguments saved_seed {Txn Env}.
Arguments to_run {Txn Env}.
Arguments seed_now {Txn Env}.
Arguments env_now {Txn Env}.
Arguments counters {Txn Env}.

End Executor.

(** ** [Executor<Workload, Scar>] *)

Module ScarExecutor.

Import Scar.

Section ScarExecutor.

Variable partitioner : Partitioner.
Variable msg_size : MessagePiece -> Z.
Variable get_read_key : ScarTransaction -> Z -> option ScarRWKey.
Variable coordinator_id : nat.

(** What the message handlers of [ScarMessageHandler] do with the inbound
    queue ([protocol/Scar/ScarMessage.h] is not among the sources): with a
    transaction in flight, and with none. *)
Variable handle : World -> World.
Variable handle_idle : Env -> Env.

(** The hooks as [setupHandlers] binds them. *)
Definition message_flusher (w : World) : World :=
  upd_env (Executor.flush_messages coordinator_id) w.

Definition remote_request_handler (w : World) : World := handle w.

Definition process_request (transaction : option ScarTransaction) (e : Env)
    : option ScarTransaction * Env :=
  match transaction with
  | Some t => let w := handle (mkWorld t e) in (Some (txn w), env w)
  | None => (None, handle_idle e)
  end.

(** [protocol.commit( *transaction, messages)] for [Protocol = Scar]. *)
Definition commit (fuel : nat) (t : ScarTransaction) (e : Env)
    : option (bool * ScarTransaction * Env) :=
  match
    Scar.commit partitioner msg_size get_read_key message_flusher
      remote_request_handler fuel (mkWorld t e)
  with
  | None => None
  | Some (ok, w) => Some (ok, txn w, env w)
  end.

End ScarExecutor.

End ScarExecutor.

(** ** The inbound queue of [core/Executor.h] *)

Module ExecutorInbox.

Import Scar.

(** Modelled from the spec: [common/Message.h] is not among the sources.
    An inbound message is the coordinator it comes from and its pieces;
    [get_message_count] is the number of the pieces. *)
Definition Message : Type := (nat * list MessagePiece)%type.

Section Inbox.

Variable coordinator_id : nat.

(** [messageHandlers[type](messagePiece, *messages[source], *table,
    *transaction)]: the handler of the piece's type, given the piece and
    the coordinator to answer to, at work on the transaction in hand, the
    database and the outbound messages. *)
Variable message_handler : MessagePiece -> nat -> World -> World.

(** The loop over the pieces of one message. *)
Definition handle_pieces (message : Message) (w : World) : World :=
  fold_left
    (fun w messagePiece => message_handler messagePiece (fst message) w)
    (snd message) w.

(** [while (!in_queue.empty())]: [in_queue] lists the messages the loop
    finds before it first sees the queue empty. *)
Fixpoint process_request_loop (in_queue : list Message) (size : Z)
    (w : World) : Z * World :=
  match in_queue with
  | [] => (size, w)
  | message :: in_queue' =>
      let w := handle_pieces message w in
      let size := wrap64 (size + Z.of_nat (length (snd message))) in
      let w := upd_env (Executor.flush_messages coordinator_id) w in
      process_request_loop in_queue' size w
  end.

Definition process_request (in_queue : list Message) (w : World)
    : Z * World :=
  process_request_loop in_queue 0 w.

End Inbox.

End ExecutorInbox.

(** ** The worker of [protocol/RStore/RStoreExecutor.h] *)

Module RStoreExecutor.

Import Executor.

(** The values of [worker_status] the worker tells apart. *)
Inductive ExecutorStatus : Type :=
| C_PHASE
| S_PHASE
| STOP
| EXIT.

Definition status_eqb (a b : ExecutorStatus) : bool :=
  match a, b with
  | C_PHASE, C_PHASE | S_PHASE, S_PHASE | STOP, STOP | EXIT, EXIT => true
  | _, _ => false
  end.

(** What the worker does that others can see, in the order it does it: its
    [fetch_add(1)] on the two shared counters, its calls of
    [commit_transactions] (with the number of transactions drained from
    [q]), of [run_transaction] (with the phase and the length of [q] when
    the call starts) and of [process_request] from [start]. *)
Inductive Event : Type :=
| Started
| Completed
| CommitTransactions (drained : nat)
| RunTransaction (phase : ExecutorStatus) (queued : nat)
| ProcessRequest.

Section RStoreExecutor.

Variable Txn : Type.
Variable Env : Type.

Variable abort_lock : Txn -> bool.
Variable abort_read_validation : Txn -> bool.
Variable network_size : Txn -> Z.
Variable reset : Txn -> Txn.
Variable execute : Txn -> Z -> Env -> TransactionResult * Txn * Z * Env.

(** The workload, the random generator, the protocol and the partitioner
    of each phase ([run_transaction] builds them from the phase's context
    and partitioner). *)
Variable next_transaction : ExecutorStatus -> Z -> Z -> Env -> Txn * Z * Env.
Variable uniform_dist : Z -> Z -> Z -> Z * Z.
Variable commit :
  ExecutorStatus -> nat -> Txn -> Env -> option (bool * Txn * Env).
Variable has_master_partition : ExecutorStatus -> Z -> bool.

(** [process_request()] and [flush_messages()]: here the handlers see the
    tables and the outbound messages, not the transaction. *)
Variable process_request : Env -> Env.
Variable flush_messages : Env -> Env.

(** The context: its sizes, the number of queries of each phase and the
    flush period of each phase's context. *)
Variable context : Context.
Variable query_num : ExecutorStatus -> nat.
Variable batch_flush : ExecutorStatus -> nat.

Variable coordinator_id : Z.
Variable id : Z.

(** The worker: the seed of its random generator, the queue [q] of
    committed transactions, the transactions whose latency [percentile] has
    recorded, the counters, the rest, and the history of its visible
    actions. *)
Record State : Type := mkState {
  random : Z;
  q : list Txn;
  percentile : list Txn;
  n_commit : Z;
  n_abort_lock : Z;
  n_abort_read_validation : Z;
  n_abort_no_retry : Z;
  n_network_size : Z;
  env : Env;
  log : list Event
}.

Definition set_random (v : Z) (s : State) : State :=
  mkState v (q s) (percentile s) (n_commit s) (n_abort_lock s)
    (n_abort_read_validation s) (n_abort_no_retry s) (n_network_size s)
    (env s) (log s).

Definition set_env (e : Env) (s : State) : State :=
  mkState (random s) (q s) (percentile s) (n_commit s) (n_abort_lock s)
    (n_abort_read_validation s) (n_abort_no_retry s) (n_network_size s)
    e (log s).

Definition record (ev : Event) (s : State) : State :=
  mkState (random s) (q s) (percentile s) (n_commit s) (n_abort_lock s)
    (n_abort_read_validation s) (n_abort_no_retry s) (n_network_size s)
    (env s) (log s ++ [ev]).

(** [commit_transactions]: pop every transaction of [q], recording its
    latency. *)
Fixpoint drain (q : list Txn) (percentile : list Txn) : list Txn :=
  match q with
  | [] => percentile
  | ptr :: q' => drain q' (percentile ++ [ptr])
  end.

Definition commit_transactions (s : State) : State :=
  mkState (random s) [] (drain (q s) (percentile s)) (n_commit s)
    (n_abort_lock s) (n_abort_read_validation s) (n_abort_no_retry s)
    (n_network_size s) (env s) (log s ++ [CommitTransactions (length (q s))]).

(** The locals of [run_transaction] that live across the turns of its
    loops. *)
Record Locals : Type := mkLocals {
  last_seed : Z;
  transaction : option Txn;
  retry_transaction : bool
}.

(** The first half of a turn of the [do ... while (retry_transaction)]
    loop: drain the inbound queue, then reset the transaction in hand or
    ask the workload for a new one.  [None]: a retry with no transaction in
    hand. *)
Definition turn_input (status : ExecutorStatus) (partition_id : Z)
    (l : Locals) (s : State) : option (Txn * Z * Env) :=
  let env := process_request (env s) in
  if retry_transaction l then
    match transaction l with
    | None => None
    | Some t => Some (reset t, random s, env)
    end
  else Some (next_transaction status partition_id (random s) env).

(** One turn of the loop.  [None] also when a commit never comes back. *)
Definition attempt (fuel : nat) (status : ExecutorStatus) (partition_id : Z)
    (l : Locals) (s : State) : option (Locals * State) :=
  let last_seed := random s in
  match turn_input status partition_id l s with
  | None => None
  | Some (t, seed, env) =>
      let '(result, t, seed, env) := execute t seed env in
      if is_ready_to_commit result then
        match commit status fuel t env with
        | None => None
        | Some (ok, t, env) =>
            let n_network_size :=
              wrap64 (n_network_size s + network_size t) in
            if ok then
              Some (mkLocals last_seed None false,
                    mkState seed (q s ++ [t]) (percentile s)
                      (fetch_add1 (n_commit s)) (n_abort_lock s)
                      (n_abort_read_validation s) (n_abort_no_retry s)
                      n_network_size env (log s))
            else if abort_lock t then
              Some (mkLocals last_seed (Some t) true,
                    mkState last_seed (q s) (percentile s)
                      (n_commit s) (fetch_add1 (n_abort_lock s))
                      (n_abort_read_validation s) (n_abort_no_retry s)
                      n_network_size env (log s))
            else
              Some (mkLocals last_seed (Some t) true,
                    mkState last_seed (q s) (percentile s)
                      (n_commit s) (n_abort_lock s)
                      (fetch_add1 (n_abort_read_validation s))
                      (n_abort_no_retry s)
                      n_network_size env (log s))
        end
      else
        Some (mkLocals last_seed (Some t) (retry_transaction l),
              mkState seed (q s) (percentile s)
                (n_commit s) (n_abort_lock s) (n_abort_read_validation s)
                (fetch_add1 (n_abort_no_retry s))
                (n_network_size s) env (log s))
  end.

(** [do { ... } while (retry_transaction);], at most [turns] turns. *)
Fixpoint do_while (turns fuel : nat) (status : ExecutorStatus)
    (partition_id : Z) (l : Locals) (s : State) : option (Locals * State) :=
  match turns with
  | O => None
  | S turns' =>
      match attempt fuel status partition_id l s with
      | None => None
      | Some (l, s) =>
          if retry_transaction l
          then do_while turns' fuel status partition_id l s
          else Some (l, s)
      end
  end.

(** The body of [for (auto i = 0u; i < query_num; i++)]. *)
Definition query_body (turns fuel : nat) (status : ExecutorStatus)
    (partition_id : Z) (i : nat) (ls : Locals * State)
    : option (LoopStep (Locals * State)) :=
  let '(l, s) := ls in
  let l := mkLocals (last_seed l) (transaction l) false in
  match do_while turns fuel status partition_id l s with
  | None => None
  | Some (l, s) =>
      if Nat.eqb (i mod batch_flush status) 0
      then Some (Continue (l, set_env (flush_messages (env s)) s))
      else Some (Continue (l, s))
  end.

(** [run_transaction(status)].  [None] also when a [CHECK] fails. *)
Definition run_transaction (turns fuel : nat) (status : ExecutorStatus)
    (s : State) : option State :=
  match
    match status with
    | C_PHASE =>
        if negb (coordinator_id =? 0) then None
        else if negb (partition_num context mod worker_num context =? 0)
        then None
        else
          let partition_num_per_thread :=
            partition_num context / worker_num context in
          let '(r, seed) :=
            uniform_dist (random s) 0 (wrap64 (partition_num_per_thread - 1)) in
          Some (wrap64 (id * partition_num_per_thread + r), set_random seed s)
    | S_PHASE =>
        Some (wrap64 (id * coordinator_num context + coordinator_id), s)
    | _ => None
    end
  with
  | None => None
  | Some (partition_id, s) =>
      if negb (has_master_partition status partition_id) then None
      else
        match
          for_loop_opt (query_body turns fuel status partition_id)
            (query_num status) 0 (mkLocals 0 None false, s)
        with
        | None => None
        | Some (_, s) => Some (set_env (flush_messages (env s)) s)
        end
  end.

(** Where the worker stands in [start] when it loads [worker_status]:
    in the first [do ... while] (waiting for the C-phase), in the [while]
    of a worker that serves requests during the C-phase, in the [while]
    that waits for the S-phase, in the [while] that waits for [STOP] after
    the S-phase; or it has returned. *)
Inductive Location : Type :=
| WAIT_C_PHASE
| SERVE_C_PHASE
| WAIT_S_PHASE
| WAIT_STOP
| RETURNED.

(** [run_transaction] called from [start], noted in the history. *)
Definition run_phase (turns fuel : nat) (status : ExecutorStatus) (s : State)
    : option State :=
  run_transaction turns fuel status
    (record (RunTransaction status (length (q s))) s).

Definition process_request_in_start (s : State) : State :=
  record ProcessRequest (set_env (process_request (env s)) s).

(** One load of [worker_status] and what [start] does until the next. *)
Definition step (turns fuel : nat) (status : ExecutorStatus)
    (at_ : Location) (s : State) : option (Location * State) :=
  match at_ with
  | WAIT_C_PHASE =>
      match status with
      | EXIT => Some (RETURNED, commit_transactions s)
      | C_PHASE =>
          let s := commit_transactions s in
          if coordinator_id =? 0 then
            let s := record Started s in
            match run_phase turns fuel C_PHASE s with
            | None => None
            | Some s => Some (WAIT_S_PHASE, record Completed s)
            end
          else Some (SERVE_C_PHASE, record Started s)
      | _ => Some (WAIT_C_PHASE, s)
      end
  | SERVE_C_PHASE =>
      match status with
      | STOP =>
          Some (WAIT_S_PHASE, record Completed (process_request_in_start s))
      | _ => Some (SERVE_C_PHASE, process_request_in_start s)
      end
  | WAIT_S_PHASE =>
      match status with
      | S_PHASE =>
          let s := commit_transactions s in
          let s := record Started s in
          match run_phase turns fuel S_PHASE s with
          | None => None
          | Some s => Some (WAIT_STOP, record Completed s)
          end
      | _ => Some (WAIT_S_PHASE, s)
      end
  | WAIT_STOP =>
      match status with
      | STOP =>
          Some (WAIT_C_PHASE, record Completed (process_request_in_start s))
      | _ => Some (WAIT_STOP, s)
      end
  | RETURNED => Some (RETURNED, s)
  end.

(** [start], driven by the values its loads of [worker_status] return. *)
Fixpoint start (turns fuel : nat) (loads : list ExecutorStatus)
    (at_ : Location) (s : State) : option (Location * State) :=
  match loads with
  | [] => Some (at_, s)
  | status :: loads' =>
      match step turns fuel status at_ s with
      | None => None
      | Some (at_, s) => start turns fuel loads' at_ s
      end
  end.

End RStoreExecutor.

Arguments mkState {Txn Env}.
Arguments random {Txn Env}.
Arguments q {Txn Env}.
Arguments percentile {Txn Env}.
Arguments n_commit {Txn Env}.
Arguments n_abort_lock {Txn Env}.
Arguments n_abort_read_validation {Txn Env}.
Arguments n_abort_no_retry {Txn Env}.
Arguments n_network_size {Txn Env}.
Arguments env {Txn Env}.
Arguments log {Txn Env}.
Arguments record {Txn Env}.
Arguments commit_transactions {Txn Env}.
Arguments mkLocals {Txn}.
Arguments last_seed {Txn}.
Arguments transaction {Txn}.
Arguments retry_transaction {Txn}.

End RStoreExecutor.

(** ** The transaction object of [protocol/Aria/AriaTransaction.h] *)

Module AriaTransaction.

(** Modelled from the spec: [protocol/Aria/AriaRWKey.h] is not among the
    sources.  One read or write participation: table id, partition id, key
    pointer, value pointer, captured tid, and the flags. *)
Record AriaRWKey : Type := mkRWKey {
  table_id : Z;
  partition_id : Z;
  key : Z;
  value : Z;
  tid : Z;
  read_request_bit : bool;
  local_index_read_bit : bool;
  execution_processed_bit : bool
}.






Definition set_read_request_bit (k : AriaRWKey) : AriaRWKey :=
  mkRWKey (table_id k) (partition_id k) (key k) (value k) (tid k)
    true (local_index_read_bit k) (execution_processed_bit k).

Definition clear_read_request_bit (k : AriaRWKey) : AriaRWKey :=
  mkRWKey (table_id k) (partition_id k) (key k) (value k) (tid k)
    false (local_index_read_bit k) (execution_processed_bit k).


(** The data members of [AriaTransaction] (the start time, the unused
    [operation] and the partitioner reference apart; the [std::function]
    members are the handlers of the section below). *)
Record AriaTransaction : Type := mkTxn {
  coordinator_id : Z;
  txn_partition_id : Z;
  id : Z;
  tid_offset : Z;
  epoch : Z;
  pendingResponses : Z;
  network_size : Z;
  local_read : Z;
  remote_read : Z;
  saved_local_read : Z;
  saved_remote_read : Z;
  abort_lock : bool;
  abort_no_retry : bool;
  abort_read_validation : bool;
  distributed_transaction : bool;
  execution_phase : bool;
  waw : bool;
  war : bool;
  raw : bool;
  active_coordinators : list bool;
  readSet : list AriaRWKey;
  writeSet : list AriaRWKey
}.

Definition set_readSet (l : list AriaRWKey) (t : AriaTransaction) :=
  mkTxn (coordinator_id t) (txn_partition_id t) (id t) (tid_offset t)
    (epoch t) (pendingResponses t) (network_size t) (local_read t)
    (remote_read t) (saved_local_read t) (saved_remote_read t)
    (abort_lock t) (abort_no_retry t) (abort_read_validation t)
    (distributed_transaction t) (execution_phase t) (waw t) (war t) (raw t)
    (active_coordinators t) l (writeSet t).

Definition set_writeSet (l : list AriaRWKey) (t : AriaTransaction) :=
  mkTxn (coordinator_id t) (txn_partition_id t) (id t) (tid_offset t)
    (epoch t) (pendingResponses t) (network_size t) (local_read t)
    (remote_read t) (saved_local_read t) (saved_remote_read t)
    (abort_lock t) (abort_no_retry t) (abort_read_validation t)
    (distributed_transaction t) (execution_phase t) (waw t) (war t) (raw t)
    (active_coordinators t) (readSet t) l.

(** [reset]: everything but the identity of the transaction goes back to
    its initial value. *)
Definition reset (t : AriaTransaction) : AriaTransaction :=
  mkTxn (coordinator_id t) (txn_partition_id t) (id t) (tid_offset t)
    (epoch t) 0 0 0 0 0 0 false false false false false false false false
    [] [] [].

(** [add_to_read_set] and [add_to_write_set]: the new transaction and the
    index of the key added. *)
Definition add_to_read_set (k : AriaRWKey) (t : AriaTransaction)
    : AriaTransaction * nat :=
  let t := set_readSet (readSet t ++ [k]) t in
  (t, (length (readSet t) - 1)%nat).

Definition add_to_write_set (k : AriaRWKey) (t : AriaTransaction)
    : AriaTransaction * nat :=
  let t := set_writeSet (writeSet t ++ [k]) t in
  (t, (length (writeSet t) - 1)%nat).





Definition is_read_only (t : AriaTransaction) : bool :=
  Nat.eqb (length (writeSet t)) 0.

Definition clear_execution_processed_bit (k : AriaRWKey) : AriaRWKey :=
  mkRWKey (table_id k) (partition_id k) (key k) (value k) (tid k)
    (read_request_bit k) (local_index_read_bit k) false.

(** [save_read_count] and [load_read_count]: the two read counters go to
    their saved copies, and come back from them. *)
Definition save_read_count (t : AriaTransaction) : AriaTransaction :=
  mkTxn (coordinator_id t) (txn_partition_id t) (id t) (tid_offset t)
    (epoch t) (pendingResponses t) (network_size t) (local_read t)
    (remote_read t) (local_read t) (remote_read t)
    (abort_lock t) (abort_no_retry t) (abort_read_validation t)
    (distributed_transaction t) (execution_phase t) (waw t) (war t) (raw t)
    (active_coordinators t) (readSet t) (writeSet t).

Definition load_read_count (t : AriaTransaction) : AriaTransaction :=
  mkTxn (coordinator_id t) (txn_partition_id t) (id t) (tid_offset t)
    (epoch t) (pendingResponses t) (network_size t) (saved_local_read t)
    (saved_remote_read t) (saved_local_read t) (saved_remote_read t)
    (abort_lock t) (abort_no_retry t) (abort_read_validation t)
    (distributed_transaction t) (execution_phase t) (waw t) (war t) (raw t)
    (active_coordinators t) (readSet t) (writeSet t).

(** [clear_execution_bit]: the loop over the read set skips the local-index
    reads and clears the [execution_processed] bit of the others. *)
Definition clear_execution_bit_body (i : nat) (t : AriaTransaction)
    : LoopStep AriaTransaction :=
  match readSet t !! i with
  | None => Break t
  | Some readKey =>
      if local_index_read_bit readKey then Continue t
      else
        Continue
          (set_readSet
             (<[i := clear_execution_processed_bit readKey]> (readSet t)) t)
  end.

Definition clear_execution_bit (t : AriaTransaction) : AriaTransaction :=
  for_loop clear_execution_bit_body (length (readSet t)) 0 t.

(** [int(n)] for a [std::size_t] [n]: the low 32 bits, read as signed. *)
Definition to_int (n : Z) : Z := (n + 2 ^ 31) mod 2 ^ 32 - 2 ^ 31.

(** A loop [for (int i = n - 1; i >= 0; i--)], the state threaded through. *)
Fixpoint for_down {S : Type} (body : nat -> S -> LoopStep S) (n : nat) (s : S)
    : S :=
  match n with
  | O => s
  | Datatypes.S i =>
      match body i s with
      | Continue s' => for_down body i s'
      | Break s' => s'
      end
  end.

Section Handlers.

(** What [aria_read_handler(readKey, id, key_offset)] works on besides the
    key it is handed by reference. *)
Variable Env : Type.
Variable aria_read_handler : AriaRWKey -> Z -> nat -> Env -> AriaRWKey * Env.

(** The body of the loop of [process_requests], as
    [setup_process_requests_in_execution_phase] installs it. *)
Definition process_requests_body (i : nat) (s : AriaTransaction * Env)
    : LoopStep (AriaTransaction * Env) :=
  let '(t, e) := s in
  match readSet t !! i with
  | None => Break s
  | Some readKey =>
      if negb (read_request_bit readKey) then Break s
      else
        let '(readKey, e) := aria_read_handler readKey (id t) i e in
        Continue
          (set_readSet (<[i := clear_read_request_bit readKey]> (readSet t)) t,
           e)
  end.

(** [process_requests(worker_id)]: the loop, then [return false]. *)
Definition process_requests (worker_id : Z) (s : AriaTransaction * Env)
    : bool * (AriaTransaction * Env) :=
  let n := to_int (Z.of_nat (length (readSet (fst s)))) in
  (false, for_down process_requests_body (Z.to_nat n) s).

End Handlers.

End AriaTransaction.

(** ** Vocabulary of the statements *)

Module RStoreVocabulary.

Import RStoreExecutor.

Definition is_started (ev : Event) : bool :=
  match ev with Started => true | _ => false end.

Definition is_completed (ev : Event) : bool :=
  match ev with Completed => true | _ => false end.

(** How often the worker has added one to [n_started_workers] and to
    [n_complete_workers]. *)
Definition started (log : list Event) : nat :=
  length (List.filter is_started log).

Definition completed (log : list Event) : nat :=
  length (List.filter is_completed log).

(** The additions made since the cycle began, by where the worker stands:
    none while it waits for the C-phase; one start once it serves the
    C-phase; one start and one completion while it waits for the S-phase;
    two and two while it waits for [STOP] after the S-phase. *)
Definition started_at (at_ : Location) : nat :=
  match at_ with
  | WAIT_C_PHASE | RETURNED => 0
  | SERVE_C_PHASE | WAIT_S_PHASE => 1
  | WAIT_STOP => 2
  end.

Definition completed_at (at_ : Location) : nat :=
  match at_ with
  | WAIT_C_PHASE | RETURNED | SERVE_C_PHASE => 0
  | WAIT_S_PHASE => 1
  | WAIT_STOP => 2
  end.

End RStoreVocabulary.

(** The maximum of a list of timestamps; 0 for the empty list. *)
Definition max_of (l : list Z) : Z := fold_right Z.max 0 l.

Module ScarVocabulary.

Import Scar.

(** A write key whose lock this worker took on a record it masters, and one
    whose lock was taken for it by the master coordinator [c]. *)
Definition locked_here (partitioner : Partitioner) (k : ScarRWKey) : bool :=
  write_lock_bit k && has_master_partition partitioner (partition_id k).

Definition locked_at (partitioner : Partitioner) (c : nat) (k : ScarRWKey)
    : bool :=
  write_lock_bit k && negb (has_master_partition partitioner (partition_id k))
  && Nat.eqb (master_coordinator partitioner (partition_id k)) c.

Definition abort_piece (k : ScarRWKey) : MessagePiece :=
  AbortMessage (table_id k) (partition_id k) (key k).

(** Releasing the lock of one write key, if it was taken: unlock the record
    when its partition is mastered here, else tell the master coordinator. *)
Definition release_taken_lock (partitioner : Partitioner)
    (msg_size : MessagePiece -> Z) (w : World) (k : ScarRWKey) : World :=
  if negb (write_lock_bit k) then w
  else if has_master_partition partitioner (partition_id k) then
    upd_env
      (set_meta (row_of k) (ScarHelper.unlock (meta (env w) (row_of k)))) w
  else post msg_size (master_coordinator partitioner (partition_id k))
         (abort_piece k) w.

(** *** [lock_write_set], key by key *)




(** *** [validate_read_set], key by key *)




(** *** The responses [write_and_replicate] waits for *)





End ScarVocabulary.

Module AriaVocabulary.

Import AriaTransaction.

(** Serving pending reads, last first.  [rkeys] lists them from the last
    to the first; the first of them stands at index [base] of the read set.
    Each is handed to the handler with the transaction id and its index,
    and then has its [read_request] bit cleared. *)
Fixpoint serve_back {Env : Type}
    (aria_read_handler : AriaRWKey -> Z -> nat -> Env -> AriaRWKey * Env)
    (id : Z) (base : nat) (rkeys : list AriaRWKey) (e : Env)
    : list AriaRWKey * Env :=
  match rkeys with
  | [] => ([], e)
  | k :: rest =>
      let '(k', e) := aria_read_handler k id (base + length rest)%nat e in
      let '(rest', e) := serve_back aria_read_handler id base rest e in
      (clear_read_request_bit k' :: rest', e)
  end.

End AriaVocabulary.

(** ** Instances for closed examples *)

Module Examples.

Import ScarHelper Scar.

(** A word with the given lock bit, [wts] and delta. *)
Definition make_tid (locked : bool) (wts delta : Z) : Z :=
  Z.lor (if locked then Z.shiftl 1 LOCK_BIT else 0)
    (Z.lor (Z.shiftl wts WTS_OFFSET) (Z.shiftl delta DELTA_OFFSET)).

(** One coordinator that masters every partition. *)
Definition single_node : Partitioner :=
  mkPartitioner (fun _ => true) (fun _ => 0%nat) (fun _ c => Nat.eqb c 0) 1 1.


Definition unit_size (p : MessagePiece) : Z := 1.

(** [get_read_key]: the first read key with the given key pointer. *)
Definition find_read_key (t : ScarTransaction) (k : Z) : option ScarRWKey :=
  find (fun readKey => key readKey =? k) (readSet t).


(** A peer that never answers, and one whose answers have all arrived by
    the first call of the handler. *)
Definition silent (w : World) : World := w.


Definition read_key (table partition k tid : Z) : ScarRWKey :=
  mkRWKey table partition k 0 tid false false false false.

Definition write_key (table partition k v : Z) : ScarRWKey :=
  mkRWKey table partition k v 0 false false false false.

Definition new_txn (reads writes : list ScarRWKey) : ScarTransaction :=
  mkTxn 0 reads writes 0 0 false false false 0 0.

(** A database whose every record carries the word [tid_of row]. *)
Definition new_env (tid_of : Row -> Z) (coordinators : nat) : Env :=
  mkEnv tid_of (fun _ => 0) (replicate coordinators []) [] 0.

(** Two records of table 0, partition 0: key 1 with [wts = rts = 5], key 2
    with [wts = rts = 8]; a transaction that has read both and writes
    nothing. *)
Definition two_records (r : Row) : Z :=
  if row_eqb r (0, 0, 1) then make_tid false 5 0
  else if row_eqb r (0, 0, 2) then make_tid false 8 0
  else 0.

Definition reader : World :=
  mkWorld
    (new_txn [read_key 0 0 1 (make_tid false 5 0);
              read_key 0 0 2 (make_tid false 8 0)] [])
    (new_env two_records 1).


(** The same transaction on a single coordinator, its record held locked
    by another worker. *)
Definition contended : World :=
  mkWorld
    (new_txn [read_key 0 0 1 (make_tid false 5 0)] [write_key 0 0 1 42])
    (new_env (fun r => if row_eqb r (0, 0, 1) then make_tid true 5 0 else 0)
       1).

(** And with the record free. *)
Definition uncontended : World :=
  mkWorld
    (new_txn [read_key 0 0 1 (make_tid false 5 0)] [write_key 0 0 1 42])
    (new_env two_records 1).

(** A transaction on a single coordinator that has read and writes the
    records 1 and 3 of table 0, partition 0; record 3 is held locked by
    another worker. *)
Definition half_locked : World :=
  mkWorld
    (new_txn [read_key 0 0 1 (make_tid false 5 0);
              read_key 0 0 3 (make_tid false 2 0)]
       [write_key 0 0 1 42; write_key 0 0 3 43])
    (new_env
       (fun r =>
          if row_eqb r (0, 0, 1) then make_tid false 5 0
          else if row_eqb r (0, 0, 3) then make_tid true 2 0
          else 0)
       1).

(** [commit] on a single coordinator whose peers are silent, and what it
    leaves (the world as it was if it does not return). *)
Definition commit_alone (w : World) : option (bool * ScarTransaction * Env) :=
  ScarExecutor.commit single_node unit_size find_read_key 0 silent 0
    (txn w) (env w).

Definition after_commit (w : World) : World :=
  match commit_alone w with
  | Some (_, t, e) => mkWorld t e
  | None => w
  end.

Definition after_lock_loop (w : World) : World :=
  match lock_write_set_loop single_node unit_size find_read_key w with
  | Some w' => w'
  | None => w
  end.

(** *** A worker of [Executor<Workload, Scar>] on one coordinator *)

Definition demo_context : Executor.Context := Executor.mkContext 2 1 1.

(** A linear congruential generator. *)
Definition next_seed (seed : Z) : Z :=
  wrap64 (seed * 6364136223846793005 + 1442695040888963407).

Definition demo_uniform_dist (seed lo hi : Z) : Z * Z :=
  (lo + seed mod (hi - lo + 1), next_seed seed).

(** A workload whose transactions read record 1 of table 0, partition 0,
    and write to it a value drawn from the generator. *)
Definition demo_next_transaction (c : Executor.Context) (partition_id : Z)
    (seed : Z) (e : Env) : ScarTransaction * Z * Env :=
  (new_txn [] [], next_seed seed, e).

Definition demo_execute (t : ScarTransaction) (seed : Z) (e : Env)
    : Executor.TransactionResult * ScarTransaction * Z * Env :=
  (Executor.READY_TO_COMMIT,
   set_writeSet [write_key 0 0 1 seed]
     (set_readSet [read_key 0 0 1 (meta e (0, 0, 1))] t),
   next_seed seed, e).

Definition demo_reset (t : ScarTransaction) : ScarTransaction :=
  mkTxn (coordinator_id t) [] [] 0 0 false false false
    (commit_rts t) (commit_wts t).

Definition demo_commit :=
  ScarExecutor.commit single_node unit_size find_read_key 0 silent.

Definition demo_process_request :=
  ScarExecutor.process_request silent (fun e : Env => e).

Definition demo_prepare :=
  Executor.prepare ScarTransaction Env demo_reset demo_next_transaction
    demo_uniform_dist demo_process_request demo_context 0.

Definition demo_iteration :=
  Executor.iteration ScarTransaction Env abort_lock demo_reset demo_execute
    demo_next_transaction demo_uniform_dist demo_commit demo_process_request
    demo_context 0.

(** Record 1 is held locked by another worker. *)
Definition locked_records (r : Row) : Z :=
  if row_eqb r (0, 0, 1) then make_tid true 5 0 else 0.

(** A worker about to start, its generator seeded with 7. *)
Definition demo_state (tid_of : Row -> Z)
    : Executor.State ScarTransaction Env :=
  Executor.mkState 7 None 0 false 0 0 0 0 (new_env tid_of 1).

(** *** An R-Store worker on coordinator 0 *)

(** One query per phase; a transaction is the seed it was generated from;
    every commit succeeds; the environment counts the calls of
    [process_request]. *)
Definition rstore_start (loads : list RStoreExecutor.ExecutorStatus)
    (at_ : RStoreExecutor.Location) (s : RStoreExecutor.State Z nat)
    : option (RStoreExecutor.Location * RStoreExecutor.State Z nat) :=
  RStoreExecutor.start Z nat (fun _ => false) (fun _ => 0) (fun t => t)
    (fun t seed e => (Executor.READY_TO_COMMIT, t, next_seed seed, e))
    (fun _ _ seed e => (seed, next_seed seed, e))
    demo_uniform_dist
    (fun _ _ t e => Some (true, t, e))
    (fun _ _ => true)
    S (fun e => e)
    (Executor.mkContext 2 2 1) (fun _ => 1%nat) (fun _ => 1%nat) 0 0
    1 0 loads at_ s.

Definition rstore_state : RStoreExecutor.State Z nat :=
  RStoreExecutor.mkState 7 [] [] 0 0 0 0 0 0%nat [].

(** One full cycle of [worker_status]. *)
Definition one_cycle : list RStoreExecutor.ExecutorStatus :=
  [RStoreExecutor.C_PHASE; RStoreExecutor.STOP;
   RStoreExecutor.S_PHASE; RStoreExecutor.STOP].

Definition rstore_after_one_cycle
    : RStoreExecutor.Location * RStoreExecutor.State Z nat :=
  match rstore_start one_cycle RStoreExecutor.WAIT_C_PHASE rstore_state with
  | Some r => r
  | None => (RStoreExecutor.RETURNED, rstore_state)
  end.




(** *** A workload with rollbacks *)

(** An execution that starts from a seed that is a multiple of four gives
    up; any other runs as [demo_execute]. *)
Definition rollback_execute (t : ScarTransaction) (seed : Z) (e : Env)
    : Executor.TransactionResult * ScarTransaction * Z * Env :=
  if seed mod 4 =? 0 then (Executor.ABORT_NORETRY, t, next_seed seed, e)
  else demo_execute t seed e.

(** [n] turns of a worker with this workload, its generator seeded with 8
    and record 1 held locked by another worker. *)
Definition rollback_state : Executor.State ScarTransaction Env :=
  Executor.mkState 8 None 0 false 0 0 0 0 (new_env locked_records 1).

Definition rollback_start (n : nat)
    : option (Executor.State ScarTransaction Env) :=
  Executor.start ScarTransaction Env abort_lock demo_reset rollback_execute
    demo_next_transaction demo_uniform_dist demo_commit demo_process_request
    demo_context 0 0 n rollback_state.

(** *** More runs of the two workers *)

(** [n] turns of the worker of [Executor<Workload, Scar>]. *)
Definition demo_start (n : nat) (s : Executor.State ScarTransaction Env)
    : option (Executor.State ScarTransaction Env) :=
  Executor.start ScarTransaction Env abort_lock demo_reset demo_execute
    demo_next_transaction demo_uniform_dist demo_commit demo_process_request
    demo_context 0 0 n s.

Definition demo_after (n : nat) (s : Executor.State ScarTransaction Env)
    : Executor.State ScarTransaction Env :=
  match demo_start n s with Some s' => s' | None => s end.

(** An execution that gives up. *)
Definition giving_up_execute (t : ScarTransaction) (seed : Z) (e : Env)
    : Executor.TransactionResult * ScarTransaction * Z * Env :=
  (Executor.ABORT_NORETRY, t, next_seed seed, e).

(** A worker in the middle of a replay, its last commit having failed from
    seed 7. *)
Definition replaying_state : Executor.State ScarTransaction Env :=
  Executor.mkState 7 (Some (new_txn [] [])) 7 true 0 1 0 0
    (new_env locked_records 1).

(** An R-Store phase of three queries, flushing every second one; a
    transaction is the seed it was generated from; those with an odd seed
    give up, the others commit. *)
Definition rstore_run_transaction (status : RStoreExecutor.ExecutorStatus)
    (s : RStoreExecutor.State Z nat) : option (RStoreExecutor.State Z nat) :=
  RStoreExecutor.run_transaction Z nat (fun _ => false) (fun _ => 0)
    (fun t => t)
    (fun t seed e =>
       (if Z.even (t / 4) then Executor.READY_TO_COMMIT
        else Executor.ABORT_NORETRY, t, next_seed seed, e))
    (fun _ _ seed e => (seed, next_seed seed, e))
    demo_uniform_dist
    (fun _ _ t e => Some (true, t, e))
    (fun _ _ => true)
    S (fun e => e)
    (Executor.mkContext 2 2 1) (fun _ => 3%nat) (fun _ => 2%nat) 0 0
    1 0 status s.

Definition rstore_after_run (status : RStoreExecutor.ExecutorStatus)
    (s : RStoreExecutor.State Z nat) : RStoreExecutor.State Z nat :=
  match rstore_run_transaction status s with Some s' => s' | None => s end.

(** One full cycle of [worker_status], then [EXIT]. *)
Definition cycle_then_exit : list RStoreExecutor.ExecutorStatus :=
  one_cycle ++ [RStoreExecutor.EXIT].

Definition rstore_after_exit : RStoreExecutor.State Z nat :=
  match
    rstore_start cycle_then_exit RStoreExecutor.WAIT_C_PHASE rstore_state
  with
  | Some r => snd r
  | None => rstore_state
  end.

End Examples.

Module AriaExamples.

Import AriaTransaction.

(** A handler that stores the index it is given in the key's tid and notes
    the index in the environment. *)
Definition noting_handler (k : AriaRWKey) (id : Z) (i : nat) (e : list nat)
    : AriaRWKey * list nat :=
  (mkRWKey (table_id k) (partition_id k) (key k) (value k) (Z.of_nat i)
     (read_request_bit k) (local_index_read_bit k)
     (execution_processed_bit k),
   e ++ [i]).

Definition fresh : AriaTransaction :=
  mkTxn 0 0 9 0 0 0 0 0 0 0 0 false false false false false false false false
    [] [] [].

Definition served (k : Z) : AriaRWKey := mkRWKey 0 0 k 0 0 false false false.

(** Four reads, the second of them served already. *)
Definition four_reads : AriaTransaction :=
  set_readSet
    [set_read_request_bit (served 1); served 2;
     set_read_request_bit (served 3); set_read_request_bit (served 4)]
    fresh.

End AriaExamples.

(** ** The random strings of [benchmark/ycsb/Random.h] *)

Module YcsbRandom.

(** The alphabet of [characters()]: the digits, then the lower-case and the
    upper-case letters, as character codes. *)
Definition characters : list Z :=
  [48; 49; 50; 51; 52; 53; 54; 55; 56; 57;
   97; 98; 99; 100; 101; 102; 103; 104; 105; 106; 107; 108; 109;
   110; 111; 112; 113; 114; 115; 116; 117; 118; 119; 120; 121; 122;
   65; 66; 67; 68; 69; 70; 71; 72; 73; 74; 75; 76; 77;
   78; 79; 80; 81; 82; 83; 84; 85; 86; 87; 88; 89; 90].

Section RandStr.

(** [uniform_dist(lo, hi)] of the base class [scar::Random]
    ([common/Random.h] is not among the sources), threading the seed. *)
Variable uniform_dist : Z -> Z -> Z -> Z * Z.

(** The body of the loop of [rand_str]: draw an index and append the
    character that stands there.  [None]: the index is outside the
    alphabet, where [characters_[k]] is undefined. *)
Definition rand_str_body (i : nat) (s : list Z * Z)
    : option (LoopStep (list Z * Z)) :=
  let '(result, seed) := s in
  let characters_len := Z.of_nat (length characters) in
  let '(k, seed) := uniform_dist seed 0 (characters_len - 1) in
  if (0 <=? k) && (k <? characters_len) then
    match characters !! Z.to_nat k with
    | Some c => Some (Continue (result ++ [c], seed))
    | None => None
    end
  else None.

(** [rand_str(length)]: the string and the seed the generator is left with.
    The loop counter is an [int]: a length past its range is not modelled
    ([None]). *)
Definition rand_str (length : nat) (seed : Z) : option (list Z * Z) :=
  if 2 ^ 31 <=? Z.of_nat length then None
  else for_loop_opt rand_str_body length 0 ([], seed).

End RandStr.

End YcsbRandom.

(** ** Vocabulary of the further statements *)

Module CoverageVocabulary.

Import Scar.

(** A write key of a partition mastered here that stands on row [r]. *)
Definition written_here (partitioner : Partitioner) (r : Row)
    (k : ScarRWKey) : bool :=
  has_master_partition partitioner (partition_id k) && row_eqb (row_of k) r.

(** Releasing one write key after a commit at [commit_wts]: on a partition
    mastered here the value is written and the record unlocked with the
    commit timestamp, elsewhere the master coordinator is told. *)
Definition release_key (partitioner : Partitioner)
    (msg_size : MessagePiece -> Z) (commit_wts : Z) (w : World)
    (k : ScarRWKey) : World :=
  if has_master_partition partitioner (partition_id k) then
    upd_env
      (fun e =>
         set_meta (row_of k) (ScarHelper.unlock_commit commit_wts)
           (set_val (row_of k) (value k) e))
      w
  else
    post msg_size (master_coordinator partitioner (partition_id k))
      (ReleaseLockMessage (table_id k) (partition_id k) (key k) commit_wts)
      w.

(** The outbound messages after a flush, from index [i] on: the one of
    this coordinator stays, the others are fresh. *)
Fixpoint kept (coordinator_id i : nat) (l : list (list MessagePiece))
    : list (list MessagePiece) :=
  match l with
  | [] => []
  | m :: l' =>
      (if Nat.eqb i coordinator_id then m else [])
        :: kept coordinator_id (S i) l'
  end.

(** What a flush hands to the outbound queue, from index [i] on. *)
Fixpoint released (coordinator_id i : nat) (l : list (list MessagePiece))
    : list (nat * list MessagePiece) :=
  match l with
  | [] => []
  | m :: l' =>
      (if Nat.eqb i coordinator_id || Nat.eqb (length m) 0 then []
       else [(i, m)])
        ++ released coordinator_id (S i) l'
  end.

(** The pieces on their way to coordinator [i], oldest first: those of the
    messages queued for it, then those of its message in progress. *)
Definition pieces_for (i : nat) (e : Env) : list MessagePiece :=
  concat (map snd (List.filter (fun x => Nat.eqb (fst x) i) (out_queue e)))
  ++ default [] (messages e !! i).

(** Nothing was sent and nothing awaited between [w] and [w']: the count
    of pending responses, the bytes put on the network, the number of calls
    of the request handler and the pieces on their way to each coordinator
    are the same. *)
Definition quiet (w w' : World) : Prop :=
  pendingResponses (txn w') = pendingResponses (txn w) /\
  network_size (txn w') = network_size (txn w) /\
  pumped (env w') = pumped (env w) /\
  forall i, pieces_for i (env w') = pieces_for i (env w).

(** The sum of the four outcome counters of a worker. *)
Definition outcomes {Txn Env : Type} (s : Executor.State Txn Env) : Z :=
  Executor.n_commit s + Executor.n_abort_lock s
  + Executor.n_abort_read_validation s + Executor.n_abort_no_retry s.

(** What [q], [n_commit] and [percentile] of an R-Store worker are after
    some of its transactions ran: [q] has grown by at most [bound]
    transactions, [n_commit] by as many, [percentile] not at all. *)
Definition queued_upto {Txn Env : Type} (bound : nat)
    (s s' : RStoreExecutor.State Txn Env) : Prop :=
  exists added,
    RStoreExecutor.q s' = RStoreExecutor.q s ++ added /\
    (length added <= bound)%nat /\
    wrap64 (RStoreExecutor.n_commit s') =
      wrap64 (RStoreExecutor.n_commit s + Z.of_nat (length added)) /\
    RStoreExecutor.percentile s' = RStoreExecutor.percentile s.

End CoverageVocabulary.

(** * Theorems *)

(** ** Arithmetic and loops *)

Lemma wrap64_small x : 0 <= x < 2 ^ 64 -> wrap64 x = x.
Proof. intros; unfold wrap64; apply Z.mod_small; lia. Qed.

(** Invariant rule: what every step preserves holds when the loop is left,
    by exhaustion or by [break]. *)
Lemma for_loop_invariant {S : Type} (P : S -> Prop)
    (body : nat -> S -> LoopStep S) :
  (forall i s s', P s -> body i s = Continue s' -> P s') ->
  (forall i s s', P s -> body i s = Break s' -> P s') ->
  forall n i s, P s -> P (for_loop body n i s).
Proof.
  intros Hc Hb n; induction n as [|n IH]; intros i s Hs; simpl; [done|].
  destruct (body i s) as [s'|s'] eqn:E; eauto.
Qed.

Lemma for_loop_opt_invariant {S : Type} (P : S -> Prop)
    (body : nat -> S -> option (LoopStep S)) :
  (forall i s s', P s -> body i s = Some (Continue s') -> P s') ->
  (forall i s s', P s -> body i s = Some (Break s') -> P s') ->
  forall n i s r, P s -> for_loop_opt body n i s = Some r -> P r.
Proof.
  intros Hc Hb n; induction n as [|n IH]; intros i s r Hs; simpl.
  - intros [= <-]; done.
  - destruct (body i s) as [[s'|s']|] eqn:E; [eauto| |done].
    intros [= <-]; eauto.
Qed.

(** A loop that reads [l !! i] and never breaks is a left fold over [l]. *)
Lemma for_loop_fold {A St : Type} (f : St -> A -> St) (l : list A)
    (body : nat -> St -> LoopStep St) :
  (forall i s, body i s =
     match l !! i with None => Break s | Some x => Continue (f s x) end) ->
  forall l2 l1 s, l = l1 ++ l2 ->
    for_loop body (length l2) (length l1) s = fold_left f l2 s.
Proof.
  intros Hbody l2; induction l2 as [|x l2 IH]; intros l1 s ->; simpl; [done|].
  rewrite Hbody, list_lookup_middle by done.
  specialize (IH (l1 ++ [x]) (f s x)).
  rewrite length_app in IH; simpl in IH.
  replace (length l1 + 1)%nat with (S (length l1)) in IH by lia.
  apply IH. by rewrite <- app_assoc.
Qed.

Lemma for_loop_fold_all {A St : Type} (f : St -> A -> St) (l : list A)
    (body : nat -> St -> LoopStep St) (s : St) :
  (forall i s, body i s =
     match l !! i with None => Break s | Some x => Continue (f s x) end) ->
  for_loop body (length l) 0 s = fold_left f l s.
Proof. intros H. exact (for_loop_fold f l body H l [] s eq_refl). Qed.

(** The same when the list is read from the state and no step changes it. *)
Lemma for_loop_fold_inv {A St : Type} (P : St -> Prop) (f : St -> A -> St)
    (l : list A) (body : nat -> St -> LoopStep St) :
  (forall i s, P s -> body i s =
     match l !! i with None => Break s | Some x => Continue (f s x) end) ->
  (forall s x, P s -> P (f s x)) ->
  forall l2 l1 s, l = l1 ++ l2 -> P s ->
    for_loop body (length l2) (length l1) s = fold_left f l2 s.
Proof.
  intros Hbody Hf l2; induction l2 as [|x l2 IH]; intros l1 s -> Hs;
    simpl; [done|].
  rewrite Hbody, list_lookup_middle by done.
  specialize (IH (l1 ++ [x]) (f s x)).
  rewrite length_app in IH; simpl in IH.
  replace (length l1 + 1)%nat with (S (length l1)) in IH by lia.
  apply IH; [by rewrite <- app_assoc | by apply Hf].
Qed.

Lemma fold_left_through_map {A B St : Type} (g : St -> B -> St) (h : A -> B)
    (l : list A) (s : St) :
  fold_left (fun s x => g s (h x)) l s = fold_left g (map h l) s.
Proof.
  revert s; induction l as [|x l IH]; intros s; simpl; [done|apply IH].
Qed.





Lemma max_of_nonneg l : 0 <= max_of l.
Proof. induction l; simpl; lia. Qed.

Lemma max_of_upper l x : In x l -> x <= max_of l.
Proof.
  induction l as [|y l IH]; simpl; [done|].
  intros [->|H]; [lia|]. specialize (IH H). lia.
Qed.

Lemma max_of_attained l :
  l <> [] -> Forall (fun x => 0 <= x) l -> In (max_of l) l.
Proof.
  induction l as [|y l IH]; [done|]. intros _ Hall.
  apply Forall_cons in Hall as [Hy Hall]. simpl.
  destruct l as [|z l].
  - left. simpl. lia.
  - destruct (Z.max_spec y (max_of (z :: l))) as [[_ ->]|[_ ->]];
      [right; apply IH; done | left; done].
Qed.

Lemma fold_left_max l s : 0 <= s -> fold_left Z.max l s = Z.max s (max_of l).
Proof.
  revert s; induction l as [|x l IH]; intros s Hs; simpl; [lia|].
  rewrite IH by lia. lia.
Qed.

(** ** The record metadata word *)

Module ScarHelperFacts.

Import ScarHelper.

Lemma get_wts_range tid : 0 <= get_wts tid < 2 ^ 31.
Proof.
  unfold get_wts, WTS_BITS. rewrite Z.land_ones by lia.
  apply Z.mod_pos_bound; lia.
Qed.

Lemma get_delta_range tid : 0 <= get_delta tid < 2 ^ 27.
Proof.
  unfold get_delta, DELTA_BITS. rewrite Z.land_ones by lia.
  apply Z.mod_pos_bound; lia.
Qed.

Lemma get_rts_range tid : 0 <= get_rts tid < 2 ^ 32.
Proof.
  unfold get_rts. pose proof (get_wts_range tid).
  pose proof (get_delta_range tid). lia.
Qed.

(** Replacing the delta leaves the bits from 32 up alone: [wts] and the
    lock bit. *)
Lemma set_delta_testbit tid d n :
  32 <= n -> Z.testbit (set_delta tid d) n = Z.testbit tid n.
Proof.
  intros Hn. unfold set_delta, DELTA_BITS, DELTA_OFFSET.
  rewrite Z.lor_spec, Z.ldiff_spec, !Z.shiftl_spec by lia.
  rewrite Z.land_spec, !Z.testbit_ones_nonneg by lia.
  replace (n - 5 <? 27) with false by (symmetry; apply Z.ltb_ge; lia).
  rewrite andb_false_r, orb_false_r. simpl. apply andb_true_r.
Qed.


Lemma is_locked_set_delta tid d :
  is_locked (set_delta tid d) = is_locked tid.
Proof. unfold is_locked, LOCK_BIT. apply set_delta_testbit; lia. Qed.



End ScarHelperFacts.

(** ** Scar *)

Module ScarFacts.

Import ScarHelper Scar ScarVocabulary ScarHelperFacts.

Lemma row_eqb_spec a b : reflect (a = b) (row_eqb a b).
Proof.
  destruct a as [[t1 p1] k1], b as [[t2 p2] k2]; simpl.
  destruct (Z.eqb_spec t1 t2), (Z.eqb_spec p1 p2), (Z.eqb_spec k1 k2);
    simpl; constructor; congruence.
Qed.

Lemma row_eqb_refl r : row_eqb r r = true.
Proof. by destruct (row_eqb_spec r r). Qed.

Lemma is_locked_unlock t : is_locked (unlock t) = false.
Proof. unfold is_locked, unlock. apply Z.clearbit_eq. Qed.

Lemma is_locked_setbit t : is_locked (Z.setbit t LOCK_BIT) = true.
Proof. unfold is_locked. apply Z.setbit_eq. unfold LOCK_BIT. lia. Qed.





(** C2.  [compute_commit_ts] sets [commit_rts] to the maximum, over the read
    set, of the [wts] of the tid captured at read, and [commit_wts] to the
    maximum of [commit_rts] and, over the write set, of the [rts] of the
    captured tid plus one; with an empty write set the two are equal.  It
    touches nothing else. *)
Theorem compute_commit_ts_max (t : ScarTransaction) :
  let t' := compute_commit_ts t in
  commit_rts t' = max_of (map (fun k => get_wts (tid k)) (readSet t)) /\
  commit_wts t' =
    Z.max (commit_rts t')
          (max_of (map (fun k => get_rts (tid k) + 1) (writeSet t))) /\
  (writeSet t = [] -> commit_wts t' = commit_rts t') /\
  t' = set_commit_wts (commit_wts t') (set_commit_rts (commit_rts t') t).
Proof.
  assert (Hr : for_loop (max_wts_body t) (length (readSet t)) 0 0 =
               max_of (map (fun k => get_wts (tid k)) (readSet t))).
  { rewrite (for_loop_fold_all (fun ts k => Z.max ts (get_wts (tid k)))
               (readSet t) (max_wts_body t) 0 (fun i s => eq_refl)).
    rewrite (fold_left_through_map Z.max (fun k => get_wts (tid k))).
    rewrite fold_left_max by lia. pose proof (max_of_nonneg
      (map (fun k => get_wts (tid k)) (readSet t))). lia. }
  assert (Hw : forall t0 s, writeSet t0 = writeSet t -> 0 <= s ->
               for_loop (max_rts_body t0) (length (writeSet t)) 0 s =
               Z.max s (max_of (map (fun k => get_rts (tid k) + 1)
                                    (writeSet t)))).
  { intros t0 s Ht0 Hs.
    rewrite (for_loop_fold_all
               (fun ts k => Z.max ts (wrap64 (get_rts (tid k) + 1)))
               (writeSet t) (max_rts_body t0) s)
      by (intros; unfold max_rts_body; rewrite Ht0; done).
    rewrite (fold_left_through_map Z.max
               (fun k => wrap64 (get_rts (tid k) + 1))).
    rewrite fold_left_max by lia. do 2 f_equal.
    apply map_ext; intros k. apply wrap64_small.
    pose proof (get_rts_range (tid k)). lia. }
  unfold compute_commit_ts; simpl.
  rewrite Hr, Hw; [|done|apply max_of_nonneg].
  repeat split.
  intros ->. simpl. pose proof (max_of_nonneg
    (map (fun k => get_wts (tid k)) (readSet t))). lia.
Qed.

Section Protocol.

Variable partitioner : Partitioner.
Variable msg_size : MessagePiece -> Z.
Variable get_read_key : ScarTransaction -> Z -> option ScarRWKey.
Variable message_flusher : World -> World.
Variable remote_request_handler : World -> World.

(** *** [abort] *)


Lemma release_taken_lock_writeSet w k :
  writeSet (txn (release_taken_lock partitioner msg_size w k)) =
  writeSet (txn w).
Proof.
  unfold release_taken_lock.
  destruct (negb _); [done|]. destruct (has_master_partition _ _); done.
Qed.

(** [abort]'s loop folds the release of one key over the write set. *)
Lemma abort_loop_fold w :
  abort_loop partitioner msg_size w =
  fold_left (release_taken_lock partitioner msg_size) (writeSet (txn w)) w.
Proof.
  unfold abort_loop.
  apply (for_loop_fold_inv (fun s => writeSet (txn s) = writeSet (txn w))
           (release_taken_lock partitioner msg_size) (writeSet (txn w))
           (abort_body partitioner msg_size)) with (l1 := []); [| |done|done].
  - intros i s Hs. unfold abort_body, release_taken_lock. rewrite Hs.
    destruct (writeSet (txn w) !! i) as [k|]; [|done].
    destruct (negb _); [done|].
    destruct (has_master_partition _ _); done.
  - intros s k Hs. by rewrite release_taken_lock_writeSet.
Qed.

Lemma unlock_idemp t : unlock (unlock t) = unlock t.
Proof.
  unfold unlock. apply Z.bits_inj'; intros n Hn.
  rewrite !Z.clearbit_eqb, <- andb_assoc, andb_diag; done.
Qed.

Lemma store_same f r v : store f r v r = v.
Proof.
  unfold store. destruct (row_eqb_spec r r); [done|congruence].
Qed.

Lemma store_other f r v r' : r <> r' -> store f r v r' = f r'.
Proof.
  intros H. unfold store. destruct (row_eqb_spec r r'); [congruence|done].
Qed.

(** The records after the releases: unlocked where a lock was taken here,
    untouched elsewhere. *)
Lemma release_fold_meta l : forall w r,
  meta (env (fold_left (release_taken_lock partitioner msg_size) l w)) r =
  if existsb (fun k => locked_here partitioner k && row_eqb (row_of k) r) l
  then unlock (meta (env w) r) else meta (env w) r.
Proof.
  induction l as [|k l IH]; intros w r; cbn [fold_left existsb]; [done|].
  rewrite IH. unfold release_taken_lock, locked_here at 2.
  destruct (write_lock_bit k); cbn [negb andb orb]; [|done].
  destruct (has_master_partition partitioner (partition_id k));
    cbn [andb orb]; [|done].
  unfold upd_env, set_meta; cbn [env meta].
  destruct (row_eqb_spec (row_of k) r) as [<-|Hne]; cbn [orb].
  - rewrite store_same, unlock_idemp. by destruct (existsb _ l).
  - by rewrite store_other.
Qed.

Lemma lookup_send c p e c' m :
  messages e !! c' = Some m ->
  messages (send c p e) !! c' =
  Some (if Nat.eqb c c' then m ++ [p] else m).
Proof.
  intros Hm. unfold send; simpl.
  destruct (Nat.eqb_spec c c') as [->|Hne].
  - rewrite Hm. apply list_lookup_insert_eq. by eapply lookup_lt_Some.
  - destruct (messages e !! c); [|done].
    by rewrite list_lookup_insert_ne.
Qed.

(** The outbound messages after the releases: each gets, in order, one
    [ABORT] piece per write key whose lock its coordinator took. *)
Lemma release_fold_messages l : forall w c m,
  messages (env w) !! c = Some m ->
  messages (env (fold_left (release_taken_lock partitioner msg_size) l w))
    !! c =
  Some (m ++ map abort_piece (List.filter (locked_at partitioner c) l)).
Proof.
  induction l as [|k l IH]; intros w c m Hm; simpl.
  - by rewrite app_nil_r.
  - unfold locked_at at 1, release_taken_lock at 2.
    destruct (write_lock_bit k); simpl; [|by apply IH].
    destruct (has_master_partition partitioner (partition_id k)); simpl;
      [by apply IH|].
    erewrite IH; [|unfold post; simpl; by apply lookup_send].
    destruct (Nat.eqb _ c); simpl; [|done].
    by rewrite <- app_assoc.
Qed.

(** The releases touch neither the values, nor the outbound queue, nor the
    count of handler calls, nor the transaction but for [network_size]. *)
Lemma release_fold_frame l : forall w,
  let w' := fold_left (release_taken_lock partitioner msg_size) l w in
  vals (env w') = vals (env w) /\ out_queue (env w') = out_queue (env w) /\
  pumped (env w') = pumped (env w) /\
  txn w' = set_network_size (network_size (txn w')) (txn w).
Proof.
  induction l as [|k l IH]; intros w; simpl.
  - by destruct w as [[]].
  - destruct (IH (release_taken_lock partitioner msg_size w k))
      as (-> & -> & -> & ->).
    unfold release_taken_lock.
    destruct (negb _); [by destruct w as [[]]|].
    destruct (has_master_partition _ _); by destruct w as [[]].
Qed.

(** C4.  [abort] releases the write locks that were taken, and those only:
    its loop leaves every record unlocked that a write key with the
    [write_lock_bit] locks on a partition mastered here and leaves every
    other record as it was; every outbound message gets one [ABORT] piece,
    in order, for each write key with the bit whose partition its
    coordinator masters; values, outbound queue and the transaction (but
    for [network_size]) are untouched.  Then the messages are flushed and
    [abort] returns without one call of [remote_request_handler], whatever
    the fuel. *)
Theorem abort_releases_taken_locks (fuel : nat) (w : World) :
  let w' := abort_loop partitioner msg_size w in
  abort partitioner msg_size message_flusher remote_request_handler fuel w =
    Some (message_flusher w') /\
  (forall r,
     meta (env w') r =
     if existsb (fun k => locked_here partitioner k && row_eqb (row_of k) r)
          (writeSet (txn w))
     then unlock (meta (env w) r) else meta (env w) r) /\
  (forall c m,
     messages (env w) !! c = Some m ->
     messages (env w') !! c =
     Some (m ++ map abort_piece
                  (List.filter (locked_at partitioner c)
                     (writeSet (txn w))))) /\
  vals (env w') = vals (env w) /\ out_queue (env w') = out_queue (env w) /\
  pumped (env w') = pumped (env w) /\
  txn w' = set_network_size (network_size (txn w')) (txn w).
Proof.
  intros w'. subst w'. split; [reflexivity|].
  rewrite abort_loop_fold.
  split; [intros r; apply release_fold_meta|].
  split; [intros c m; apply release_fold_messages|].
  apply release_fold_frame.
Qed.

(** *** Waiting for responses *)












(** *** [lock_write_set] *)






(** *** [commit] *)

Lemma abort_loop_txn w :
  txn (abort_loop partitioner msg_size w) =
  set_network_size (network_size (txn (abort_loop partitioner msg_size w)))
    (txn w).
Proof. rewrite abort_loop_fold. apply release_fold_frame. Qed.

(** A commit that fails leaves one of the two retry flags set: with
    [abort_lock] clear, [abort_read_validation] holds.  The flusher is
    taken not to touch the transaction ([flush_messages] does not). *)
Lemma commit_false_flags fuel w w' :
  (forall w, txn (message_flusher w) = txn w) ->
  commit partitioner msg_size get_read_key message_flusher
    remote_request_handler fuel w = Some (false, w') ->
  abort_lock (txn w') = false -> abort_read_validation (txn w') = true.
Proof.
  intros Hflush. unfold commit, lock_write_set.
  destruct (lock_write_set_loop _ _ _ _) as [w1|]; [|done].
  destruct (sync_messages _ _ _ w1 true) as [w2|]; [|done].
  destruct (abort_lock (txn w2)) eqn:Hlock.
  - unfold abort, sync_messages. intros [= <-].
    rewrite Hflush, abort_loop_txn. cbn. congruence.
  - unfold validate_read_set.
    destruct (sync_messages _ _ _ _ true) as [w3|]; [|done].
    destruct (abort_read_validation (txn w3)) eqn:Hval; cbn [negb].
    + unfold abort, sync_messages. intros [= <-] _.
      rewrite Hflush, abort_loop_txn. cbn. done.
    + destruct (write_and_replicate _ _ _ _ _ _) as [w4|]; [|done].
      destruct (release_lock _ _ _ _ _ _); done.
Qed.

(** *** [validate_read_set] *)







End Protocol.

End ScarFacts.

(** ** Scar: closed instances *)

Module ScarExamples.

Import ScarHelper Scar ScarHelperFacts ScarFacts Examples.

(** The reader of [Examples.reader] once [compute_commit_ts] has run:
    [commit_wts] is 8. *)
Lemma reader_commit_wts :
  commit_wts (compute_commit_ts (txn reader)) = 8.
Proof. vm_compute. reflexivity. Qed.



End ScarExamples.

(** ** The worker loop *)

Module ExecutorFacts.

Import Executor.

Lemma fetch_add1_changes x : fetch_add1 x <> x.
Proof.
  unfold fetch_add1, wrap64. intros H.
  pose proof (Z.mod_pos_bound (x + 1) (2 ^ 64) ltac:(lia)) as Hb.
  assert (Hx : (x + 1) mod 2 ^ 64 = x mod 2 ^ 64).
  { rewrite H. symmetry. apply Z.mod_small. lia. }
  rewrite Z.add_mod in Hx by lia.
  rewrite (Z.mod_small 1) in Hx by lia.
  pose proof (Z.mod_pos_bound x (2 ^ 64) ltac:(lia)) as Hb'.
  destruct (Z.eq_dec (x mod 2 ^ 64) (2 ^ 64 - 1)) as [E|E].
  - rewrite E in Hx. change ((2 ^ 64 - 1 + 1) mod 2 ^ 64) with 0 in Hx. lia.
  - rewrite Z.mod_small in Hx by lia. lia.
Qed.

Section Generic.

Variable Txn : Type.
Variable Env : Type.
Variable abort_lock : Txn -> bool.
Variable reset : Txn -> Txn.
Variable execute : Txn -> Z -> Env -> TransactionResult * Txn * Z * Env.
Variable next_transaction : Context -> Z -> Z -> Env -> Txn * Z * Env.
Variable uniform_dist : Z -> Z -> Z -> Z * Z.
Variable commit : nat -> Txn -> Env -> option (bool * Txn * Env).
Variable process_request : option Txn -> Env -> option Txn * Env.
Variable context : Context.
Variable coordinator_id : nat.

Local Abbreviation prepare :=
  (prepare Txn Env reset next_transaction uniform_dist process_request
     context coordinator_id).
Local Abbreviation run := (run Txn Env abort_lock execute commit).
Local Abbreviation iteration :=
  (iteration Txn Env abort_lock reset execute next_transaction uniform_dist
     commit process_request context coordinator_id).

(** The seed saved in [last_seed] is the one the turn starts with. *)
Lemma prepare_saved_seed s p : prepare s = Some p -> saved_seed p = random s.
Proof.
  unfold Executor.prepare.
  destruct (process_request _ _) as [t e].
  destruct (retry_transaction s).
  - destruct t; [|done]. by intros [= <-].
  - destruct (uniform_dist _ _ _) as [r seed].
    destruct (next_transaction _ _ _ _) as [[t' seed'] e'].
    by intros [= <-].
Qed.

(** A turn that starts with the retry flag set resets the transaction in
    hand and runs it from the seed the turn starts with; the workload is
    not asked for a transaction. *)
Lemma prepare_retry s t0 e0 :
  retry_transaction s = true ->
  process_request (transaction s) (env s) = (Some t0, e0) ->
  prepare s = Some (mkPrepared (random s) (reset t0) (random s) e0).
Proof. intros Hr Hp. unfold Executor.prepare. by rewrite Hp, Hr. Qed.

(** C6, as amended.  Take a turn of the loop.  The seed saved at its start
    is the seed the generator had then, before the transaction was
    generated or reset.  When the transaction is ready to commit and
    [commit] returns false, the turn ends with the generator back at that
    seed, the retry flag set and the transaction kept, so that the next
    turn resets this transaction, asks the workload for none, and runs it
    from the saved seed; when [commit] returns true, the retry flag is
    cleared.  When [execute] returns anything but [READY_TO_COMMIT], the
    turn leaves the retry flag as it was and the generator at the seed the
    execution ended with: if the turn was a replay, the next turn replays
    the transaction once more, and from that seed, not from the saved
    one. *)
Theorem failed_commit_replays_from_saved_seed (fuel : nat) (s : State Txn Env)
    (p : Prepared Txn Env) (result : TransactionResult) (t : Txn) (seed : Z)
    (e : Env) :
  prepare s = Some p ->
  execute (to_run p) (seed_now p) (env_now p) = (result, t, seed, e) ->
  saved_seed p = random s /\
  if is_ready_to_commit result then
    forall ok t' e',
      commit fuel t e = Some (ok, t', e') ->
      exists s',
        iteration fuel s = Some s' /\
        transaction s' = Some t' /\ env s' = e' /\
        if ok then retry_transaction s' = false /\ random s' = seed
        else
          random s' = random s /\ retry_transaction s' = true /\
          forall t0 e0,
            process_request (Some t') e' = (Some t0, e0) ->
            prepare s' =
              Some (mkPrepared (random s) (reset t0) (random s) e0)
  else
    exists s',
      iteration fuel s = Some s' /\
      transaction s' = Some t /\ env s' = e /\
      random s' = seed /\ retry_transaction s' = retry_transaction s /\
      (retry_transaction s = true ->
       forall t0 e0,
         process_request (Some t) e = (Some t0, e0) ->
         prepare s' = Some (mkPrepared seed (reset t0) seed e0)).
Proof.
  intros Hp He. pose proof (prepare_saved_seed _ _ Hp) as Hseed.
  split; [done|].
  unfold Executor.iteration. rewrite Hp. unfold Executor.run. rewrite He.
  destruct (is_ready_to_commit result).
  - intros ok t' e' Hc. rewrite Hc.
    destruct ok.
    + eexists; split; [reflexivity|]. done.
    + assert (Hnext : forall s', transaction s' = Some t' -> env s' = e' ->
                random s' = random s -> retry_transaction s' = true ->
                forall t0 e0, process_request (Some t') e' = (Some t0, e0) ->
                prepare s' =
                Some (mkPrepared (random s) (reset t0) (random s) e0)).
      { intros s' Ht Hen Hr Hretry t0 e0 Hpr.
        rewrite <- Hr. apply prepare_retry; [done|]. by rewrite Ht, Hen. }
      destruct (abort_lock t'); (eexists; split; [reflexivity|]);
        cbn; rewrite Hseed; repeat split; apply Hnext; cbn; congruence.
  - eexists; split; [reflexivity|]. cbn. repeat split.
    intros Hr t0 e0 Hpr. unfold Executor.prepare. cbn. by rewrite Hpr, Hr.
Qed.

End Generic.

Section WithScar.

Import Scar.

Variable partitioner : Partitioner.
Variable msg_size : MessagePiece -> Z.
Variable get_read_key : ScarTransaction -> Z -> option ScarRWKey.
Variable coordinator_id : nat.
Variable handle : World -> World.
Variable handle_idle : Scar.Env -> Scar.Env.
Variable reset : ScarTransaction -> ScarTransaction.
Variable execute :
  ScarTransaction -> Z -> Scar.Env ->
  TransactionResult * ScarTransaction * Z * Scar.Env.
Variable next_transaction :
  Context -> Z -> Z -> Scar.Env -> ScarTransaction * Z * Scar.Env.
Variable uniform_dist : Z -> Z -> Z -> Z * Z.
Variable context : Context.

Local Abbreviation commit :=
  (ScarExecutor.commit partitioner msg_size get_read_key coordinator_id handle).
Local Abbreviation process_request :=
  (ScarExecutor.process_request handle handle_idle).
Local Abbreviation prepare :=
  (prepare ScarTransaction Scar.Env reset next_transaction uniform_dist
     process_request context coordinator_id).
Local Abbreviation iteration :=
  (iteration ScarTransaction Scar.Env abort_lock reset execute
     next_transaction uniform_dist commit process_request context
     coordinator_id).

Lemma flush_messages_txn w :
  txn (ScarExecutor.message_flusher coordinator_id w) = txn w.
Proof. reflexivity. Qed.

(** C7.  A turn of the loop of [Executor<Workload, Scar>] that comes to its
    end adds one to exactly one of the four outcome counters and leaves the
    other three alone: [n_commit] when [execute] returns [READY_TO_COMMIT]
    and [commit] succeeds; [n_abort_lock] when [commit] fails with
    [abort_lock] set; [n_abort_read_validation] when [commit] fails with
    [abort_lock] clear, and then [abort_read_validation] holds;
    [n_abort_no_retry] when [execute] returns anything else. *)
Theorem attempt_counts_one_outcome (fuel : nat)
    (s s' : State ScarTransaction Scar.Env) :
  iteration fuel s = Some s' ->
  exists p result t seed e,
    prepare s = Some p /\
    execute (to_run p) (seed_now p) (env_now p) = (result, t, seed, e) /\
    match result with
    | READY_TO_COMMIT =>
        exists ok t' e',
          commit fuel t e = Some (ok, t', e') /\
          if ok then
            counters s' =
            (fetch_add1 (n_commit s), n_abort_lock s,
             n_abort_read_validation s, n_abort_no_retry s)
          else if abort_lock t' then
            counters s' =
            (n_commit s, fetch_add1 (n_abort_lock s),
             n_abort_read_validation s, n_abort_no_retry s)
          else
            abort_read_validation t' = true /\
            counters s' =
            (n_commit s, n_abort_lock s,
             fetch_add1 (n_abort_read_validation s), n_abort_no_retry s)
    | _ =>
        counters s' =
        (n_commit s, n_abort_lock s, n_abort_read_validation s,
         fetch_add1 (n_abort_no_retry s))
    end.
Proof.
  unfold Executor.iteration.
  destruct prepare as [p|] eqn:Hp; [|done].
  unfold Executor.run.
  destruct (execute _ _ _) as [[[result t] seed] e] eqn:He.
  intros H. exists p, result, t, seed, e. split; [done|]. split; [done|].
  destruct result; cbn [is_ready_to_commit] in H;
    [|by injection H as <-|by injection H as <-].
  destruct (commit fuel t e) as [[[ok t'] e']|] eqn:Hc; [|done].
  exists ok, t', e'. split; [done|].
  destruct ok; [by injection H as <-|].
  destruct (abort_lock t') eqn:Hl; [by injection H as <-|].
  injection H as <-. split; [|done].
  unfold ScarExecutor.commit in Hc.
  destruct (Scar.commit _ _ _ _ _ _ _) as [[b w']|] eqn:Hs; [|done].
  injection Hc as -> <- <-.
  eapply ScarFacts.commit_false_flags; [|exact Hs|exact Hl].
  intros w; apply flush_messages_txn.
Qed.

End WithScar.

End ExecutorFacts.

(** ** The worker loop: closed instances *)

Module ExecutorExamples.

Import Scar Executor ExecutorFacts Examples.

(** C6, the claim as stated fails.  With a workload that rolls back, the
    first transaction is ready to commit and finds its record locked: the
    commit fails and the generator is put back at the saved seed 8.  The
    replay from seed 8 gives up: the turn counts [n_abort_no_retry],
    leaves the retry flag set and the generator one step on.  The third
    turn replays the transaction from that seed, which no failed commit
    had saved. *)
Lemma replay_after_rollback_leaves_saved_seed :
  match rollback_start 1, rollback_start 2, rollback_start 3 with
  | Some s1, Some s2, Some s3 =>
      (retry_transaction s1 = true /\ random s1 = 8 /\
       counters s1 = (0, 1, 0, 0)) /\
      (retry_transaction s2 = true /\ last_seed s2 = 8 /\
       random s2 = next_seed 8 /\ counters s2 = (0, 1, 0, 1)) /\
      (last_seed s3 = next_seed 8 /\ (next_seed 8 =? 8) = false /\
       counters s3 = (0, 2, 0, 1))
  | _, _, _ => False
  end.
Proof. vm_compute. repeat split; reflexivity. Qed.

(** C6, the theorem at a worker whose first transaction finds its record
    locked: the commit fails, the generator is back at seed 7 and the
    retry flag is set. *)
Lemma failed_commit_replays_witness :
  exists s',
    demo_iteration 0 (demo_state locked_records) = Some s' /\
    random s' = 7 /\ retry_transaction s' = true.
Proof.
  destruct (failed_commit_replays_from_saved_seed ScarTransaction Scar.Env
              abort_lock demo_reset demo_execute demo_next_transaction
              demo_uniform_dist demo_commit demo_process_request
              demo_context 0 0 (demo_state locked_records)
              _ _ _ _ _ eq_refl eq_refl) as [_ H].
  destruct (H false _ _ eq_refl) as (s' & Hit & _ & _ & Hr & Hretry & _).
  exists s'. repeat split; assumption.
Defined.

(** The same worker, two turns on: the second turn has replayed the
    transaction from seed 7 and failed again; nothing was committed. *)
Lemma replay_runs_from_saved_seed :
  match start ScarTransaction Scar.Env abort_lock demo_reset demo_execute
          demo_next_transaction demo_uniform_dist demo_commit
          demo_process_request demo_context 0 0 2 (demo_state locked_records)
  with
  | Some s' =>
      random s' = 7 /\ last_seed s' = 7 /\ retry_transaction s' = true /\
      counters s' = (0, 2, 0, 0) /\
      option_map writeSet (transaction s') = Some [write_key 0 0 1 7]
  | None => False
  end.
Proof. vm_compute. repeat split; reflexivity. Qed.

(** C7, the theorem at the same worker: the turn counts one lock abort. *)
Lemma attempt_counts_one_outcome_witness :
  exists s',
    demo_iteration 0 (demo_state locked_records) = Some s' /\
    counters s' = (0, 1, 0, 0) /\
    exists p, demo_prepare (demo_state locked_records) = Some p.
Proof.
  exists (match demo_iteration 0 (demo_state locked_records) with
          | Some s' => s'
          | None => demo_state locked_records
          end).
  split; [vm_compute; reflexivity|]. split; [vm_compute; reflexivity|].
  destruct (attempt_counts_one_outcome single_node unit_size find_read_key 0
              silent (fun e => e) demo_reset demo_execute
              demo_next_transaction demo_uniform_dist demo_context 0
              (demo_state locked_records)
              (match demo_iteration 0 (demo_state locked_records) with
               | Some s' => s'
               | None => demo_state locked_records
               end)
              ltac:(vm_compute; reflexivity))
    as (p & _ & _ & _ & _ & Hp & _).
  exists p. exact Hp.
Defined.

(** With the record free the first turn commits. *)
Lemma free_record_commits :
  match demo_iteration 0 (demo_state two_records) with
  | Some s' =>
      counters s' = (1, 0, 0, 0) /\ retry_transaction s' = false /\
      ScarHelper.get_wts (meta (env s') (0, 0, 1)) = 6
  | None => False
  end.
Proof. vm_compute. repeat split; reflexivity. Qed.

End ExecutorExamples.

(** ** The R-Store worker *)

Module RStoreFacts.

Import Executor RStoreExecutor RStoreVocabulary.

Lemma started_app l1 l2 : started (l1 ++ l2) = (started l1 + started l2)%nat.
Proof. unfold started. by rewrite List.filter_app, length_app. Qed.

Lemma completed_app l1 l2 :
  completed (l1 ++ l2) = (completed l1 + completed l2)%nat.
Proof. unfold completed. by rewrite List.filter_app, length_app. Qed.

Section Worker.

Variable Txn : Type.
Variable Env : Type.
Variable abort_lock : Txn -> bool.
Variable network_size : Txn -> Z.
Variable reset : Txn -> Txn.
Variable execute : Txn -> Z -> Env -> TransactionResult * Txn * Z * Env.
Variable next_transaction : ExecutorStatus -> Z -> Z -> Env -> Txn * Z * Env.
Variable uniform_dist : Z -> Z -> Z -> Z * Z.
Variable commit :
  ExecutorStatus -> nat -> Txn -> Env -> option (bool * Txn * Env).
Variable has_master_partition : ExecutorStatus -> Z -> bool.
Variable process_request : Env -> Env.
Variable flush_messages : Env -> Env.
Variable context : Context.
Variable query_num : ExecutorStatus -> nat.
Variable batch_flush : ExecutorStatus -> nat.
Variable coordinator_id : Z.
Variable id : Z.

Local Abbreviation turn_input :=
  (turn_input Txn Env reset next_transaction process_request).
Local Abbreviation attempt :=
  (attempt Txn Env abort_lock network_size reset execute next_transaction
     commit process_request).
Local Abbreviation do_while :=
  (do_while Txn Env abort_lock network_size reset execute next_transaction
     commit process_request).
Local Abbreviation query_body :=
  (query_body Txn Env abort_lock network_size reset execute next_transaction
     commit process_request flush_messages batch_flush).
Local Abbreviation run_transaction :=
  (run_transaction Txn Env abort_lock network_size reset execute
     next_transaction uniform_dist commit has_master_partition
     process_request flush_messages context query_num batch_flush
     coordinator_id id).
Local Abbreviation run_phase :=
  (run_phase Txn Env abort_lock network_size reset execute
     next_transaction uniform_dist commit has_master_partition
     process_request flush_messages context query_num batch_flush
     coordinator_id id).
Local Abbreviation step :=
  (step Txn Env abort_lock network_size reset execute
     next_transaction uniform_dist commit has_master_partition
     process_request flush_messages context query_num batch_flush
     coordinator_id id).
Local Abbreviation start :=
  (start Txn Env abort_lock network_size reset execute
     next_transaction uniform_dist commit has_master_partition
     process_request flush_messages context query_num batch_flush
     coordinator_id id).
Local Abbreviation process_request_in_start :=
  (process_request_in_start Txn Env process_request).

(** The retry loop of [run_transaction] behaves as the one of
    [Executor::start]: a failed commit puts the generator back at the seed
    the turn started with, keeps the transaction and asks for a retry,
    so that the next turn resets that transaction and runs it from that
    seed; a successful commit clears the flag and queues the transaction. *)
Lemma attempt_restores_seed fuel status partition_id l s t0 seed0 e0 t seed e
    ok t' e' :
  turn_input status partition_id l s = Some (t0, seed0, e0) ->
  execute t0 seed0 e0 = (READY_TO_COMMIT, t, seed, e) ->
  commit status fuel t e = Some (ok, t', e') ->
  exists l' s',
    attempt fuel status partition_id l s = Some (l', s') /\
    last_seed l' = random s /\ env s' = e' /\
    if ok then
      retry_transaction l' = false /\ transaction l' = None /\
      q s' = q s ++ [t'] /\ random s' = seed
    else
      retry_transaction l' = true /\ random s' = random s /\ q s' = q s /\
      turn_input status partition_id l' s' =
        Some (reset t', random s, process_request e').
Proof.
  intros Hprep He Hc. unfold RStoreExecutor.attempt.
  rewrite Hprep, He. cbn [is_ready_to_commit]. rewrite Hc.
  destruct ok.
  - do 2 eexists. split; [reflexivity|]. cbn. repeat split; reflexivity.
  - destruct (abort_lock t'); (do 2 eexists; split; [reflexivity|]);
      cbn; repeat split; reflexivity.
Qed.

(** Nothing in [run_transaction] writes to the history. *)
Lemma attempt_log fuel status partition_id l s l' s' :
  attempt fuel status partition_id l s = Some (l', s') -> log s' = log s.
Proof.
  unfold RStoreExecutor.attempt.
  destruct (turn_input status partition_id l s) as [[[t seed] e]|]; [|done].
  destruct (execute t seed e) as [[[r t1] seed1] e1].
  destruct (is_ready_to_commit r); [|by intros [= <- <-]].
  destruct (commit status fuel t1 e1) as [[[ok t2] e2]|]; [|done].
  destruct ok; [by intros [= <- <-]|].
  destruct (abort_lock t2); by intros [= <- <-].
Qed.

Lemma do_while_log turns fuel status partition_id : forall l s l' s',
  do_while turns fuel status partition_id l s = Some (l', s') ->
  log s' = log s.
Proof.
  induction turns as [|turns IH]; intros l s l' s'; simpl; [done|].
  destruct (attempt fuel status partition_id l s) as [[l1 s1]|] eqn:E;
    [|done].
  apply attempt_log in E.
  destruct (retry_transaction l1).
  - intros H. apply IH in H. congruence.
  - intros [= <- <-]. done.
Qed.

Lemma run_transaction_log turns fuel status s s' :
  run_transaction turns fuel status s = Some s' -> log s' = log s.
Proof.
  unfold RStoreExecutor.run_transaction.
  destruct (match status with C_PHASE => _ | _ => _ end)
    as [[partition_id s1]|] eqn:Hpre; [|done].
  assert (Hs1 : log s1 = log s).
  { destruct status; try done.
    - destruct (negb (coordinator_id =? 0)); [done|].
      destruct (negb _); [done|].
      destruct (uniform_dist _ _ _) as [r seed].
      by injection Hpre as <- <-.
    - by injection Hpre as <- <-. }
  destruct (negb (has_master_partition status partition_id));
    [intros [=]|].
  destruct (for_loop_opt _ _ _ _) as [[l2 s2]|] eqn:Hloop; [|done].
  intros [= <-]. cbn. rewrite <- Hs1.
  apply (for_loop_opt_invariant (fun ls => log (snd ls) = log s1) _)
    in Hloop; [done| | |done].
  - intros i [l3 s3] [l4 s4] H3. unfold RStoreExecutor.query_body.
    destruct (do_while _ _ _ _ _ _) as [[l5 s5]|] eqn:Hd; [|done].
    apply do_while_log in Hd.
    destruct (Nat.eqb _ 0); intros [= <- <-]; cbn in *; congruence.
  - intros i [l3 s3] [l4 s4] H3. unfold RStoreExecutor.query_body.
    destruct (do_while _ _ _ _ _ _) as [[l5 s5]|]; [|done].
    destruct (Nat.eqb _ 0); done.
Qed.

(** What one load of [worker_status] makes the worker do: where it goes
    and what it adds to its history. *)
Lemma step_events turns fuel status at_ s at' s' :
  step turns fuel status at_ s = Some (at', s') ->
  match at_, status with
  | WAIT_C_PHASE, EXIT =>
      at' = RETURNED /\ log s' = log s ++ [CommitTransactions (length (q s))]
  | WAIT_C_PHASE, C_PHASE =>
      if coordinator_id =? 0 then
        at' = WAIT_S_PHASE /\
        log s' = log s ++ [CommitTransactions (length (q s)); Started;
                           RunTransaction C_PHASE 0; Completed]
      else
        at' = SERVE_C_PHASE /\
        log s' = log s ++ [CommitTransactions (length (q s)); Started]
  | SERVE_C_PHASE, STOP =>
      at' = WAIT_S_PHASE /\ log s' = log s ++ [ProcessRequest; Completed]
  | SERVE_C_PHASE, _ =>
      at' = SERVE_C_PHASE /\ log s' = log s ++ [ProcessRequest]
  | WAIT_S_PHASE, S_PHASE =>
      at' = WAIT_STOP /\
      log s' = log s ++ [CommitTransactions (length (q s)); Started;
                         RunTransaction S_PHASE 0; Completed]
  | WAIT_STOP, STOP =>
      at' = WAIT_C_PHASE /\ log s' = log s ++ [ProcessRequest; Completed]
  | _, _ => at' = at_ /\ log s' = log s
  end.
Proof.
  unfold RStoreExecutor.step, RStoreExecutor.run_phase.
  destruct at_, status; try (intros [= <- <-]; cbn;
    rewrite <- ?app_assoc; done).
  - destruct (coordinator_id =? 0).
    + destruct (run_transaction _ _ _ _) as [s1|] eqn:E; [|done].
      apply run_transaction_log in E. intros [= <- <-]. cbn.
      rewrite E. cbn. rewrite <- !app_assoc. done.
    + intros [= <- <-]. cbn. rewrite <- !app_assoc. done.
  - destruct (run_transaction _ _ _ _) as [s1|] eqn:E; [|done].
    apply run_transaction_log in E. intros [= <- <-]. cbn.
    rewrite E. cbn. rewrite <- !app_assoc. done.
Qed.

(** What holds of the history wherever the worker stands: per cycle gone by
    two additions to [n_started_workers] and three to [n_complete_workers],
    plus those of the cycle under way; and every [run_transaction] started
    with [q] empty, the one of the C-phase on coordinator 0 only. *)
Lemma step_invariant turns fuel status at_ s at' s' :
  step turns fuel status at_ s = Some (at', s') ->
  ((exists cycles,
      started (log s) = (2 * cycles + started_at at_)%nat /\
      completed (log s) = (3 * cycles + completed_at at_)%nat) /\
   (forall phase queued,
      In (RunTransaction phase queued) (log s) ->
      queued = 0%nat /\ (phase = C_PHASE -> coordinator_id = 0))) ->
  (exists cycles,
     started (log s') = (2 * cycles + started_at at')%nat /\
     completed (log s') = (3 * cycles + completed_at at')%nat) /\
  (forall phase queued,
     In (RunTransaction phase queued) (log s') ->
     queued = 0%nat /\ (phase = C_PHASE -> coordinator_id = 0)).
Proof.
  intros Hstep [(c & Hs & Hc) Hrun].
  apply step_events in Hstep.
  assert (Hkeep : at' = at_ /\ log s' = log s ->
    (exists cycles,
       started (log s') = (2 * cycles + started_at at')%nat /\
       completed (log s') = (3 * cycles + completed_at at')%nat) /\
    (forall phase queued,
       In (RunTransaction phase queued) (log s') ->
       queued = 0%nat /\ (phase = C_PHASE -> coordinator_id = 0))).
  { intros [-> ->]. split; [by exists c|done]. }
  destruct at_, status; try (by apply Hkeep);
    try destruct (Z.eqb_spec coordinator_id 0) as [Hz|Hz];
    destruct Hstep as [-> ->];
    (split;
     [ first
         [ exists (S c); rewrite started_app, completed_app, Hs, Hc; cbn; lia
         | exists c; rewrite started_app, completed_app, Hs, Hc; cbn; lia ]
     | intros phase queued [Hin|Hin]%in_app_iff; [by apply Hrun|];
       cbn in Hin; intuition (try discriminate);
       match goal with H : RunTransaction _ _ = RunTransaction _ _ |- _ =>
         injection H as <- <- end; done ]).
Qed.

(** C8, as amended.  Follow a worker from the start of [start] through any
    sequence of values of [worker_status].  Per cycle gone by it has added
    two to [n_started_workers], one on entering each phase, and three to
    [n_complete_workers]: one for the C-phase and two for the S-phase, the
    first when [run_transaction] returns and the second after it has seen
    [STOP] and processed the pending requests.  Every [run_transaction]
    began with [q] drained, and the one of the C-phase ran on coordinator 0
    only; a worker on another coordinator enters the C-phase with one
    addition to [n_started_workers] and then calls [process_request] at
    every load of [worker_status] until it reads [STOP]. *)
Theorem rstore_phase_cycle (turns fuel : nat) (loads : list ExecutorStatus)
    (s0 s : State Txn Env) (at_ : Location) :
  log s0 = [] ->
  start turns fuel loads WAIT_C_PHASE s0 = Some (at_, s) ->
  (exists cycles,
     started (log s) = (2 * cycles + started_at at_)%nat /\
     completed (log s) = (3 * cycles + completed_at at_)%nat) /\
  (forall phase queued,
     In (RunTransaction phase queued) (log s) ->
     queued = 0%nat /\ (phase = C_PHASE -> coordinator_id = 0)) /\
  (coordinator_id <> 0 ->
   forall status s1,
     step turns fuel C_PHASE WAIT_C_PHASE s1 =
       Some (SERVE_C_PHASE, record Started (commit_transactions s1)) /\
     step turns fuel status SERVE_C_PHASE s1 =
       Some (if status_eqb status STOP
             then (WAIT_S_PHASE,
                   record Completed (process_request_in_start s1))
             else (SERVE_C_PHASE, process_request_in_start s1))).
Proof.
  intros Hlog Hstart.
  assert (Hgen : forall loads at0 s1,
    ((exists cycles,
        started (log s1) = (2 * cycles + started_at at0)%nat /\
        completed (log s1) = (3 * cycles + completed_at at0)%nat) /\
     (forall phase queued,
        In (RunTransaction phase queued) (log s1) ->
        queued = 0%nat /\ (phase = C_PHASE -> coordinator_id = 0))) ->
    start turns fuel loads at0 s1 = Some (at_, s) ->
    (exists cycles,
       started (log s) = (2 * cycles + started_at at_)%nat /\
       completed (log s) = (3 * cycles + completed_at at_)%nat) /\
    (forall phase queued,
       In (RunTransaction phase queued) (log s) ->
       queued = 0%nat /\ (phase = C_PHASE -> coordinator_id = 0))).
  { clear. intros loads; induction loads as [|status loads IH];
      intros at0 s1 Hinv; simpl.
    - by intros [= <- <-].
    - destruct (step turns fuel status at0 s1) as [[at1 s2]|] eqn:E; [|done].
      apply IH. by eapply step_invariant. }
  destruct (Hgen loads WAIT_C_PHASE s0) as [H1 H2]; [|done|].
  { rewrite Hlog. split; [by exists 0%nat|]. intros ? ? []. }
  split; [done|]. split; [done|].
  intros Hz status s1. unfold RStoreExecutor.step.
  destruct (Z.eqb_spec coordinator_id 0); [done|].
  split; [done|]. by destruct status.
Qed.

End Worker.

End RStoreFacts.

(** ** The R-Store worker: closed instances *)

Module RStoreExamples.

Import Executor RStoreExecutor RStoreVocabulary RStoreFacts Examples.

(** C8, the claim as stated fails.  Over one cycle
    [C_PHASE, STOP, S_PHASE, STOP] the worker adds one to
    [n_complete_workers] for the C-phase and two for the S-phase: three in
    all for two additions to [n_started_workers]. *)
Lemma s_phase_completes_twice :
  rstore_start one_cycle WAIT_C_PHASE rstore_state =
    Some rstore_after_one_cycle /\
  fst rstore_after_one_cycle = WAIT_C_PHASE /\
  log (snd rstore_after_one_cycle) =
    [CommitTransactions 0; Started; RunTransaction C_PHASE 0; Completed;
     CommitTransactions 1; Started; RunTransaction S_PHASE 0; Completed;
     ProcessRequest; Completed] /\
  started (log (snd rstore_after_one_cycle)) = 2%nat /\
  completed (log (snd rstore_after_one_cycle)) = 3%nat.
Proof. vm_compute. repeat split; reflexivity. Qed.

(** C8, the theorem at that cycle. *)
Lemma rstore_phase_cycle_witness :
  log rstore_state = [] /\
  rstore_start one_cycle WAIT_C_PHASE rstore_state =
    Some rstore_after_one_cycle /\
  exists cycles,
    started (log (snd rstore_after_one_cycle)) =
      (2 * cycles + started_at (fst rstore_after_one_cycle))%nat /\
    completed (log (snd rstore_after_one_cycle)) =
      (3 * cycles + completed_at (fst rstore_after_one_cycle))%nat.
Proof.
  split; [reflexivity|]. split; [vm_compute; reflexivity|].
  exact (proj1
           (rstore_phase_cycle Z nat (fun _ => false) (fun _ => 0) (fun t => t)
              (fun t seed e => (READY_TO_COMMIT, t, next_seed seed, e))
              (fun _ _ seed e => (seed, next_seed seed, e))
              demo_uniform_dist
              (fun _ _ t e => Some (true, t, e))
              (fun _ _ => true)
              S (fun e => e)
              (mkContext 2 2 1) (fun _ => 1%nat) (fun _ => 1%nat) 0 0
              1 0 one_cycle rstore_state (snd rstore_after_one_cycle)
              (fst rstore_after_one_cycle) eq_refl
              ltac:(vm_compute; reflexivity))).
Defined.

End RStoreExamples.

(** ** The Aria transaction *)

Module AriaFacts.

Import AriaTransaction AriaVocabulary.

Lemma set_readSet_same t : set_readSet (readSet t) t = t.
Proof. by destruct t. Qed.

Lemma set_readSet_twice l1 l2 t :
  set_readSet l1 (set_readSet l2 t) = set_readSet l1 t.
Proof. reflexivity. Qed.

Lemma to_int_small n : 0 <= n < 2 ^ 31 -> to_int n = n.
Proof. intros H. unfold to_int. rewrite Z.mod_small; lia. Qed.


Section Handlers.

Variable Env : Type.
Variable aria_read_handler : AriaRWKey -> Z -> nat -> Env -> AriaRWKey * Env.

Local Abbreviation body := (process_requests_body Env aria_read_handler).

(** The loop, run down from the end of the pending reads [rev rkeys]: it
    serves them last first and stops below them, at the end of [pre]. *)
Lemma for_down_pending rkeys : forall done pre t e,
  readSet t = pre ++ rev rkeys ++ done ->
  Forall (fun k => read_request_bit k = true) rkeys ->
  (forall k, last pre = Some k -> read_request_bit k = false) ->
  for_down body (length (pre ++ rev rkeys)) (t, e) =
  (set_readSet
     (pre ++ rev (fst (serve_back aria_read_handler (id t) (length pre)
                         rkeys e)) ++ done) t,
   snd (serve_back aria_read_handler (id t) (length pre) rkeys e)).
Proof.
  induction rkeys as [|k rest IH]; intros done pre t e Hrs Hall Hpre.
  - cbn [rev serve_back fst snd app] in *. rewrite app_nil_r.
    rewrite <- Hrs, set_readSet_same.
    destruct pre as [|x pre _] using rev_ind; [reflexivity|].
    rewrite length_app. cbn [length]. rewrite Nat.add_1_r.
    cbn [for_down]. unfold process_requests_body at 1.
    rewrite Hrs, <- app_assoc. cbn [app].
    rewrite list_lookup_middle by done.
    rewrite (Hpre x) by apply last_snoc. reflexivity.
  - apply Forall_cons in Hall as [Hk Hall].
    cbn [rev] in *. rewrite <- app_assoc in Hrs. cbn [app] in Hrs.
    rewrite app_assoc, length_app. cbn [length]. rewrite Nat.add_1_r.
    cbn [for_down]. unfold process_requests_body at 1.
    rewrite Hrs, app_assoc, list_lookup_middle by done.
    rewrite Hk. cbn [negb].
    cbn [serve_back].
    replace (length pre + length rest)%nat with (length (pre ++ rev rest))
      by (rewrite length_app, length_rev; done).
    destruct (aria_read_handler k (id t) (length (pre ++ rev rest)) e)
      as [k' e1].
    rewrite (IH (clear_read_request_bit k' :: done) pre); [| |done|done].
    + cbn [id]. destruct (serve_back _ _ _ rest e1) as [rest' e2].
      cbn [fst snd rev]. rewrite set_readSet_twice, <- !app_assoc. done.
    + cbn [readSet set_readSet].
      rewrite (insert_app_r_alt (pre ++ rev rest)) by lia.
      rewrite Nat.sub_diag. cbn. rewrite <- app_assoc. done.
Qed.

(** C9.  Let the read set, of fewer than 2^31 keys (the loop index is an
    [int]), be [pre ++ suf], where every key of [suf] has its
    [read_request] bit set and the last key of [pre], if there is one, has
    not: [suf] is the maximal suffix of pending reads.  Then
    [process_requests] returns false, having handed the keys of [suf] to
    [aria_read_handler] one by one from the last to the first, each with the
    transaction id and its index, and cleared the bit of each; the keys of
    [pre] are as they were and so is the rest of the transaction. *)
Theorem process_requests_serves_pending_suffix (worker_id : Z)
    (t : AriaTransaction) (e : Env) (pre suf : list AriaRWKey) :
  Z.of_nat (length (readSet t)) < 2 ^ 31 ->
  readSet t = pre ++ suf ->
  Forall (fun k => read_request_bit k = true) suf ->
  (forall k, last pre = Some k -> read_request_bit k = false) ->
  process_requests Env aria_read_handler worker_id (t, e) =
  (false,
   (set_readSet
      (pre ++ rev (fst (serve_back aria_read_handler (id t) (length pre)
                          (rev suf) e))) t,
    snd (serve_back aria_read_handler (id t) (length pre) (rev suf) e))).
Proof.
  intros Hlen Hrs Hall Hpre. unfold process_requests. cbn [fst].
  rewrite to_int_small by lia. rewrite Nat2Z.id. f_equal.
  rewrite Hrs.
  rewrite <- (rev_involutive suf) at 1.
  rewrite (for_down_pending (rev suf) [] pre t e).
  - by rewrite app_nil_r.
  - by rewrite rev_involutive, app_nil_r.
  - by apply Forall_rev.
  - done.
Qed.

(** Serving clears the bit of every key served and serves each once. *)
Lemma serve_back_cleared id base rkeys : forall e,
  length (fst (serve_back aria_read_handler id base rkeys e)) = length rkeys /\
  Forall (fun k => read_request_bit k = false)
    (fst (serve_back aria_read_handler id base rkeys e)).
Proof.
  induction rkeys as [|k rest IH]; intros e; cbn [serve_back].
  - split; [done|constructor].
  - destruct (aria_read_handler k id (base + length rest) e) as [k' e1].
    destruct (IH e1) as [Hl Hf].
    destruct (serve_back _ _ _ rest e1) as [rest' e2].
    cbn [fst length] in *. split; [by rewrite Hl|].
    constructor; [done|done].
Qed.

End Handlers.

End AriaFacts.

(** ** The Aria transaction: closed instances *)

Module AriaInstances.

Import AriaTransaction AriaVocabulary AriaFacts AriaExamples.

(** C9, the theorem at four reads of which the second is served already:
    the fourth and the third are handed to the handler, in this order, and
    the first two are left alone, the first with its bit still set. *)
Lemma process_requests_witness :
  process_requests (list nat) noting_handler 0 (four_reads, []) =
  (false,
   (set_readSet
      [set_read_request_bit (served 1); served 2;
       mkRWKey 0 0 3 0 2 false false false;
       mkRWKey 0 0 4 0 3 false false false]
      fresh,
    [3%nat; 2%nat])).
Proof.
  exact (process_requests_serves_pending_suffix (list nat) noting_handler 0
           four_reads []
           [set_read_request_bit (served 1); served 2]
           [set_read_request_bit (served 3); set_read_request_bit (served 4)]
           ltac:(vm_compute; reflexivity) eq_refl
           ltac:(repeat constructor)
           ltac:(intros k [= <-]; reflexivity)).
Defined.

End AriaInstances.

(** * Further properties *)

(** ** Flushing the outbound messages *)

Module FlushFacts.

Import Scar Executor CoverageVocabulary.

Lemma flush_from cid : forall l2 l1 e,
  messages e = l1 ++ l2 ->
  for_loop (flush_messages_body cid) (length l2) (length l1) e =
  mkEnv (meta e) (vals e) (l1 ++ kept cid (length l1) l2)
    (out_queue e ++ released cid (length l1) l2) (pumped e).
Proof.
  induction l2 as [|m l2 IH]; intros l1 e He;
    cbn [for_loop kept released length].
  - destruct e as [me va ms oq pu]; cbn in *. by rewrite He, !app_nil_r.
  - unfold flush_messages_body at 1.
    rewrite He, list_lookup_middle by done.
    assert (Hlen : length (l1 ++ [m]) = S (length l1))
      by (rewrite length_app; cbn; lia).
    destruct (Nat.eqb_spec (length l1) cid) as [Hc|Hc]; cbn [orb].
    + rewrite <- Hlen, (IH (l1 ++ [m]) e) by (by rewrite <- app_assoc).
      rewrite Hlen, <- app_assoc. done.
    + destruct (Nat.eqb_spec (length m) 0) as [Hm|Hm].
      * destruct m; [|done].
        rewrite <- Hlen, (IH (l1 ++ [[]]) e) by (by rewrite <- app_assoc).
        rewrite Hlen, <- app_assoc. done.
      * assert (Hlen' : length (l1 ++ [[]]) = S (length l1))
          by (rewrite length_app; cbn; lia).
        rewrite <- Hlen'.
        rewrite (IH (l1 ++ [[]])); cbn [messages meta vals out_queue pumped].
        -- rewrite Hlen', <- !app_assoc. done.
        -- rewrite (insert_app_r_alt l1) by lia.
           rewrite Nat.sub_diag. cbn. by rewrite <- app_assoc.
Qed.

(** A flush, in closed form. *)
Lemma flush_messages_closed cid e :
  flush_messages cid e =
  mkEnv (meta e) (vals e) (kept cid 0 (messages e))
    (out_queue e ++ released cid 0 (messages e)) (pumped e).
Proof. exact (flush_from cid (messages e) [] e eq_refl). Qed.

Lemma kept_lookup cid l : forall base j,
  kept cid base l !! j =
  (fun m => if Nat.eqb (base + j) cid then m else []) <$> l !! j.
Proof.
  induction l as [|m l IH]; intros base j; [done|].
  destruct j as [|j]; cbn.
  - by rewrite Nat.add_0_r.
  - rewrite IH. by replace (S base + j)%nat with (base + S j)%nat by lia.
Qed.

Lemma kept_length cid l : forall base, length (kept cid base l) = length l.
Proof. induction l as [|m l IH]; intros base; cbn; [done|by rewrite IH]. Qed.

Lemma kept_kept cid l : forall base,
  kept cid base (kept cid base l) = kept cid base l.
Proof.
  induction l as [|m l IH]; intros base; cbn; [done|].
  rewrite IH. by destruct (Nat.eqb base cid).
Qed.

Lemma released_kept cid l : forall base,
  released cid base (kept cid base l) = [].
Proof.
  induction l as [|m l IH]; intros base; cbn; [done|].
  rewrite IH. by destruct (Nat.eqb base cid).
Qed.

Lemma released_below cid i l : forall base,
  (i < base)%nat ->
  List.filter (fun x => Nat.eqb (fst x) i) (released cid base l) = [].
Proof.
  induction l as [|m l IH]; intros base Hi; cbn; [done|].
  rewrite List.filter_app, IH by lia. rewrite app_nil_r.
  destruct (_ || _); cbn; [done|].
  destruct (Nat.eqb_spec base i); [lia|done].
Qed.

(** Queue and slot together hold for coordinator [i] what the slot held. *)
Lemma released_and_kept cid i l : forall base,
  (base <= i)%nat ->
  concat (map snd (List.filter (fun x => Nat.eqb (fst x) i)
                     (released cid base l)))
  ++ default [] (kept cid base l !! (i - base)%nat) =
  default [] (l !! (i - base)%nat).
Proof.
  induction l as [|m l IH]; intros base Hi; [done|].
  cbn [released kept]. rewrite List.filter_app, map_app, concat_app.
  destruct (Nat.eq_dec i base) as [->|Hne].
  - rewrite Nat.sub_diag, released_below by lia. cbn [map concat lookup].
    rewrite app_nil_r. cbn.
    destruct (Nat.eqb_spec base cid); cbn; [done|].
    destruct m; cbn; [done|].
    rewrite Nat.eqb_refl. cbn. by rewrite !app_nil_r.
  - replace (i - base)%nat with (S (i - S base)) by lia.
    rewrite !lookup_cons. cbv beta iota.
    rewrite <- (IH (S base)) by lia.
    destruct (_ || _); cbn; [done|].
    destruct (Nat.eqb_spec base i); [lia|done].
Qed.

(** X1.  [flush_messages] loses no piece and leaves no piece behind: for
    every coordinator the pieces on their way to it, queued or in progress,
    are the same, in the same order, before and after; after the flush the
    message in progress of every coordinator but this one is empty, and
    the one of this coordinator is as it was; the records are untouched;
    and a second flush in a row changes nothing. *)
Theorem flush_messages_conserves (cid : nat) (e : Env) :
  (forall i, pieces_for i (flush_messages cid e) = pieces_for i e) /\
  (forall i m,
     messages (flush_messages cid e) !! i = Some m ->
     if Nat.eqb i cid then messages e !! i = Some m else m = []) /\
  length (messages (flush_messages cid e)) = length (messages e) /\
  meta (flush_messages cid e) = meta e /\
  vals (flush_messages cid e) = vals e /\
  flush_messages cid (flush_messages cid e) = flush_messages cid e.
Proof.
  rewrite !flush_messages_closed. cbn [messages out_queue meta vals pumped].
  split; [|split; [|split; [|split; [|split]]]]; try done.
  - intros i. unfold pieces_for. cbn [messages out_queue].
    rewrite List.filter_app, map_app, concat_app, <- app_assoc. f_equal.
    pose proof (released_and_kept cid i (messages e) 0 ltac:(lia)) as H.
    by rewrite Nat.sub_0_r in H.
  - intros i m. rewrite kept_lookup. cbn.
    destruct (messages e !! i) as [m0|]; cbn; [|done].
    intros [= <-]. by destruct (Nat.eqb i cid).
  - apply kept_length.
  - rewrite kept_kept, released_kept, app_nil_r. done.
Qed.

End FlushFacts.

(** ** Scar: the steps of [commit] at closed instances *)

Module ScarCommitInstances.

Import ScarHelper Scar ScarVocabulary ScarFacts Examples.




End ScarCommitInstances.

(** ** Scar: release, commit outcomes, locks *)

Module ScarCoverage.

Import ScarHelper Scar ScarVocabulary CoverageVocabulary.
Import ScarHelperFacts ScarFacts.

(** The word stored at release is unlocked and carries the commit
    timestamp as both [wts] and [rts]. *)
Lemma unlock_commit_unlocked c : is_locked (unlock_commit c) = false.
Proof.
  unfold is_locked, unlock_commit, LOCK_BIT, WTS_OFFSET, WTS_BITS.
  rewrite Z.shiftl_spec, Z.land_spec by lia.
  rewrite Z.testbit_ones_nonneg by lia.
  replace (63 - 32 <? 31) with false by (symmetry; apply Z.ltb_ge; lia).
  apply andb_false_r.
Qed.

Lemma unlock_commit_stamps c :
  0 <= c < 2 ^ 31 ->
  get_wts (unlock_commit c) = c /\ get_rts (unlock_commit c) = c.
Proof.
  intros Hc.
  assert (Hw : get_wts (unlock_commit c) = c).
  { unfold get_wts, unlock_commit, WTS_OFFSET, WTS_BITS.
    rewrite Z.shiftr_shiftl_l, Z.sub_diag, Z.shiftl_0_r by lia.
    rewrite <- Z.land_assoc, Z.land_diag, Z.land_ones by lia.
    apply Z.mod_small; lia. }
  split; [done|]. unfold get_rts. rewrite Hw.
  assert (Hd : get_delta (unlock_commit c) = 0).
  { unfold get_delta, unlock_commit, WTS_OFFSET, WTS_BITS, DELTA_OFFSET,
      DELTA_BITS.
    rewrite Z.shiftr_shiftl_l by lia. rewrite Z.land_ones by lia.
    rewrite Z.shiftl_mul_pow2 by lia. change (32 - 5) with 27.
    apply Z.mod_mul. lia. }
  lia.
Qed.

Section Protocol.

Variable partitioner : Partitioner.
Variable msg_size : MessagePiece -> Z.
Variable get_read_key : ScarTransaction -> Z -> option ScarRWKey.
Variable message_flusher : World -> World.
Variable remote_request_handler : World -> World.

Local Abbreviation release_key := (release_key partitioner msg_size).
Local Abbreviation written_here := (written_here partitioner).

Lemma release_key_txn cw w k :
  txn (release_key cw w k) =
  set_network_size (network_size (txn (release_key cw w k))) (txn w).
Proof.
  unfold CoverageVocabulary.release_key.
  destruct (has_master_partition _ _); by destruct w as [[]].
Qed.

Lemma release_fold_txn cw l : forall w,
  txn (fold_left (release_key cw) l w) =
  set_network_size (network_size (txn (fold_left (release_key cw) l w)))
    (txn w).
Proof.
  induction l as [|k l IH]; intros w; cbn [fold_left].
  - by destruct w as [[]].
  - rewrite IH, release_key_txn. reflexivity.
Qed.

(** [release_lock]'s loop folds the release of one key over the write set. *)
Lemma release_lock_loop_fold w :
  release_lock_loop partitioner msg_size w =
  fold_left (release_key (commit_wts (txn w))) (writeSet (txn w)) w.
Proof.
  unfold release_lock_loop.
  apply (for_loop_fold_inv (fun s => writeSet (txn s) = writeSet (txn w))
           (release_key (commit_wts (txn w))) (writeSet (txn w)))
    with (l1 := []); [| |done|done].
  - intros i s Hs. unfold release_lock_body, CoverageVocabulary.release_key.
    rewrite Hs. destruct (writeSet (txn w) !! i) as [k|]; [|done].
    destruct (has_master_partition _ _); done.
  - intros s k Hs. rewrite release_key_txn. exact Hs.
Qed.

Lemma release_fold_records cw l : forall w r,
  meta (env (fold_left (release_key cw) l w)) r =
  if existsb (written_here r) l then unlock_commit cw else meta (env w) r.
Proof.
  induction l as [|k l IH]; intros w r; cbn [fold_left existsb]; [done|].
  rewrite IH. unfold CoverageVocabulary.release_key,
    CoverageVocabulary.written_here at 2.
  destruct (has_master_partition partitioner (partition_id k));
    cbn [andb orb]; [|done].
  unfold upd_env, set_meta, set_val; cbn [env meta].
  destruct (row_eqb_spec (row_of k) r) as [<-|Hne]; cbn [orb].
  - rewrite store_same. by destruct (existsb _ l).
  - by rewrite store_other.
Qed.

Lemma filter_nil_existsb {A} (f : A -> bool) l :
  List.filter f l = [] -> existsb f l = false.
Proof.
  induction l as [|x l IH]; cbn; [done|].
  destruct (f x); [done|]. exact IH.
Qed.

Lemma release_fold_values_kept cw l : forall w r,
  existsb (written_here r) l = false ->
  vals (env (fold_left (release_key cw) l w)) r = vals (env w) r.
Proof.
  induction l as [|k l IH]; intros w r; cbn [fold_left existsb]; [done|].
  intros [Hk Hl]%orb_false_elim. rewrite IH by done.
  unfold CoverageVocabulary.release_key.
  unfold CoverageVocabulary.written_here in Hk.
  destruct (has_master_partition partitioner (partition_id k));
    cbn [andb] in Hk; [|done].
  unfold upd_env, set_meta, set_val; cbn [env vals].
  destruct (row_eqb_spec (row_of k) r); [done|]. by rewrite store_other.
Qed.

Lemma release_fold_values cw l : forall w r k,
  last (List.filter (written_here r) l) = Some k ->
  vals (env (fold_left (release_key cw) l w)) r = value k.
Proof.
  induction l as [|k0 l IH]; intros w r k; cbn [fold_left List.filter];
    [done|].
  destruct (written_here r k0) eqn:Hk0.
  - destruct (List.filter (written_here r) l) as [|x xs] eqn:Hf.
    + intros [= <-]. rewrite release_fold_values_kept
        by (by apply filter_nil_existsb).
      unfold CoverageVocabulary.release_key.
      unfold CoverageVocabulary.written_here in Hk0.
      apply andb_prop in Hk0 as [-> Hrow].
      apply (reflect_iff _ _ (row_eqb_spec _ _)) in Hrow.
      unfold upd_env, set_meta, set_val; cbn [env vals].
      rewrite <- Hrow. apply store_same.
    + intros Hlast. apply IH. rewrite Hf. exact Hlast.
  - apply IH.
Qed.

(** X2.  The loop of [release_lock] leaves every record on which a write
    key of a partition mastered here stands unlocked, holding the word of
    the commit timestamp (which, in range, is its [wts] and its [rts]) and
    the value of the last such write key; every other record and value is
    as it was; and the transaction is untouched but for [network_size]. *)
Theorem release_lock_stamps_records (w : World) :
  let cw := commit_wts (txn w) in
  let w' := release_lock_loop partitioner msg_size w in
  (forall r,
     meta (env w') r =
     if existsb (written_here r) (writeSet (txn w))
     then unlock_commit cw else meta (env w) r) /\
  is_locked (unlock_commit cw) = false /\
  (0 <= cw < 2 ^ 31 ->
   get_wts (unlock_commit cw) = cw /\ get_rts (unlock_commit cw) = cw) /\
  (forall r k,
     last (List.filter (written_here r) (writeSet (txn w))) = Some k ->
     vals (env w') r = value k) /\
  (forall r,
     existsb (written_here r) (writeSet (txn w)) = false ->
     vals (env w') r = vals (env w) r) /\
  txn w' = set_network_size (network_size (txn w')) (txn w).
Proof.
  intros cw w'. subst cw w'. rewrite release_lock_loop_fold.
  split; [intros r; apply release_fold_records|].
  split; [apply unlock_commit_unlocked|].
  split; [apply unlock_commit_stamps|].
  split; [intros r k; apply release_fold_values|].
  split; [intros r; apply release_fold_values_kept|].
  apply release_fold_txn.
Qed.

(** *** What [commit] leaves behind *)

Lemma commit_true_shape fuel w w' :
  commit partitioner msg_size get_read_key message_flusher
    remote_request_handler fuel w = Some (true, w') ->
  exists w4, w' = message_flusher (release_lock_loop partitioner msg_size w4).
Proof.
  unfold commit.
  destruct (lock_write_set _ _ _ _ _ _ _) as [[[] w1]|]; [| |done].
  { destruct (abort _ _ _ _ _ _); done. }
  destruct (validate_read_set _ _ _ _ _ _) as [[[] w3]|]; [| |done].
  - destruct (write_and_replicate _ _ _ _ _ _) as [w4|]; [|done].
    unfold release_lock, sync_messages. intros [= <-]. by exists w4.
  - destruct (abort _ _ _ _ _ _); done.
Qed.

Lemma commit_false_shape fuel w w' :
  commit partitioner msg_size get_read_key message_flusher
    remote_request_handler fuel w = Some (false, w') ->
  exists w2, w' = message_flusher (abort_loop partitioner msg_size w2).
Proof.
  unfold commit.
  destruct (lock_write_set _ _ _ _ _ _ _) as [[[] w1]|]; [| |done].
  { unfold abort, sync_messages. intros [= <-]. by exists w1. }
  destruct (validate_read_set _ _ _ _ _ _) as [[[] w3]|]; [| |done].
  - destruct (write_and_replicate _ _ _ _ _ _) as [w4|]; [|done].
    destruct (release_lock _ _ _ _ _ _); done.
  - unfold abort, sync_messages. intros [= <-]. by exists w3.
Qed.

(** *** Values are written only after validation *)

Lemma lock_write_set_loop_vals w w' :
  lock_write_set_loop partitioner msg_size get_read_key w = Some w' ->
  vals (env w') = vals (env w).
Proof.
  unfold lock_write_set_loop.
  apply (for_loop_opt_invariant (fun s => vals (env s) = vals (env w)));
    [| |done]; intros i s s' Hs; unfold lock_write_set_body;
    (destruct (writeSet (txn s) !! i) as [k|]; [|by intros [= <-]]);
    (destruct (has_master_partition _ _); [|by intros [= <-]]);
    unfold lock; (destruct (is_locked _); cbn [negb];
                  [by intros [= <-]|]);
    (destruct (get_read_key _ _) as [rk|]; [|done]);
    destruct (negb _); by intros [= <-].
Qed.

Lemma validate_read_set_loop_vals w :
  vals (env (validate_read_set_loop partitioner msg_size w)) = vals (env w).
Proof.
  unfold validate_read_set_loop.
  apply (for_loop_invariant (fun s => vals (env s) = vals (env w)));
    [| |done]; intros i s s' Hs; unfold validate_read_set_body;
    (destruct (readSet (txn s) !! i) as [k|]; [|by intros [= <-]]);
    (destruct (local_index_read_bit k); [by intros [= <-]|]);
    (destruct (isKeyInWriteSet _ _); [by intros [= <-]|]);
    (destruct (has_master_partition _ _); [|by intros [= <-]]);
    destruct (validate_read_key _ _ _ _) as [[[] latest] written];
    try destruct (negb _); by intros [= <-].
Qed.

Lemma wait_responses_vals fuel : forall w w',
  (forall w, vals (env (remote_request_handler w)) = vals (env w)) ->
  wait_responses remote_request_handler fuel w = Some w' ->
  vals (env w') = vals (env w).
Proof.
  induction fuel as [|fuel IH]; intros w w' Hh; cbn [wait_responses];
    destruct (0 <? pendingResponses (txn w)); try done;
    try (by intros [= <-]).
  intros H. rewrite (IH _ _ Hh H). unfold pump. cbn. apply Hh.
Qed.

(** *** A set lock bit stands for a lock held *)

(** X6.  If no write key has its [write_lock_bit] set when
    [lock_write_set] starts, then after its loop every write key that has
    the bit stands on a partition mastered here and on a record that is
    locked: a bit is never set without the lock, whether the loop ran to
    its end or left early. *)
Theorem lock_write_set_loop_holds (w w' : World) :
  (forall k, In k (writeSet (txn w)) -> write_lock_bit k = false) ->
  lock_write_set_loop partitioner msg_size get_read_key w = Some w' ->
  forall j k,
    writeSet (txn w') !! j = Some k -> write_lock_bit k = true ->
    has_master_partition partitioner (partition_id k) = true /\
    is_locked (meta (env w') (row_of k)) = true.
Proof.
  intros Hclear. unfold lock_write_set_loop.
  apply (for_loop_opt_invariant
           (fun s => forall j k,
              writeSet (txn s) !! j = Some k -> write_lock_bit k = true ->
              has_master_partition partitioner (partition_id k) = true /\
              is_locked (meta (env s) (row_of k)) = true)).
  3:{ intros j k Hj Hb. apply list_elem_of_lookup_2, list_elem_of_In in Hj.
      rewrite (Hclear k Hj) in Hb. done. }
  all: intros i s s' Hs; unfold lock_write_set_body;
    (destruct (writeSet (txn s) !! i) as [wk|] eqn:Hi; [|by intros [= <-]]);
    (destruct (has_master_partition partitioner (partition_id wk)) eqn:Hm;
     [|by intros [= <-]]);
    unfold lock; (destruct (is_locked _) eqn:Hl; cbn [negb];
                  [by intros [= <-]|]);
    (destruct (get_read_key _ _) as [rk|]; [|done]);
    (assert (Hnew : forall j k,
       <[i := set_tid (meta (env s) (table_id wk, partition_id wk, key wk))
                (set_write_lock_bit wk)]> (writeSet (txn s)) !! j = Some k ->
       write_lock_bit k = true ->
       has_master_partition partitioner (partition_id k) = true /\
       is_locked
         (store (meta (env s)) (table_id wk, partition_id wk, key wk)
            (Z.setbit (meta (env s) (table_id wk, partition_id wk, key wk))
               LOCK_BIT) (row_of k)) = true);
     [ intros j k Hj Hb;
       assert (Hk : has_master_partition partitioner (partition_id k) = true
                    /\ (row_of k = row_of wk \/
                        is_locked (meta (env s) (row_of k)) = true));
       [ destruct (Nat.eq_dec i j) as [->|Hij];
         [ rewrite list_lookup_insert_eq in Hj
             by (by eapply lookup_lt_Some);
           injection Hj as <-; split; [exact Hm|by left]
         | rewrite list_lookup_insert_ne in Hj by done;
           destruct (Hs j k Hj Hb); split; [done|by right] ]
       | destruct Hk as [Hk1 Hk2]; split; [exact Hk1|];
         destruct (row_eqb_spec (table_id wk, partition_id wk, key wk)
                     (row_of k)) as [He|He];
         [ rewrite <- He, store_same; apply is_locked_setbit
         | rewrite store_other by done;
           destruct Hk2 as [Hk2|Hk2]; [by symmetry in Hk2|exact Hk2] ] ]
     | ]);
    destruct (negb _); intros [= <-]; exact Hnew.
Qed.

(** *** The commit timestamps *)

Lemma compute_commit_ts_values t :
  commit_rts (compute_commit_ts t) =
    max_of (map (fun k => get_wts (tid k)) (readSet t)) /\
  commit_wts (compute_commit_ts t) =
    Z.max (max_of (map (fun k => get_wts (tid k)) (readSet t)))
      (max_of (map (fun k => get_rts (tid k) + 1) (writeSet t))).
Proof.
  unfold compute_commit_ts. cbn [commit_rts commit_wts set_commit_rts
    set_commit_wts readSet writeSet].
  rewrite (for_loop_fold_all (fun ts k => Z.max ts (get_wts (tid k)))
             (readSet t) (max_wts_body t) 0 (fun i s => eq_refl)).
  rewrite (fold_left_through_map Z.max (fun k => get_wts (tid k))).
  rewrite fold_left_max by lia.
  pose proof (max_of_nonneg (map (fun k => get_wts (tid k)) (readSet t))).
  rewrite Z.max_r by lia. split; [done|].
  rewrite (for_loop_fold_all
             (fun ts k => Z.max ts (wrap64 (get_rts (tid k) + 1)))
             (writeSet t) _ _ (fun i s => eq_refl)).
  rewrite (fold_left_through_map Z.max
             (fun k => wrap64 (get_rts (tid k) + 1))).
  rewrite fold_left_max by lia. do 2 f_equal.
  apply map_ext; intros k. apply wrap64_small.
  pose proof (get_rts_range (tid k)). lia.
Qed.

Lemma max_of_bound l b :
  0 <= b -> Forall (fun x => x <= b) l -> max_of l <= b.
Proof.
  intros Hb Hall. unfold max_of.
  induction Hall as [|x l Hx _ IH]; cbn [fold_right]; lia.
Qed.

(** X7.  The timestamps [compute_commit_ts] sets are ordered as the
    protocol needs them: [commit_rts] is at least the [wts] captured for
    every read key, [commit_wts] is at least [commit_rts] and lies strictly
    above the [rts] captured for every write key; and both stay within 33
    bits, so that nothing wraps. *)
Theorem compute_commit_ts_ordered (t : ScarTransaction) :
  let t' := compute_commit_ts t in
  (forall k, In k (readSet t) -> get_wts (tid k) <= commit_rts t') /\
  commit_rts t' <= commit_wts t' /\
  (forall k, In k (writeSet t) -> get_rts (tid k) < commit_wts t') /\
  0 <= commit_rts t' < 2 ^ 31 /\ 0 <= commit_wts t' <= 2 ^ 32.
Proof.
  intros t'. subst t'. destruct (compute_commit_ts_values t) as [-> ->].
  set (rs := map (fun k => get_wts (tid k)) (readSet t)).
  set (ws := map (fun k => get_rts (tid k) + 1) (writeSet t)).
  assert (Hr : forall k, In k (readSet t) -> get_wts (tid k) <= max_of rs).
  { intros k Hk. apply max_of_upper, in_map_iff. by exists k. }
  assert (Hw : forall k, In k (writeSet t) ->
                 get_rts (tid k) + 1 <= max_of ws).
  { intros k Hk. apply max_of_upper, in_map_iff. by exists k. }
  assert (Hrb : 0 <= max_of rs < 2 ^ 31).
  { split; [apply max_of_nonneg|].
    assert (max_of rs <= 2 ^ 31 - 1); [|lia].
    apply max_of_bound; [lia|]. apply List.Forall_forall.
    intros x [k [<- _]]%in_map_iff.
    pose proof (get_wts_range (tid k)). lia. }
  assert (Hwb : 0 <= max_of ws <= 2 ^ 32).
  { split; [apply max_of_nonneg|].
    apply max_of_bound; [lia|]. apply List.Forall_forall.
    intros x [k [<- _]]%in_map_iff.
    pose proof (get_rts_range (tid k)). lia. }
  split; [exact Hr|]. split; [lia|].
  split; [intros k Hk; specialize (Hw k Hk); lia|]. lia.
Qed.

(** *** Reads that need no validation *)

Lemma for_loop_stays {St : Type} (body : nat -> St -> LoopStep St) (s : St) :
  (forall i, body i s = Continue s \/ body i s = Break s) ->
  forall n i, for_loop body n i s = s.
Proof.
  intros H n; induction n as [|n IH]; intros i; cbn [for_loop]; [done|].
  destruct (H i) as [-> | ->]; [apply IH|done].
Qed.

(** X8.  When every read key is a local-index read or has its key in the
    write set, the loop of [validate_read_set] does nothing at all: no
    record is read or extended, no message posted, no response awaited. *)
Theorem validate_read_set_nothing_to_do (w : World) :
  Forall
    (fun k =>
       local_index_read_bit k || isKeyInWriteSet (writeSet (txn w)) (key k)
       = true)
    (readSet (txn w)) ->
  validate_read_set_loop partitioner msg_size w = w.
Proof.
  intros Hall. unfold validate_read_set_loop. apply for_loop_stays.
  intros i. unfold validate_read_set_body.
  destruct (readSet (txn w) !! i) as [k|] eqn:Hi; [|by right].
  left. apply list_elem_of_lookup_2 in Hi.
  rewrite Forall_forall in Hall. specialize (Hall k Hi).
  destruct (local_index_read_bit k); [done|]. cbn in Hall. by rewrite Hall.
Qed.

End Protocol.

Section OnExecutor.

Variable partitioner : Partitioner.
Variable msg_size : MessagePiece -> Z.
Variable get_read_key : ScarTransaction -> Z -> option ScarRWKey.
Variable coordinator_id : nat.
Variable handle : World -> World.

Local Abbreviation commit :=
  (ScarExecutor.commit partitioner msg_size get_read_key coordinator_id
     handle).

Lemma message_flusher_vals w :
  vals (env (ScarExecutor.message_flusher coordinator_id w)) = vals (env w).
Proof.
  unfold ScarExecutor.message_flusher. cbn [env upd_env].
  by rewrite FlushFacts.flush_messages_closed.
Qed.

Lemma message_flusher_meta w :
  meta (env (ScarExecutor.message_flusher coordinator_id w)) = meta (env w).
Proof.
  unfold ScarExecutor.message_flusher. cbn [env upd_env].
  by rewrite FlushFacts.flush_messages_closed.
Qed.

(** X3.  A commit of [Executor<Workload, Scar>] that succeeds leaves
    every record on which a write key of a partition mastered here stands
    unlocked and holding the word of the commit timestamp. *)
Theorem commit_success_unlocks (fuel : nat) (t t' : ScarTransaction)
    (e e' : Env) :
  commit fuel t e = Some (true, t', e') ->
  forall k,
    In k (writeSet t') ->
    has_master_partition partitioner (partition_id k) = true ->
    meta e' (row_of k) = unlock_commit (commit_wts t') /\
    is_locked (meta e' (row_of k)) = false.
Proof.
  unfold ScarExecutor.commit.
  destruct (Scar.commit _ _ _ _ _ _ _) as [[ok w']|] eqn:Hc; [|done].
  intros [= -> <- <-] k Hk Hm.
  apply commit_true_shape in Hc as [w4 ->].
  rewrite message_flusher_meta.
  change (txn (ScarExecutor.message_flusher coordinator_id ?x))
    with (txn x) in *.
  rewrite release_lock_loop_fold in *.
  rewrite release_fold_txn in Hk. cbn in Hk.
  assert (Hcw : commit_wts
                  (txn (fold_left
                          (release_key partitioner msg_size
                             (commit_wts (txn w4)))
                          (writeSet (txn w4)) w4)) = commit_wts (txn w4))
    by (rewrite release_fold_txn; reflexivity).
  rewrite Hcw, release_fold_records.
  replace (existsb _ _) with true.
  - split; [done|apply unlock_commit_unlocked].
  - symmetry. apply existsb_exists. exists k. split; [done|].
    unfold written_here. rewrite Hm, row_eqb_refl. done.
Qed.

(** X4.  A commit of [Executor<Workload, Scar>] that fails leaves no
    record locked on which a write key with the [write_lock_bit], of a
    partition mastered here, stands: the locks it took are given back. *)
Theorem commit_failure_unlocks (fuel : nat) (t t' : ScarTransaction)
    (e e' : Env) :
  commit fuel t e = Some (false, t', e') ->
  forall k,
    In k (writeSet t') ->
    write_lock_bit k = true ->
    has_master_partition partitioner (partition_id k) = true ->
    is_locked (meta e' (row_of k)) = false.
Proof.
  unfold ScarExecutor.commit.
  destruct (Scar.commit _ _ _ _ _ _ _) as [[ok w']|] eqn:Hc; [|done].
  intros [= -> <- <-] k Hk Hb Hm.
  apply commit_false_shape in Hc as [w2 ->].
  rewrite message_flusher_meta.
  change (txn (ScarExecutor.message_flusher coordinator_id ?x))
    with (txn x) in *.
  rewrite abort_loop_txn in Hk. cbn in Hk.
  rewrite abort_loop_fold, release_fold_meta.
  replace (existsb _ _) with true; [apply is_locked_unlock|].
  symmetry. apply existsb_exists. exists k. split; [done|].
  unfold locked_here. rewrite Hb, Hm, row_eqb_refl. done.
Qed.

(** X5.  A commit of [Executor<Workload, Scar>] that fails has written
    no value: as long as the message handlers write none, the values of
    all records are those from before the commit. *)
Theorem failed_commit_writes_nothing (fuel : nat) (t t' : ScarTransaction)
    (e e' : Env) :
  (forall w, vals (env (handle w)) = vals (env w)) ->
  commit fuel t e = Some (false, t', e') ->
  vals e' = vals e.
Proof.
  intros Hh. unfold ScarExecutor.commit.
  destruct (Scar.commit _ _ _ _ _ _ _) as [[ok w']|] eqn:Hc; [|done].
  intros [= -> <- <-]. revert Hc. unfold Scar.commit, lock_write_set.
  destruct (lock_write_set_loop _ _ _ _) as [w1|] eqn:H1; [|done].
  apply lock_write_set_loop_vals in H1. cbn in H1.
  unfold sync_messages at 1.
  destruct (wait_responses _ _ _) as [w2|] eqn:H2; [|done].
  apply wait_responses_vals in H2; [|exact Hh].
  rewrite message_flusher_vals in H2.
  assert (Habort : forall w0 w3,
    vals (env w0) = vals e ->
    abort partitioner msg_size
      (ScarExecutor.message_flusher coordinator_id)
      (ScarExecutor.remote_request_handler handle) fuel w0 = Some w3 ->
    vals (env w3) = vals e).
  { intros w0 w3 H0. unfold abort, sync_messages. intros [= <-].
    rewrite message_flusher_vals, abort_loop_fold.
    destruct (release_fold_frame partitioner msg_size
                (writeSet (txn w0)) w0) as (-> & _). exact H0. }
  destruct (abort_lock (txn w2)).
  - destruct (abort _ _ _ _ _ w2) as [w3|] eqn:H3; [|done].
    intros [= <-]. eapply Habort; [|exact H3]. congruence.
  - unfold validate_read_set, sync_messages.
    destruct (wait_responses _ _ _) as [w3|] eqn:H3; [|done].
    apply wait_responses_vals in H3; [|exact Hh].
    rewrite message_flusher_vals, validate_read_set_loop_vals in H3.
    cbn in H3.
    destruct (negb _).
    + destruct (write_and_replicate _ _ _ _ _ _) as [w4|]; [|done].
      destruct (release_lock _ _ _ _ _ _); done.
    + destruct (abort _ _ _ _ _ w3) as [w4|] eqn:H4; [|done].
      intros [= <-]. eapply Habort; [|exact H4]. congruence.
Qed.

End OnExecutor.

End ScarCoverage.

(** ** Scar: closed instances of the further properties *)

Module ScarCoverageExamples.

Import ScarHelper Scar ScarVocabulary CoverageVocabulary Examples.
Import ScarCoverage.

(** X3, at the uncontended writer: the commit succeeds and record 1 is
    left unlocked with [wts] 6. *)
Lemma commit_success_unlocks_witness :
  commit_alone uncontended =
    Some (true, txn (after_commit uncontended),
          env (after_commit uncontended)) /\
  meta (env (after_commit uncontended)) (0, 0, 1) = unlock_commit 6 /\
  is_locked (meta (env (after_commit uncontended)) (0, 0, 1)) = false.
Proof.
  assert (H : commit_alone uncontended =
              Some (true, txn (after_commit uncontended),
                    env (after_commit uncontended)))
    by (vm_compute; reflexivity).
  split; [exact H|].
  exact (commit_success_unlocks single_node unit_size find_read_key 0 silent
           0 _ _ _ _ H
           (mkRWKey 0 0 1 42 (make_tid false 5 0) true false false false)
           ltac:(vm_compute; left; reflexivity) eq_refl).
Defined.

(** X4, at the transaction whose second record is locked by another: the
    commit fails, and record 1, which it had locked, is unlocked. *)
Lemma commit_failure_unlocks_witness :
  commit_alone half_locked =
    Some (false, txn (after_commit half_locked),
          env (after_commit half_locked)) /\
  option_map write_lock_bit
    (writeSet (txn (after_commit half_locked)) !! 0%nat) = Some true /\
  is_locked (meta (env (after_lock_loop half_locked)) (0, 0, 1)) = true /\
  is_locked (meta (env (after_commit half_locked)) (0, 0, 1)) = false.
Proof.
  assert (H : commit_alone half_locked =
              Some (false, txn (after_commit half_locked),
                    env (after_commit half_locked)))
    by (vm_compute; reflexivity).
  split; [exact H|]. split; [vm_compute; reflexivity|].
  split; [vm_compute; reflexivity|].
  exact (commit_failure_unlocks single_node unit_size find_read_key 0 silent
           0 _ _ _ _ H
           (mkRWKey 0 0 1 42 (make_tid false 5 0) true false false false)
           ltac:(vm_compute; left; reflexivity) eq_refl eq_refl).
Defined.

(** X5, at the same transaction: the failed commit has written no value. *)
Lemma failed_commit_writes_nothing_witness :
  commit_alone half_locked =
    Some (false, txn (after_commit half_locked),
          env (after_commit half_locked)) /\
  vals (env (after_commit half_locked)) = vals (env half_locked).
Proof.
  assert (H : commit_alone half_locked =
              Some (false, txn (after_commit half_locked),
                    env (after_commit half_locked)))
    by (vm_compute; reflexivity).
  split; [exact H|].
  exact (failed_commit_writes_nothing single_node unit_size find_read_key 0
           silent 0 _ _ _ _ (fun w => eq_refl) H).
Defined.

(** X6, at the same transaction: the loop of [lock_write_set] leaves at
    the second key, with the first key's bit set and its record locked. *)
Lemma lock_write_set_loop_holds_witness :
  lock_write_set_loop single_node unit_size find_read_key half_locked =
    Some (after_lock_loop half_locked) /\
  abort_lock (txn (after_lock_loop half_locked)) = true /\
  has_master_partition single_node 0 = true /\
  is_locked (meta (env (after_lock_loop half_locked)) (0, 0, 1)) = true.
Proof.
  assert (H : lock_write_set_loop single_node unit_size find_read_key
                half_locked = Some (after_lock_loop half_locked))
    by (vm_compute; reflexivity).
  split; [exact H|]. split; [vm_compute; reflexivity|].
  exact (lock_write_set_loop_holds single_node unit_size find_read_key
           half_locked _
           ltac:(intros k [<-|[<-|[]]]; reflexivity) H 0%nat
           (mkRWKey 0 0 1 42 (make_tid false 5 0) true false false false)
           ltac:(vm_compute; reflexivity) eq_refl).
Defined.

(** X8, at the uncontended writer, whose one read key is in the write
    set. *)
Lemma validate_read_set_nothing_to_do_witness :
  validate_read_set_loop single_node unit_size uncontended = uncontended.
Proof.
  apply validate_read_set_nothing_to_do.
  repeat constructor.
Defined.

End ScarCoverageExamples.

(** ** The worker loop: further properties *)

Module ExecutorCoverage.

Import Executor CoverageVocabulary.

Lemma wrap64_fetch_add1 x y :
  wrap64 (fetch_add1 x + y) = wrap64 (x + y + 1).
Proof.
  unfold fetch_add1, wrap64. rewrite Z.add_mod_idemp_l by lia.
  f_equal. lia.
Qed.

Section Generic.

Variable Txn : Type.
Variable Env : Type.
Variable abort_lock : Txn -> bool.
Variable reset : Txn -> Txn.
Variable execute : Txn -> Z -> Env -> TransactionResult * Txn * Z * Env.
Variable next_transaction : Context -> Z -> Z -> Env -> Txn * Z * Env.
Variable uniform_dist : Z -> Z -> Z -> Z * Z.
Variable commit : nat -> Txn -> Env -> option (bool * Txn * Env).
Variable process_request : option Txn -> Env -> option Txn * Env.
Variable context : Context.
Variable coordinator_id : nat.

Local Abbreviation prepare :=
  (prepare Txn Env reset next_transaction uniform_dist process_request
     context coordinator_id).
Local Abbreviation run := (run Txn Env abort_lock execute commit).
Local Abbreviation iteration :=
  (iteration Txn Env abort_lock reset execute next_transaction uniform_dist
     commit process_request context coordinator_id).
Local Abbreviation start :=
  (start Txn Env abort_lock reset execute next_transaction uniform_dist
     commit process_request context coordinator_id).

(** A turn that comes to its end counts one outcome and leaves the worker
    with a transaction in hand. *)
Lemma iteration_counts fuel s s' :
  iteration fuel s = Some s' ->
  wrap64 (outcomes s') = wrap64 (outcomes s + 1) /\
  transaction s' <> None.
Proof.
  unfold Executor.iteration. destruct (prepare s) as [p|]; [|done].
  unfold Executor.run.
  destruct (execute _ _ _) as [[[result t] seed] e].
  assert (Hsum : forall a b c d,
    wrap64 (fetch_add1 a + b + c + d) = wrap64 (a + b + c + d + 1) /\
    wrap64 (a + fetch_add1 b + c + d) = wrap64 (a + b + c + d + 1) /\
    wrap64 (a + b + fetch_add1 c + d) = wrap64 (a + b + c + d + 1) /\
    wrap64 (a + b + c + fetch_add1 d) = wrap64 (a + b + c + d + 1)).
  { intros a b c d. repeat split.
    - rewrite <- !Z.add_assoc, wrap64_fetch_add1. f_equal. lia.
    - replace (a + fetch_add1 b + c + d) with (fetch_add1 b + (a + c + d))
        by lia. rewrite wrap64_fetch_add1. f_equal. lia.
    - replace (a + b + fetch_add1 c + d) with (fetch_add1 c + (a + b + d))
        by lia. rewrite wrap64_fetch_add1. f_equal. lia.
    - replace (a + b + c + fetch_add1 d) with (fetch_add1 d + (a + b + c))
        by lia. rewrite wrap64_fetch_add1. f_equal. lia. }
  destruct (is_ready_to_commit result).
  - destruct (commit fuel t e) as [[[[] t'] e']|]; [| |done].
    + intros [= <-]. unfold outcomes. cbn. split; [apply Hsum|done].
    + destruct (abort_lock t'); intros [= <-]; unfold outcomes; cbn;
        (split; [apply Hsum|done]).
  - intros [= <-]. unfold outcomes. cbn. split; [apply Hsum|done].
Qed.

(** X9.  However the turns end, each is counted exactly once: after [n]
    turns of the loop the four outcome counters together have grown by
    [n] (as 64-bit counters do). *)
Theorem start_counts_every_turn (fuel n : nat) (s s' : State Txn Env) :
  start fuel n s = Some s' ->
  wrap64 (outcomes s') = wrap64 (outcomes s + Z.of_nat n).
Proof.
  revert s. induction n as [|n IH]; intros s; cbn [Executor.start].
  - intros [= <-]. f_equal. lia.
  - destruct (iteration fuel s) as [s1|] eqn:E; [|done].
    intros H. rewrite (IH _ H).
    destruct (iteration_counts _ _ _ E) as [Hs _].
    unfold wrap64 in *. rewrite <- Z.add_mod_idemp_l, Hs by lia.
    rewrite Z.add_mod_idemp_l by lia. f_equal. lia.
Qed.

(** X10.  The retry path never meets a null transaction.  As long as the
    message handlers leave the transaction in hand in place, a worker that
    starts without the retry flag, or with a transaction, keeps this so
    through all its turns, and the first half of its next turn goes
    through. *)
Theorem retry_has_transaction (fuel n : nat) (s s' : State Txn Env) :
  (forall t e, fst (process_request (Some t) e) <> None) ->
  (retry_transaction s = true -> transaction s <> None) ->
  start fuel n s = Some s' ->
  (retry_transaction s' = true -> transaction s' <> None) /\
  prepare s' <> None.
Proof.
  intros Hpr.
  assert (Hprep : forall s0,
    (retry_transaction s0 = true -> transaction s0 <> None) ->
    prepare s0 <> None).
  { intros s0 H0. unfold Executor.prepare.
    destruct (process_request (transaction s0) (env s0)) as [t1 e1] eqn:E.
    destruct (retry_transaction s0).
    - destruct (transaction s0) as [t0|]; [|by destruct H0].
      pose proof (Hpr t0 (env s0)) as Hne. rewrite E in Hne. cbn in Hne.
      by destruct t1.
    - destruct (uniform_dist _ _ _) as [r seed].
      by destruct (next_transaction _ _ _ _) as [[t' seed'] e']. }
  revert s. induction n as [|n IH]; intros s Hs; cbn [Executor.start].
  - intros [= <-]. split; [exact Hs|by apply Hprep].
  - destruct (iteration fuel s) as [s1|] eqn:E; [|done].
    apply IH. intros _. by destruct (iteration_counts _ _ _ E).
Qed.

(** X11.  An abort without retry during a replay does not drop the
    transaction.  When a turn starts with the retry flag set and [execute]
    does not return [READY_TO_COMMIT], the turn counts [n_abort_no_retry],
    leaves the flag set and the generator at the seed the execution left
    (the saved seed is not put back), and keeps the transaction: the next
    turn replays it once more. *)
Theorem no_retry_abort_in_replay_is_replayed (fuel : nat)
    (s : State Txn Env) (p : Prepared Txn Env) (result : TransactionResult)
    (t : Txn) (seed : Z) (e : Env) :
  retry_transaction s = true ->
  prepare s = Some p ->
  execute (to_run p) (seed_now p) (env_now p) = (result, t, seed, e) ->
  is_ready_to_commit result = false ->
  exists s',
    iteration fuel s = Some s' /\
    retry_transaction s' = true /\ random s' = seed /\
    transaction s' = Some t /\
    n_abort_no_retry s' = fetch_add1 (n_abort_no_retry s) /\
    forall t0 e0,
      process_request (Some t) e = (Some t0, e0) ->
      prepare s' = Some (mkPrepared seed (reset t0) seed e0).
Proof.
  intros Hr Hp He Hres. unfold Executor.iteration. rewrite Hp.
  unfold Executor.run. rewrite He, Hres, Hr.
  eexists. split; [reflexivity|]. cbn. repeat split.
  intros t0 e0 Hpr. unfold Executor.prepare. cbn. by rewrite Hpr.
Qed.

End Generic.

End ExecutorCoverage.

(** ** The R-Store worker: further properties *)

Module RStoreCoverage.

Import Executor RStoreExecutor RStoreVocabulary RStoreFacts CoverageVocabulary.

Lemma drain_app {Txn : Type} (q p : list Txn) : drain Txn q p = p ++ q.
Proof.
  revert p; induction q as [|x q IH]; intros p; cbn [drain].
  - by rewrite app_nil_r.
  - rewrite IH, <- app_assoc. done.
Qed.

(** X12.  [commit_transactions] records the queued transactions in the
    order they were committed and loses none: [percentile] gets the whole
    of [q] appended, [q] is left empty, and a second call in a row records
    nothing more. *)
Theorem commit_transactions_records_in_order {Txn Env : Type}
    (s : State Txn Env) :
  percentile (commit_transactions s) = percentile s ++ q s /\
  q (commit_transactions s) = [] /\
  percentile (commit_transactions (commit_transactions s)) =
    percentile (commit_transactions s) /\
  n_commit (commit_transactions s) = n_commit s.
Proof.
  unfold commit_transactions. cbn. rewrite !drain_app. done.
Qed.

Section Worker.

Variable Txn : Type.
Variable Env : Type.
Variable abort_lock : Txn -> bool.
Variable network_size : Txn -> Z.
Variable reset : Txn -> Txn.
Variable execute : Txn -> Z -> Env -> TransactionResult * Txn * Z * Env.
Variable next_transaction : ExecutorStatus -> Z -> Z -> Env -> Txn * Z * Env.
Variable uniform_dist : Z -> Z -> Z -> Z * Z.
Variable commit :
  ExecutorStatus -> nat -> Txn -> Env -> option (bool * Txn * Env).
Variable has_master_partition : ExecutorStatus -> Z -> bool.
Variable process_request : Env -> Env.
Variable flush_messages : Env -> Env.
Variable context : Context.
Variable query_num : ExecutorStatus -> nat.
Variable batch_flush : ExecutorStatus -> nat.
Variable coordinator_id : Z.
Variable id : Z.

Local Abbreviation attempt :=
  (attempt Txn Env abort_lock network_size reset execute next_transaction
     commit process_request).
Local Abbreviation do_while :=
  (do_while Txn Env abort_lock network_size reset execute next_transaction
     commit process_request).
Local Abbreviation query_body :=
  (query_body Txn Env abort_lock network_size reset execute next_transaction
     commit process_request flush_messages batch_flush).
Local Abbreviation run_transaction :=
  (run_transaction Txn Env abort_lock network_size reset execute
     next_transaction uniform_dist commit has_master_partition
     process_request flush_messages context query_num batch_flush
     coordinator_id id).
Local Abbreviation step :=
  (step Txn Env abort_lock network_size reset execute
     next_transaction uniform_dist commit has_master_partition
     process_request flush_messages context query_num batch_flush
     coordinator_id id).
Local Abbreviation start :=
  (start Txn Env abort_lock network_size reset execute
     next_transaction uniform_dist commit has_master_partition
     process_request flush_messages context query_num batch_flush
     coordinator_id id).

Lemma queued_upto_refl (s : State Txn Env) : queued_upto 0 s s.
Proof.
  exists []. rewrite app_nil_r. cbn. repeat split; [lia|].
  f_equal. lia.
Qed.

Lemma queued_upto_trans n m (s1 s2 s3 : State Txn Env) :
  queued_upto n s1 s2 -> queued_upto m s2 s3 -> queued_upto (n + m) s1 s3.
Proof.
  intros (a & Hq & Hl & Hc & Hp) (b & Hq' & Hl' & Hc' & Hp').
  exists (a ++ b). rewrite Hq', Hq, <- app_assoc, length_app. split; [done|].
  split; [lia|]. split; [|congruence].
  rewrite Hc'. unfold wrap64 in *.
  rewrite <- Z.add_mod_idemp_l, Hc, Z.add_mod_idemp_l by lia.
  f_equal. lia.
Qed.

Lemma queued_upto_le n m (s s' : State Txn Env) :
  (n <= m)%nat -> queued_upto n s s' -> queued_upto m s s'.
Proof.
  intros Hle (a & Hq & Hl & Hc & Hp). exists a. repeat split; try done. lia.
Qed.

Lemma queued_upto_same n (s s' : State Txn Env) :
  q s' = q s -> n_commit s' = n_commit s -> percentile s' = percentile s ->
  queued_upto n s s'.
Proof.
  intros Hq Hc Hp. exists []. rewrite app_nil_r, Hc. cbn.
  repeat split; try done; [lia|]. f_equal. lia.
Qed.

(** One turn of the loop either commits (one transaction more in [q], one
    commit counted, no retry asked) or leaves [q] and [n_commit] alone. *)
Lemma attempt_queue fuel status partition_id l s l' s' :
  attempt fuel status partition_id l s = Some (l', s') ->
  percentile s' = percentile s /\
  ((retry_transaction l' = false /\
    (exists t, q s' = q s ++ [t]) /\
    n_commit s' = fetch_add1 (n_commit s)) \/
   (q s' = q s /\ n_commit s' = n_commit s)).
Proof.
  unfold RStoreExecutor.attempt.
  destruct (turn_input _ _ _ _ _ _ _ _ _) as [[[t seed] e]|]; [|done].
  destruct (execute t seed e) as [[[result t1] seed1] e1].
  destruct (is_ready_to_commit result).
  - destruct (commit status fuel t1 e1) as [[[[] t2] e2]|]; [| |done].
    + intros [= <- <-]. cbn. split; [done|]. left. eauto.
    + destruct (abort_lock t2); intros [= <- <-]; cbn; auto.
  - intros [= <- <-]. cbn. auto.
Qed.

Lemma do_while_queue turns fuel status partition_id l s l' s' :
  do_while turns fuel status partition_id l s = Some (l', s') ->
  queued_upto 1 s s'.
Proof.
  revert l s. induction turns as [|turns IH]; intros l s; [done|].
  cbn [RStoreExecutor.do_while].
  destruct (attempt fuel status partition_id l s) as [[l1 s1]|] eqn:E;
    [|done].
  destruct (attempt_queue _ _ _ _ _ _ _ E)
    as [Hp [(Hr & [t Hq] & Hc)|[Hq Hc]]].
  - rewrite Hr. intros [= <- <-]. exists [t]. repeat split; try done.
    rewrite Hc. unfold fetch_add1, wrap64. cbn [length].
    rewrite Z.mod_mod by lia. done.
  - destruct (retry_transaction l1).
    + intros H. apply IH in H.
      destruct H as (a & Hq' & Hl & Hc' & Hp'). exists a.
      rewrite Hq', Hq, Hc', Hc, Hp', Hp. done.
    + intros [= <- <-]. by apply queued_upto_same.
Qed.

Lemma query_body_queue turns fuel status partition_id i l s r :
  query_body turns fuel status partition_id i (l, s) = Some r ->
  exists l' s', r = Continue (l', s') /\ queued_upto 1 s s'.
Proof.
  unfold RStoreExecutor.query_body.
  destruct (do_while _ _ _ _ _ _) as [[l1 s1]|] eqn:E; [|done].
  apply do_while_queue in E.
  destruct (Nat.eqb _ _); intros [= <-]; eexists _, _; (split; [done|]).
  - destruct E as (a & Hq & Hl & Hc & Hp). by exists a.
  - done.
Qed.

Lemma query_loop_queue turns fuel status partition_id n i l s l' s' :
  for_loop_opt (query_body turns fuel status partition_id) n i (l, s)
    = Some (l', s') ->
  queued_upto n s s'.
Proof.
  revert i l s. induction n as [|n IH]; intros i l s; cbn [for_loop_opt].
  - intros [= <- <-]. apply queued_upto_refl.
  - destruct (query_body _ _ _ _ _ _) as [r|] eqn:E; [|done].
    apply query_body_queue in E. destruct E as (l1 & s1 & -> & H1).
    intros H. apply IH in H.
    apply (queued_upto_trans 1 n _ _ _ H1 H).
Qed.

(** X13.  What a phase adds.  When [run_transaction] returns, [q] has
    grown by the transactions the phase committed, at most one for each of
    its queries, [n_commit] has grown by as many (as a 64-bit counter
    does), and [percentile] has not changed: no latency is recorded before
    [commit_transactions]. *)
Theorem run_transaction_queues_commits (turns fuel : nat)
    (status : ExecutorStatus) (s s' : State Txn Env) :
  run_transaction turns fuel status s = Some s' ->
  queued_upto (query_num status) s s'.
Proof.
  unfold RStoreExecutor.run_transaction.
  destruct (match status with C_PHASE => _ | S_PHASE => _ | _ => None end)
    as [[partition_id s1]|] eqn:Hpre; [|done].
  assert (H1 : q s1 = q s /\ n_commit s1 = n_commit s /\
               percentile s1 = percentile s).
  { destruct status; try done.
    - destruct (negb (coordinator_id =? 0)); [done|].
      destruct (negb _); [done|].
      destruct (uniform_dist _ _ _) as [r seed].
      by injection Hpre as _ <-.
    - by injection Hpre as _ <-. }
  destruct H1 as (Hq1 & Hc1 & Hp1).
  destruct (negb (has_master_partition status partition_id)); [done|].
  destruct (for_loop_opt _ _ _ _) as [[l2 s2]|] eqn:Hloop; [|done].
  intros [= <-]. apply query_loop_queue in Hloop.
  destruct Hloop as (a & Hq & Hl & Hc & Hp). exists a. cbn.
  rewrite Hq, Hc, Hp, Hq1, Hc1, Hp1. done.
Qed.

Lemma start_returned turns fuel loads s r :
  start turns fuel loads RETURNED s = Some r -> r = (RETURNED, s).
Proof.
  induction loads as [|status loads IH]; cbn; [by intros [= <-]|exact IH].
Qed.

(** X14.  The worker returns only on [EXIT], and with nothing left in
    [q]: whatever the loads of [worker_status] were, if [start] has
    returned then one of them was [EXIT] and every committed transaction
    has had its latency recorded. *)
Theorem start_returns_drained (turns fuel : nat)
    (loads : list ExecutorStatus) (at_ : Location) (s s' : State Txn Env) :
  at_ <> RETURNED ->
  start turns fuel loads at_ s = Some (RETURNED, s') ->
  In EXIT loads /\ q s' = [].
Proof.
  revert at_ s. induction loads as [|status loads IH]; intros at_ s Hat.
  - cbn. intros [= -> _]. done.
  - cbn [RStoreExecutor.start].
    destruct (step turns fuel status at_ s) as [[at1 s1]|] eqn:E; [|done].
    assert (Hd : at1 = RETURNED \/ at1 <> RETURNED)
      by (destruct at1; (by left) || (by right)).
    destruct Hd as [->|Hne].
    + intros H. apply start_returned in H. injection H as <-.
      pose proof E as Hev. apply step_events in Hev.
      destruct at_, status; try (destruct Hev as [? _]; congruence);
        try (destruct (coordinator_id =? 0);
             destruct Hev as [? _]; congruence).
      cbn in E. injection E as <-. split; [by left|done].
    + intros H. destruct (IH _ _ Hne H). split; [by right|done].
Qed.

End Worker.

End RStoreCoverage.

Module WorkerCoverageExamples.

Import Examples CoverageVocabulary ExecutorCoverage RStoreCoverage.

(** X9 at three turns of a worker whose record is held locked by another:
    three lock aborts are counted. *)
Lemma start_counts_every_turn_witness :
  demo_start 3 (demo_state locked_records) =
    Some (demo_after 3 (demo_state locked_records)) /\
  Executor.counters (demo_after 3 (demo_state locked_records)) =
    (0, 3, 0, 0) /\
  wrap64 (outcomes (demo_after 3 (demo_state locked_records))) =
    wrap64 (outcomes (demo_state locked_records) + Z.of_nat 3).
Proof.
  split; [vm_compute; reflexivity|]. split; [vm_compute; reflexivity|].
  exact (start_counts_every_turn Scar.ScarTransaction Scar.Env Scar.abort_lock
           demo_reset demo_execute demo_next_transaction demo_uniform_dist
           demo_commit demo_process_request demo_context 0 0 3
           (demo_state locked_records)
           (demo_after 3 (demo_state locked_records))
           ltac:(vm_compute; reflexivity)).
Defined.

(** X10 at the same worker after two turns: it is replaying, with its
    transaction in hand. *)
Lemma retry_has_transaction_witness :
  Executor.retry_transaction (demo_after 2 (demo_state locked_records))
    = true /\
  Executor.transaction (demo_after 2 (demo_state locked_records)) <> None /\
  demo_prepare (demo_after 2 (demo_state locked_records)) <> None.
Proof.
  destruct (retry_has_transaction Scar.ScarTransaction Scar.Env Scar.abort_lock
              demo_reset demo_execute demo_next_transaction demo_uniform_dist
              demo_commit demo_process_request demo_context 0 0 2
              (demo_state locked_records)
              (demo_after 2 (demo_state locked_records))
              (fun t e => ltac:(discriminate))
              ltac:(discriminate)
              ltac:(vm_compute; reflexivity))
    as [Ht Hp].
  split; [vm_compute; reflexivity|]. split; [|exact Hp].
  apply Ht. vm_compute; reflexivity.
Defined.

(** X11 at a worker in a replay whose execution gives up: the turn leaves
    the flag set and the generator one step after seed 7. *)
Lemma no_retry_abort_in_replay_witness :
  exists s',
    Executor.iteration Scar.ScarTransaction Scar.Env Scar.abort_lock
      demo_reset giving_up_execute demo_next_transaction demo_uniform_dist
      demo_commit demo_process_request demo_context 0 0 replaying_state
      = Some s' /\
    Executor.retry_transaction s' = true /\
    Executor.random s' = next_seed 7 /\
    Executor.counters s' = (0, 1, 0, 1).
Proof.
  destruct (no_retry_abort_in_replay_is_replayed Scar.ScarTransaction
              Scar.Env Scar.abort_lock demo_reset giving_up_execute
              demo_next_transaction demo_uniform_dist demo_commit
              demo_process_request demo_context 0 0 replaying_state
              _ _ _ _ _ eq_refl eq_refl eq_refl eq_refl)
    as (s' & Hit & Hr & Hseed & Ht & Hn & _).
  exists s'. split; [exact Hit|]. split; [exact Hr|]. split; [exact Hseed|].
  vm_compute in Hit. injection Hit as <-. reflexivity.
Defined.

(** X13 at an S-phase of three queries, two of which commit. *)
Lemma run_transaction_queues_commits_witness :
  rstore_run_transaction RStoreExecutor.S_PHASE rstore_state =
    Some (rstore_after_run RStoreExecutor.S_PHASE rstore_state) /\
  length (RStoreExecutor.q
            (rstore_after_run RStoreExecutor.S_PHASE rstore_state)) = 2%nat /\
  queued_upto 3 rstore_state
    (rstore_after_run RStoreExecutor.S_PHASE rstore_state).
Proof.
  split; [vm_compute; reflexivity|]. split; [vm_compute; reflexivity|].
  exact (run_transaction_queues_commits Z nat (fun _ => false) (fun _ => 0)
           (fun t => t)
           (fun t seed e =>
              (if Z.even (t / 4) then Executor.READY_TO_COMMIT
               else Executor.ABORT_NORETRY, t, next_seed seed, e))
           (fun _ _ seed e => (seed, next_seed seed, e))
           demo_uniform_dist
           (fun _ _ t e => Some (true, t, e))
           (fun _ _ => true)
           S (fun e => e)
           (Executor.mkContext 2 2 1) (fun _ => 3%nat) (fun _ => 2%nat) 0 0
           1 0 RStoreExecutor.S_PHASE rstore_state
           (rstore_after_run RStoreExecutor.S_PHASE rstore_state)
           ltac:(vm_compute; reflexivity)).
Defined.

(** X14 at one full cycle followed by [EXIT]: the two committed
    transactions have been recorded. *)
Lemma start_returns_drained_witness :
  In RStoreExecutor.EXIT cycle_then_exit /\
  RStoreExecutor.q rstore_after_exit = [] /\
  length (RStoreExecutor.percentile rstore_after_exit) = 2%nat.
Proof.
  destruct (start_returns_drained Z nat (fun _ => false) (fun _ => 0)
              (fun t => t)
              (fun t seed e =>
                 (Executor.READY_TO_COMMIT, t, next_seed seed, e))
              (fun _ _ seed e => (seed, next_seed seed, e))
              demo_uniform_dist
              (fun _ _ t e => Some (true, t, e))
              (fun _ _ => true)
              S (fun e => e)
              (Executor.mkContext 2 2 1) (fun _ => 1%nat) (fun _ => 1%nat) 0 0
              1 0 cycle_then_exit RStoreExecutor.WAIT_C_PHASE rstore_state
              rstore_after_exit
              ltac:(discriminate)
              ltac:(vm_compute; reflexivity))
    as [Hin Hq].
  split; [exact Hin|]. split; [exact Hq|]. vm_compute; reflexivity.
Defined.

End WorkerCoverageExamples.

(** ** The Aria transaction: further properties *)

Module AriaCoverage.

Import AriaTransaction AriaFacts.

(** X15.  [add_to_read_set] and [add_to_write_set] return the index at
    which the key can be found afterwards; the keys recorded before keep
    their indices, and the other set is not touched. *)
Theorem add_to_set_returns_index (k : AriaRWKey) (t : AriaTransaction) :
  (readSet (fst (add_to_read_set k t)) !! snd (add_to_read_set k t) = Some k /\
   snd (add_to_read_set k t) = length (readSet t) /\
   (forall j k', readSet t !! j = Some k' ->
      readSet (fst (add_to_read_set k t)) !! j = Some k') /\
   writeSet (fst (add_to_read_set k t)) = writeSet t) /\
  (writeSet (fst (add_to_write_set k t)) !! snd (add_to_write_set k t)
     = Some k /\
   snd (add_to_write_set k t) = length (writeSet t) /\
   (forall j k', writeSet t !! j = Some k' ->
      writeSet (fst (add_to_write_set k t)) !! j = Some k') /\
   readSet (fst (add_to_write_set k t)) = readSet t).
Proof.
  unfold add_to_read_set, add_to_write_set. cbn.
  rewrite !length_app. cbn [length].
  replace (length (readSet t) + 1 - 1)%nat with (length (readSet t)) by lia.
  replace (length (writeSet t) + 1 - 1)%nat with (length (writeSet t)) by lia.
  repeat split.
  - by apply list_lookup_middle.
  - intros j k' H. by apply lookup_app_l_Some.
  - by apply list_lookup_middle.
  - intros j k' H. by apply lookup_app_l_Some.
Qed.

(** X16.  [save_read_count] and [load_read_count] are a round trip on the
    two read counters: whatever became of the transaction in between, as
    long as the saved copies were left alone, loading brings both counters
    back to what they were when saved and changes nothing else.  Saving
    right after loading, or loading right after saving, changes nothing. *)
Theorem read_count_round_trip (t t' : AriaTransaction) :
  saved_local_read t' = saved_local_read (save_read_count t) ->
  saved_remote_read t' = saved_remote_read (save_read_count t) ->
  local_read (load_read_count t') = local_read t /\
  remote_read (load_read_count t') = remote_read t /\
  readSet (load_read_count t') = readSet t' /\
  writeSet (load_read_count t') = writeSet t' /\
  load_read_count (save_read_count t) = save_read_count t /\
  save_read_count (load_read_count t') = load_read_count t'.
Proof.
  intros Hl Hr. unfold load_read_count, save_read_count in *. cbn in *.
  rewrite Hl, Hr. done.
Qed.

(** The loop of [clear_execution_bit], from the end of [pre] on. *)
Lemma clear_execution_bit_from suf : forall pre t,
  readSet t = pre ++ suf ->
  for_loop clear_execution_bit_body (length suf) (length pre) t =
  set_readSet
    (pre ++ map (fun k => if local_index_read_bit k then k
                          else clear_execution_processed_bit k) suf) t.
Proof.
  induction suf as [|k suf IH]; intros pre t Hrs; cbn [for_loop length map].
  - by rewrite <- Hrs, set_readSet_same.
  - unfold clear_execution_bit_body at 1.
    rewrite Hrs, list_lookup_middle by done.
    replace (S (length pre)) with (length (pre ++ [k]))
      by (rewrite length_app; cbn; lia).
    destruct (local_index_read_bit k) eqn:Hk.
    + rewrite (IH (pre ++ [k]) t) by (by rewrite <- app_assoc).
      by rewrite <- app_assoc.
    + rewrite (insert_app_r_alt pre) by lia. rewrite Nat.sub_diag.
      cbn [insert list_insert].
      replace (length (pre ++ [k]))
        with (length (pre ++ [clear_execution_processed_bit k]))
        by (rewrite !length_app; done).
      rewrite (IH (pre ++ [clear_execution_processed_bit k]))
        by (cbn; by rewrite <- app_assoc).
      rewrite set_readSet_twice, <- app_assoc. done.
Qed.

(** X17.  [clear_execution_bit] clears the [execution_processed] bit of
    every read that is not a local-index read, and changes nothing else:
    the local-index reads, the other bits and fields of every key, the
    number and order of the keys, the rest of the transaction.  Calling it
    twice is calling it once. *)
Theorem clear_execution_bit_clears (t : AriaTransaction) :
  clear_execution_bit t =
    set_readSet
      (map (fun k => if local_index_read_bit k then k
                     else clear_execution_processed_bit k) (readSet t)) t /\
  (forall i k, readSet (clear_execution_bit t) !! i = Some k ->
     local_index_read_bit k = false -> execution_processed_bit k = false) /\
  (forall i k, readSet t !! i = Some k -> local_index_read_bit k = true ->
     readSet (clear_execution_bit t) !! i = Some k) /\
  clear_execution_bit (clear_execution_bit t) = clear_execution_bit t.
Proof.
  assert (Hc : forall t0, clear_execution_bit t0 =
    set_readSet
      (map (fun k => if local_index_read_bit k then k
                     else clear_execution_processed_bit k) (readSet t0)) t0).
  { intros t0. unfold clear_execution_bit.
    exact (clear_execution_bit_from (readSet t0) [] t0 eq_refl). }
  split; [apply Hc|]. split; [|split].
  - intros i k. rewrite Hc. cbn [readSet set_readSet].
    rewrite list_lookup_fmap.
    destruct (readSet t !! i) as [k0|]; [|done]. cbn.
    intros [= <-]. destruct (local_index_read_bit k0) eqn:E; [congruence|].
    reflexivity.
  - intros i k Hi Hk. rewrite Hc. cbn [readSet set_readSet].
    rewrite list_lookup_fmap, Hi. cbn. by rewrite Hk.
  - rewrite !Hc. cbn [readSet set_readSet]. rewrite set_readSet_twice.
    f_equal. rewrite map_map. apply map_ext. intros k.
    destruct (local_index_read_bit k) eqn:E; [by rewrite E|].
    cbn. by rewrite E.
Qed.

Section Handlers.

Variable Env : Type.
Variable aria_read_handler : AriaRWKey -> Z -> nat -> Env -> AriaRWKey * Env.

Local Abbreviation body := (process_requests_body Env aria_read_handler).

(** The loop run down from [n] keeps the number of keys and the keys from
    index [n] on. *)
Lemma for_down_keeps n : forall t e,
  length (readSet (fst (for_down body n (t, e)))) = length (readSet t) /\
  forall j, (n <= j)%nat ->
    readSet (fst (for_down body n (t, e))) !! j = readSet t !! j.
Proof.
  induction n as [|n IH]; intros t e; cbn [for_down]; [done|].
  unfold process_requests_body at 1 3.
  destruct (readSet t !! n) as [k|] eqn:Hk; [|done].
  destruct (negb (read_request_bit k)); [done|].
  destruct (aria_read_handler k (id t) n e) as [k1 e1].
  destruct (IH (set_readSet (<[n:=clear_read_request_bit k1]> (readSet t)) t)
              e1) as [Hl Hj].
  cbn [readSet set_readSet] in *. rewrite length_insert in Hl.
  split; [exact Hl|]. intros j Hle. rewrite Hj by lia.
  apply list_lookup_insert_ne. lia.
Qed.

(** After the loop has run down from [n], running it down from [n] again
    does nothing. *)
Lemma for_down_settles n t e :
  (n <= length (readSet t))%nat ->
  for_down body n (for_down body n (t, e)) = for_down body n (t, e).
Proof.
  destruct n as [|n]; [done|]. intros Hn.
  destruct (lookup_lt_is_Some_2 (readSet t) n ltac:(lia)) as [k Hk].
  assert (Hlast : exists k',
    readSet (fst (for_down body (S n) (t, e))) !! n = Some k' /\
    read_request_bit k' = false).
  { cbn [for_down]. unfold process_requests_body at 1.
    rewrite Hk. destruct (read_request_bit k) eqn:Hb; cbn [negb].
    - destruct (aria_read_handler k (id t) n e) as [k1 e1].
      destruct (for_down_keeps n
                  (set_readSet (<[n:=clear_read_request_bit k1]> (readSet t))
                     t) e1) as [_ Hj].
      rewrite Hj by lia. cbn [readSet set_readSet].
      rewrite list_lookup_insert_eq by (by apply lookup_lt_Some in Hk).
      by eexists.
    - by exists k. }
  destruct Hlast as (k' & Hk' & Hb').
  destruct (for_down body (S n) (t, e)) as [t1 e1]. cbn [fst] in Hk'.
  cbn [for_down]. unfold process_requests_body at 1.
  by rewrite Hk', Hb'.
Qed.

Lemma to_int_le n : 0 <= n -> to_int n <= n.
Proof.
  intros Hn. unfold to_int.
  pose proof (Z.mod_le (n + 2 ^ 31) (2 ^ 32) ltac:(lia) ltac:(lia)). lia.
Qed.

(** X18.  [process_requests] settles: a second call right after a first
    hands nothing to [aria_read_handler] and leaves the transaction as the
    first call left it, whatever the read set and the handler. *)
Theorem process_requests_settles (worker_id worker_id' : Z)
    (t : AriaTransaction) (e : Env) :
  process_requests Env aria_read_handler worker_id'
    (snd (process_requests Env aria_read_handler worker_id (t, e))) =
  (false, snd (process_requests Env aria_read_handler worker_id (t, e))).
Proof.
  unfold process_requests. cbn [fst snd]. f_equal.
  set (n := Z.to_nat (to_int (Z.of_nat (length (readSet t))))).
  assert (Hn : (n <= length (readSet t))%nat).
  { subst n. pose proof (to_int_le (Z.of_nat (length (readSet t)))). lia. }
  destruct (for_down_keeps n t e) as [Hl _].
  destruct (for_down body n (t, e)) as [t1 e1] eqn:E. cbn [fst] in *.
  rewrite Hl. fold n. rewrite <- E. by apply for_down_settles.
Qed.

End Handlers.

End AriaCoverage.

Module AriaCoverageExamples.

Import AriaTransaction AriaExamples AriaCoverage.

(** X16 at a transaction that counted three local reads and one remote
    read before saving, and lost count afterwards. *)
Lemma read_count_round_trip_witness :
  local_read
    (load_read_count
       (mkTxn 0 0 9 0 0 0 0 7 7 3 1 false false false false false false
          false false [] [] [])) = 3 /\
  remote_read
    (load_read_count
       (mkTxn 0 0 9 0 0 0 0 7 7 3 1 false false false false false false
          false false [] [] [])) = 1.
Proof.
  destruct (read_count_round_trip
              (mkTxn 0 0 9 0 0 0 0 3 1 0 0 false false false false false false
                 false false [] [] [])
              (mkTxn 0 0 9 0 0 0 0 7 7 3 1 false false false false false false
                 false false [] [] [])
              eq_refl eq_refl) as (Hl & Hr & _).
  split; [exact Hl|exact Hr].
Defined.

End AriaCoverageExamples.

(** ** Random strings *)

Module YcsbRandomFacts.

Import YcsbRandom.

Section RandStr.

Variable uniform_dist : Z -> Z -> Z -> Z * Z.

Local Abbreviation rand_str_body := (rand_str_body uniform_dist).
Local Abbreviation rand_str := (rand_str uniform_dist).
Local Abbreviation draw :=
  (fun seed => uniform_dist seed 0 (Z.of_nat (length characters) - 1)).

Hypothesis uniform_dist_in_range : forall seed,
  0 <= fst (draw seed) < Z.of_nat (length characters).

Lemma rand_str_loop n : forall i result seed,
  exists more,
    for_loop_opt rand_str_body n i (result, seed) =
      Some (result ++ more, Nat.iter n (fun s => snd (draw s)) seed) /\
    length more = n /\ Forall (fun c => In c characters) more.
Proof.
  induction n as [|n IH]; intros i result seed.
  - exists []. cbn. by rewrite app_nil_r.
  - cbn [for_loop_opt]. unfold YcsbRandom.rand_str_body at 1.
    pose proof (uniform_dist_in_range seed) as Hk. cbv beta in Hk.
    destruct (uniform_dist seed 0 _) as [k seed1] eqn:E. cbn [fst] in Hk.
    replace ((0 <=? k) && (k <? Z.of_nat (length characters))) with true
      by (symmetry; apply andb_true_iff; split;
          [apply Z.leb_le|apply Z.ltb_lt]; lia).
    destruct (lookup_lt_is_Some_2 characters (Z.to_nat k) ltac:(lia))
      as [c Hc].
    rewrite Hc.
    destruct (IH (S i) (result ++ [c]) seed1) as (more & Hrun & Hlen & Hall).
    exists (c :: more). rewrite Hrun, <- app_assoc. cbn [app length].
    split; [|split; [by rewrite Hlen|]].
    + f_equal. f_equal. rewrite Nat.iter_succ_r. by rewrite E.
    + constructor; [|done]. apply list_elem_of_In.
      by eapply list_elem_of_lookup_2.
Qed.

(** X19.  With a generator that keeps to the range it is asked for,
    [rand_str(length)] (for a length that an [int] can count) returns a
    string of exactly [length] characters, each drawn from the 62
    characters of the alphabet, and has drawn from the generator exactly
    [length] times. *)
Theorem rand_str_length_and_alphabet (n : nat) (seed : Z) :
  Z.of_nat n < 2 ^ 31 ->
  exists result,
    rand_str n seed =
      Some (result, Nat.iter n (fun s => snd (draw s)) seed) /\
    length result = n /\
    Forall (fun c => In c characters) result.
Proof.
  intros Hn. unfold YcsbRandom.rand_str.
  replace (2 ^ 31 <=? Z.of_nat n) with false
    by (symmetry; apply Z.leb_gt; lia).
  destruct (rand_str_loop n 0%nat [] seed) as (more & Hrun & Hlen & Hall).
  exists more. done.
Qed.

End RandStr.

End YcsbRandomFacts.

Module YcsbRandomExamples.

Import YcsbRandom YcsbRandomFacts Examples.

(** X19 with the linear congruential generator, at five characters. *)
Lemma rand_str_witness :
  exists result,
    rand_str demo_uniform_dist 5 7 =
      Some (result,
            Nat.iter 5 (fun s => snd (demo_uniform_dist s 0 61)) 7) /\
    length result = 5%nat /\
    Forall (fun c => In c characters) result.
Proof.
  apply (rand_str_length_and_alphabet demo_uniform_dist).
  - intros seed. cbv beta. change (Z.of_nat (length characters)) with 62.
    unfold demo_uniform_dist. cbn [fst].
    change (62 - 1 - 0 + 1) with 62.
    pose proof (Z.mod_pos_bound seed 62 ltac:(lia)). lia.
  - vm_compute; reflexivity.
Defined.

End YcsbRandomExamples.

(** ** Scar: transactions that stay on their coordinator *)

Module ScarLocal.

Import ScarHelper Scar ScarVocabulary CoverageVocabulary.
Import ScarFacts ScarCoverage.

Lemma quiet_refl w : quiet w w.
Proof. by repeat split. Qed.

Lemma quiet_trans w1 w2 w3 : quiet w1 w2 -> quiet w2 w3 -> quiet w1 w3.
Proof.
  intros (H1 & H2 & H3 & H4) (H1' & H2' & H3' & H4').
  repeat split; try congruence; intros i; by rewrite H4', H4.
Qed.

Lemma flush_pieces_for cid e i :
  pieces_for i (Executor.flush_messages cid e) = pieces_for i e.
Proof.
  rewrite FlushFacts.flush_messages_closed. unfold pieces_for.
  cbn [messages out_queue].
  rewrite List.filter_app, map_app, concat_app, <- app_assoc. f_equal.
  pose proof (FlushFacts.released_and_kept cid i (messages e) 0 ltac:(lia))
    as H.
  by rewrite Nat.sub_0_r in H.
Qed.

Ltac still_quiet Hs :=
  intros [= <-]; destruct Hs as (? & ? & ? & ?);
  unfold quiet, pieces_for in *; cbn; done.

Section Local.

Variable partitioner : Partitioner.
Variable msg_size : MessagePiece -> Z.
Variable get_read_key : ScarTransaction -> Z -> option ScarRWKey.
Variable coordinator_id : nat.
Variable handle : World -> World.

(** Every partition is mastered here, and replicated nowhere else. *)
Hypothesis all_mastered_here :
  forall p, has_master_partition partitioner p = true.
Hypothesis no_other_replica :
  forall p k, is_partition_replicated_on partitioner p k = true ->
    k = master_coordinator partitioner p.

Local Abbreviation message_flusher :=
  (ScarExecutor.message_flusher coordinator_id).
Local Abbreviation remote_request_handler :=
  (ScarExecutor.remote_request_handler handle).
Local Abbreviation lock_write_set :=
  (lock_write_set partitioner msg_size get_read_key message_flusher
     remote_request_handler).
Local Abbreviation validate_read_set :=
  (validate_read_set partitioner msg_size message_flusher
     remote_request_handler).
Local Abbreviation write_and_replicate :=
  (write_and_replicate partitioner msg_size message_flusher
     remote_request_handler).
Local Abbreviation release_lock :=
  (release_lock partitioner msg_size message_flusher).
Local Abbreviation abort := (abort partitioner msg_size message_flusher).

Lemma message_flusher_quiet w : quiet w (message_flusher w).
Proof.
  unfold ScarExecutor.message_flusher, quiet. cbn [txn env upd_env].
  repeat split; [|apply flush_pieces_for].
  by rewrite FlushFacts.flush_messages_closed.
Qed.

Lemma wait_responses_idle fuel w :
  pendingResponses (txn w) = 0 ->
  wait_responses remote_request_handler fuel w = Some w.
Proof. intros H. destruct fuel; cbn [wait_responses]; by rewrite H. Qed.

Lemma sync_messages_idle fuel w b :
  pendingResponses (txn w) = 0 ->
  sync_messages message_flusher remote_request_handler fuel w b =
    Some (message_flusher w).
Proof.
  intros H. unfold sync_messages. destruct b; [|done].
  by apply wait_responses_idle.
Qed.

Lemma lock_write_set_loop_quiet w w' :
  lock_write_set_loop partitioner msg_size get_read_key w = Some w' ->
  quiet w w'.
Proof.
  unfold lock_write_set_loop.
  apply (for_loop_opt_invariant (fun s => quiet w s));
    [| |apply quiet_refl]; intros i s s' Hs; unfold lock_write_set_body;
    (destruct (writeSet (txn s) !! i) as [k|]; [|still_quiet Hs]);
    rewrite all_mastered_here; unfold lock;
    (destruct (is_locked _); cbn [negb]; [still_quiet Hs|]);
    (destruct (get_read_key _ _) as [rk|]; [|done]);
    destruct (negb _); still_quiet Hs.
Qed.

Lemma validate_read_set_loop_quiet w :
  quiet w (validate_read_set_loop partitioner msg_size w).
Proof.
  unfold validate_read_set_loop.
  apply (for_loop_invariant (fun s => quiet w s));
    [| |apply quiet_refl]; intros i s s' Hs; unfold validate_read_set_body;
    (destruct (readSet (txn s) !! i) as [k|]; [|still_quiet Hs]);
    (destruct (local_index_read_bit k); [still_quiet Hs|]);
    (destruct (isKeyInWriteSet _ _); [still_quiet Hs|]);
    rewrite all_mastered_here;
    destruct (validate_read_key _ _ _ _) as [[[] latest] written];
    try destruct (negb _); still_quiet Hs.
Qed.

Lemma replicate_loop_quiet k cw n w0 : forall i w w',
  quiet w0 w ->
  for_loop_opt (replicate_body partitioner msg_size k cw) n i w = Some w' ->
  quiet w0 w'.
Proof.
  intros i w w' Hw.
  apply (for_loop_opt_invariant (fun s => quiet w0 s)); [| |exact Hw];
    intros j s s' Hs; unfold replicate_body;
    (destruct (is_partition_replicated_on _ _ _) eqn:E; cbn [negb];
     [|still_quiet Hs]);
    apply no_other_replica in E; rewrite <- E, Nat.eqb_refl;
    still_quiet Hs.
Qed.

Lemma write_and_replicate_loop_quiet w w' :
  write_and_replicate_loop partitioner msg_size w = Some w' -> quiet w w'.
Proof.
  unfold write_and_replicate_loop.
  apply (for_loop_opt_invariant (fun s => quiet w s));
    [| |apply quiet_refl]; intros i s s' Hs;
    unfold write_and_replicate_body;
    (destruct (writeSet (txn s) !! i) as [k|]; [|still_quiet Hs]);
    rewrite all_mastered_here;
    (destruct (for_loop_opt _ _ _ _) as [s1|] eqn:E; [|done]);
    intros [= <-];
    (eapply replicate_loop_quiet; [|exact E]);
    destruct Hs as (? & ? & ? & ?); unfold quiet, pieces_for in *; cbn; done.
Qed.

Lemma release_lock_loop_quiet w :
  quiet w (release_lock_loop partitioner msg_size w).
Proof.
  unfold release_lock_loop.
  apply (for_loop_invariant (fun s => quiet w s));
    [| |apply quiet_refl]; intros i s s' Hs; unfold release_lock_body;
    (destruct (writeSet (txn s) !! i) as [k|]; [|still_quiet Hs]);
    rewrite all_mastered_here; still_quiet Hs.
Qed.

Lemma abort_loop_quiet w : quiet w (abort_loop partitioner msg_size w).
Proof.
  unfold abort_loop.
  apply (for_loop_invariant (fun s => quiet w s));
    [| |apply quiet_refl]; intros i s s' Hs; unfold abort_body;
    (destruct (writeSet (txn s) !! i) as [k|]; [|still_quiet Hs]);
    (destruct (negb _); [still_quiet Hs|]);
    rewrite all_mastered_here; still_quiet Hs.
Qed.

(** The stages of [commit] on a transaction that awaits nothing: what each
    returns without its wait, and that it stays quiet. *)
Lemma lock_write_set_local fuel w :
  pendingResponses (txn w) = 0 ->
  lock_write_set fuel w =
    match lock_write_set_loop partitioner msg_size get_read_key w with
    | None => None
    | Some w1 => Some (abort_lock (txn w1), message_flusher w1)
    end /\
  forall b w', lock_write_set fuel w = Some (b, w') -> quiet w w'.
Proof.
  intros Hp. unfold Scar.lock_write_set.
  destruct (lock_write_set_loop _ _ _ _) as [w1|] eqn:E; [|done].
  apply lock_write_set_loop_quiet in E.
  rewrite sync_messages_idle by (destruct E as [-> _]; done).
  split; [done|]. intros b w' [= _ <-].
  eapply quiet_trans; [exact E|apply message_flusher_quiet].
Qed.

Lemma validate_read_set_local fuel w :
  pendingResponses (txn w) = 0 ->
  validate_read_set fuel w =
    Some (negb (abort_read_validation
                  (txn (validate_read_set_loop partitioner msg_size w))),
          message_flusher (validate_read_set_loop partitioner msg_size w)) /\
  forall b w', validate_read_set fuel w = Some (b, w') -> quiet w w'.
Proof.
  intros Hp. unfold Scar.validate_read_set.
  pose proof (validate_read_set_loop_quiet w) as E.
  rewrite sync_messages_idle by (destruct E as [-> _]; done).
  split; [done|]. intros b w' [= _ <-].
  eapply quiet_trans; [exact E|apply message_flusher_quiet].
Qed.

Lemma write_and_replicate_local fuel w :
  pendingResponses (txn w) = 0 ->
  write_and_replicate fuel w =
    option_map message_flusher
      (write_and_replicate_loop partitioner msg_size w) /\
  forall w', write_and_replicate fuel w = Some w' -> quiet w w'.
Proof.
  intros Hp. unfold Scar.write_and_replicate.
  destruct (write_and_replicate_loop _ _ _) as [w1|] eqn:E; [|done].
  apply write_and_replicate_loop_quiet in E.
  rewrite sync_messages_idle by (destruct E as [-> _]; done).
  split; [done|]. intros w' [= <-].
  eapply quiet_trans; [exact E|apply message_flusher_quiet].
Qed.

Lemma abort_local fuel w :
  abort remote_request_handler fuel w =
    Some (message_flusher (abort_loop partitioner msg_size w)) /\
  quiet w (message_flusher (abort_loop partitioner msg_size w)).
Proof.
  split; [done|].
  eapply quiet_trans; [apply abort_loop_quiet|apply message_flusher_quiet].
Qed.

Lemma release_lock_local fuel w :
  release_lock remote_request_handler fuel w =
    Some (message_flusher (release_lock_loop partitioner msg_size w)) /\
  quiet w (message_flusher (release_lock_loop partitioner msg_size w)).
Proof.
  split; [done|].
  eapply quiet_trans;
    [apply release_lock_loop_quiet|apply message_flusher_quiet].
Qed.

Lemma commit_local fuel w :
  pendingResponses (txn w) = 0 ->
  Scar.commit partitioner msg_size get_read_key message_flusher
    remote_request_handler fuel w =
  Scar.commit partitioner msg_size get_read_key message_flusher
    remote_request_handler 0 w /\
  forall ok w',
    Scar.commit partitioner msg_size get_read_key message_flusher
      remote_request_handler fuel w = Some (ok, w') ->
    quiet w w'.
Proof.
  intros Hp. unfold Scar.commit.
  destruct (lock_write_set_local fuel w Hp) as [E1 Q1].
  destruct (lock_write_set_local 0 w Hp) as [E1' _].
  rewrite E1' . rewrite E1 in *.
  destruct (lock_write_set_loop _ _ _ _) as [w1|]; [|done].
  specialize (Q1 _ _ eq_refl).
  destruct (abort_lock (txn w1)).
  { rewrite !(proj1 (abort_local _ _)). split; [done|].
    intros ok w' [= _ <-].
    eapply quiet_trans; [exact Q1|apply abort_local; exact 0%nat]. }
  set (w2 := upd_txn compute_commit_ts (message_flusher w1)).
  assert (Q2 : quiet w w2).
  { eapply quiet_trans; [exact Q1|]. by repeat split. }
  assert (Hp2 : pendingResponses (txn w2) = 0)
    by (destruct Q2 as [-> _]; done).
  destruct (validate_read_set_local fuel w2 Hp2) as [E3 Q3].
  destruct (validate_read_set_local 0 w2 Hp2) as [E3' _].
  rewrite E3'. rewrite E3 in *.
  specialize (Q3 _ _ eq_refl).
  set (w3 := message_flusher (validate_read_set_loop partitioner msg_size w2))
    in *.
  destruct (negb _).
  - assert (Hp3 : pendingResponses (txn w3) = 0)
      by (destruct Q3 as [-> _]; done).
    destruct (write_and_replicate_local fuel w3 Hp3) as [E4 Q4].
    destruct (write_and_replicate_local 0 w3 Hp3) as [E4' _].
    rewrite E4'. rewrite E4 in *.
    destruct (write_and_replicate_loop _ _ _) as [w4|]; [|done].
    cbn [option_map] in *. specialize (Q4 _ eq_refl).
    rewrite !(proj1 (release_lock_local _ _)). split; [done|].
    intros ok w' [= _ <-].
    eapply quiet_trans; [exact Q2|].
    eapply quiet_trans; [exact Q3|].
    eapply quiet_trans; [exact Q4|apply release_lock_local; exact 0%nat].
  - rewrite !(proj1 (abort_local _ _)). split; [done|].
    intros ok w' [= _ <-].
    eapply quiet_trans; [exact Q2|].
    eapply quiet_trans; [exact Q3|apply abort_local; exact 0%nat].
Qed.

End Local.

(** X20.  A transaction that stays on its coordinator is committed without
    a word to the others.  With a partitioner that masters every partition
    here and replicates none elsewhere, and no response pending at the
    start, [commit] of [Executor<Workload, Scar>] never waits (it returns
    the same with no turn of the wait loop allowed as with any number) and,
    whether it commits or aborts, never calls the request handler, adds
    nothing to [network_size] and puts no piece into any message. *)
Theorem local_commit_is_quiet (partitioner : Partitioner)
    (msg_size : MessagePiece -> Z)
    (get_read_key : ScarTransaction -> Z -> option ScarRWKey)
    (coordinator_id : nat) (handle : World -> World)
    (fuel : nat) (t : ScarTransaction) (e : Env) :
  (forall p, has_master_partition partitioner p = true) ->
  (forall p k, is_partition_replicated_on partitioner p k = true ->
     k = master_coordinator partitioner p) ->
  pendingResponses t = 0 ->
  ScarExecutor.commit partitioner msg_size get_read_key coordinator_id handle
    fuel t e =
  ScarExecutor.commit partitioner msg_size get_read_key coordinator_id handle
    0 t e /\
  forall ok t' e',
    ScarExecutor.commit partitioner msg_size get_read_key coordinator_id
      handle fuel t e = Some (ok, t', e') ->
    quiet (mkWorld t e) (mkWorld t' e').
Proof.
  intros Hm Hr Hp. unfold ScarExecutor.commit.
  destruct (commit_local partitioner msg_size get_read_key coordinator_id
              handle Hm Hr fuel (mkWorld t e) Hp) as [E Q].
  rewrite <- E. split; [done|].
  destruct (Scar.commit _ _ _ _ _ _ _) as [[ok0 w0]|]; [|done].
  intros ok t' e' [= <- <- <-]. specialize (Q _ _ eq_refl).
  by destruct w0.
Qed.

End ScarLocal.

Module ScarLocalExamples.

Import Scar CoverageVocabulary Examples ScarLocal.

(** X20 on a single coordinator, at a transaction that reads and writes
    one free record: it commits, with no turn of the wait loop. *)
Lemma local_commit_is_quiet_witness :
  ScarExecutor.commit single_node unit_size find_read_key 0 silent 5
    (txn uncontended) (env uncontended) = commit_alone uncontended /\
  option_map (fun r => fst (fst r)) (commit_alone uncontended) = Some true /\
  quiet uncontended (after_commit uncontended).
Proof.
  destruct (local_commit_is_quiet single_node unit_size find_read_key 0
              silent 5 (txn uncontended) (env uncontended)
              (fun _ => eq_refl)
              (fun p k H => proj1 (Nat.eqb_eq k 0) H)
              eq_refl) as [E Q].
  split; [exact E|]. split; [vm_compute; reflexivity|].
  exact (Q true (txn (after_commit uncontended))
           (env (after_commit uncontended)) ltac:(vm_compute; reflexivity)).
Defined.

End ScarLocalExamples.

(** ** The inbound queue *)

Module ExecutorInboxFacts.

Import Scar ExecutorInbox.

Section Inbox.

Variable coordinator_id : nat.
Variable message_handler : MessagePiece -> nat -> World -> World.

Local Abbreviation process_request_loop :=
  (process_request_loop coordinator_id message_handler).
Local Abbreviation process_request :=
  (process_request coordinator_id message_handler).

Lemma process_request_loop_size in_queue : forall size w,
  wrap64 (fst (process_request_loop in_queue size w)) =
  wrap64 (size + Z.of_nat (length (concat (map snd in_queue)))).
Proof.
  induction in_queue as [|m in_queue IH]; intros size w;
    cbn [ExecutorInbox.process_request_loop map concat fst].
  - f_equal. cbn. lia.
  - rewrite IH, length_app. unfold wrap64.
    rewrite Z.add_mod_idemp_l by lia. f_equal. lia.
Qed.

Lemma process_request_loop_in_range in_queue : forall size w,
  wrap64 size = size ->
  wrap64 (fst (process_request_loop in_queue size w)) =
  fst (process_request_loop in_queue size w).
Proof.
  induction in_queue as [|m in_queue IH]; intros size w Hsz;
    cbn [ExecutorInbox.process_request_loop fst]; [done|].
  apply IH. unfold wrap64. by rewrite Z.mod_mod.
Qed.

Lemma process_request_loop_world in_queue : forall size size' w,
  snd (process_request_loop in_queue size w) =
  snd (process_request_loop in_queue size' w).
Proof.
  induction in_queue as [|m in_queue IH]; intros size size' w;
    cbn [ExecutorInbox.process_request_loop]; [done|apply IH].
Qed.

Lemma process_request_loop_app q1 : forall q2 size w,
  process_request_loop (q1 ++ q2) size w =
  process_request_loop q2 (fst (process_request_loop q1 size w))
    (snd (process_request_loop q1 size w)).
Proof.
  induction q1 as [|m q1 IH]; intros q2 size w;
    cbn [ExecutorInbox.process_request_loop app]; [done|apply IH].
Qed.

(** X21.  [process_request] returns the number of pieces it has handled
    (as a [std::size_t]); it does nothing when the inbound queue is empty;
    otherwise it ends on a flush, so that no piece written by a handler
    for another coordinator is left waiting in [messages]; and what it
    does to the messages found in two rounds is what it does to all of
    them found in one. *)
Theorem process_request_counts_and_flushes (in_queue : list Message)
    (w : World) :
  fst (process_request in_queue w) =
    wrap64 (Z.of_nat (length (concat (map snd in_queue)))) /\
  (in_queue = [] -> snd (process_request in_queue w) = w) /\
  (in_queue <> [] ->
   forall i m,
     messages (env (snd (process_request in_queue w))) !! i = Some m ->
     i <> coordinator_id -> m = []) /\
  (forall more,
     snd (process_request (in_queue ++ more) w) =
     snd (process_request more (snd (process_request in_queue w)))).
Proof.
  unfold ExecutorInbox.process_request. split; [|split; [|split]].
  - rewrite <- (process_request_loop_in_range in_queue 0 w eq_refl).
    by rewrite process_request_loop_size.
  - by intros ->.
  - intros Hne i m.
    destruct (exists_last Hne) as (q1 & last & ->).
    rewrite process_request_loop_app.
    cbn [ExecutorInbox.process_request_loop snd env upd_env].
    rewrite FlushFacts.flush_messages_closed. cbn [messages].
    rewrite FlushFacts.kept_lookup. cbn [Nat.add].
    destruct (messages _ !! i) as [m0|]; cbn; [|done].
    intros [= <-] Hi. by destruct (Nat.eqb_spec i coordinator_id).
  - intros more. rewrite process_request_loop_app.
    apply process_request_loop_world.
Qed.

End Inbox.

End ExecutorInboxFacts.
